(** * Local hybrid document search: embedding service and document service

    A shallow embedding of [src/services/simpleEmbeddingService.ts] and of
    the search, upload and delete paths of
    [src/services/simpleDocumentService.ts].

    Conventions of the embedding:
    - a JavaScript string is a [string]: a sequence of code units, here the
      code units 0..255 (the Latin-1 range), on which [toLowerCase], [\w],
      [\s] and [trim] are written out exactly;
    - a JavaScript number that holds a score, a weight or a frequency is a
      real number ([R]); [cosineSimilarity] is given a second time on the
      binary64 numbers of the engine ([Doubles]), for the properties that
      depend on rounding, overflow or [NaN]; 32-bit integer arithmetic (the
      word hash) is [Z] with its wrap-around written out; sizes and counts
      are [nat];
    - a plain object used as a dictionary is an association list in
      property order ([JsObj]); a [Map] is an association list in insertion
      order ([JsMap]);
    - a function that can throw returns an [option]; the two services are
      process-wide singletons, so their fields are threaded as a state;
    - [Math.sqrt] is [sqrt] and [Math.log] is [ln]; what a call takes from
      its environment (the generated id, the extracted text, the clock,
      [Math.random]) is an argument of its model. *)

From Stdlib Require Import String Ascii List Bool Arith ZArith NArith Lia.
From Stdlib Require Import Reals Lra Sorted Permutation.
From Stdlib Require PrimFloat SpecFloat FloatOps FloatAxioms.
Import ListNotations.

Set Implicit Arguments.

(** ** JavaScript strings *)

Module JsString.

Local Open Scope string_scope.
Local Open Scope N_scope.

Definition code (c : ascii) : N := N_of_ascii c.

Definition in_range (lo hi : N) (c : ascii) : bool :=
  (lo <=? code c) && (code c <=? hi).

(** [String.prototype.toLowerCase] on one code unit: A-Z and the Latin-1
    capitals U+00C0..U+00DE (U+00D7, the multiplication sign, excepted). *)
Definition lower_char (c : ascii) : ascii :=
  if in_range 65 90 c
     || (in_range 192 222 c && negb (code c =? 215))
  then ascii_of_N (code c + 32)
  else c.

Fixpoint toLowerCase (s : string) : string :=
  match s with
  | EmptyString => EmptyString
  | String c s' => String (lower_char c) (toLowerCase s')
  end.

(** The class [\w] of a regular expression without the unicode flag. *)
Definition is_word_char (c : ascii) : bool :=
  in_range 48 57 c || in_range 65 90 c || in_range 97 122 c
  || (code c =? 95).

(** The class [\s], which is also what [trim] strips: TAB, LF, VT, FF, CR,
    SPACE and NO-BREAK SPACE. *)
Definition is_space (c : ascii) : bool :=
  in_range 9 13 c || (code c =? 32) || (code c =? 160).

Definition is_empty (s : string) : bool :=
  match s with EmptyString => true | _ => false end.

Fixpoint trimStart (s : string) : string :=
  match s with
  | EmptyString => EmptyString
  | String c s' => if is_space c then trimStart s' else s
  end.

Fixpoint trimEnd (s : string) : string :=
  match s with
  | EmptyString => EmptyString
  | String c s' =>
      let t := trimEnd s' in
      if is_space c && is_empty t then EmptyString else String c t
  end.

Definition trim (s : string) : string := trimEnd (trimStart s).

(** [s.includes(sub)]. *)
Fixpoint includes (s sub : string) : bool :=
  String.prefix sub s ||
  match s with
  | EmptyString => false
  | String _ s' => includes s' sub
  end.

(** [s.endsWith(suffix)]. *)
Fixpoint endsWith (s suffix : string) : bool :=
  String.eqb s suffix ||
  match s with
  | EmptyString => false
  | String _ s' => endsWith s' suffix
  end.

Definition starts_with_sep (sep : ascii -> bool) (s : string) : bool :=
  match s with
  | EmptyString => false
  | String c _ => sep c
  end.

(** [s.split(/[sep]+/)]: the pieces between the maximal runs of separator
    characters, an empty piece before a leading run and after a trailing
    one included; the empty string splits into one empty piece. *)
Fixpoint split_runs (sep : ascii -> bool) (s : string) : list string :=
  match s with
  | EmptyString => [EmptyString]
  | String c s' =>
      let r := split_runs sep s' in
      if sep c then
        if starts_with_sep sep s' then r else EmptyString :: r
      else
        match r with
        | h :: t => String c h :: t
        | [] => [String c EmptyString]
        end
  end.

(** [s.replace(/[^\w\s]/g, ' ')]. *)
Fixpoint replace_non_word (s : string) : string :=
  match s with
  | EmptyString => EmptyString
  | String c s' =>
      String (if is_word_char c || is_space c then c else " "%char)
             (replace_non_word s')
  end.

Definition mem (w : string) (l : list string) : bool :=
  existsb (String.eqb w) l.

(** [Array.from(new Set(l))]: the first occurrence of each string, in
    order. *)
Fixpoint unique_from (seen : list string) (l : list string) : list string :=
  match l with
  | [] => []
  | w :: l' =>
      if mem w seen then unique_from seen l'
      else w :: unique_from (w :: seen) l'
  end.

Definition unique (l : list string) : list string := unique_from [] l.

End JsString.


(** ** Plain objects used as dictionaries *)

Module JsObj.

Import JsString.
Local Open Scope N_scope.

Definition is_digit (c : ascii) : bool := in_range 48 57 c.

Fixpoint all_digits (s : string) : bool :=
  match s with
  | EmptyString => true
  | String c s' => is_digit c && all_digits s'
  end.

Fixpoint digits_value (acc : N) (s : string) : N :=
  match s with
  | EmptyString => acc
  | String c s' => digits_value (10 * acc + (code c - 48)) s'
  end.

(** A property name is an array index when it is the canonical decimal
    form of an integer in 0 .. 2^32 - 2.  Such names are enumerated first,
    in ascending numeric order. *)
Definition array_index (k : string) : option N :=
  match k with
  | EmptyString => None
  | String c rest =>
      if all_digits k
         && ((negb (code c =? 48)) || is_empty rest)
         && (digits_value 0 k <=? 4294967294)
      then Some (digits_value 0 k)
      else None
  end.

Section Obj.

Variable V : Type.

Definition t := list (string * V).

Definition empty : t := [].

Fixpoint get (o : t) (k : string) : option V :=
  match o with
  | [] => None
  | (k', v) :: o' => if String.eqb k k' then Some v else get o' k
  end.

Definition has (o : t) (k : string) : bool :=
  match get o k with Some _ => true | None => false end.

Fixpoint replace (k : string) (v : V) (o : t) : t :=
  match o with
  | [] => []
  | (k', v') :: o' =>
      if String.eqb k k' then (k', v) :: o' else (k', v') :: replace k v o'
  end.

(** A new array-index name goes before the first name that is not an array
    index or is a larger one. *)
Fixpoint insert_index (n : N) (k : string) (v : V) (o : t) : t :=
  match o with
  | [] => [(k, v)]
  | (k', v') :: o' =>
      match array_index k' with
      | Some n' =>
          if n <? n' then (k, v) :: o else (k', v') :: insert_index n k v o'
      | None => (k, v) :: o
      end
  end.

(** [o[k] = v]. *)
Definition set (k : string) (v : V) (o : t) : t :=
  if has o k then replace k v o
  else
    match array_index k with
    | Some n => insert_index n k v o
    | None => o ++ [(k, v)]
    end.

(** [Object.keys(o)]. *)
Definition keys (o : t) : list string := map fst o.

End Obj.

End JsObj.

(** ** Maps keyed by strings, iterated in insertion order *)

Module JsMap.

Section Map.

Variable V : Type.

Definition t := list (string * V).

Definition empty : t := [].

Fixpoint get (m : t) (k : string) : option V :=
  match m with
  | [] => None
  | (k', v) :: m' => if String.eqb k k' then Some v else get m' k
  end.

Definition has (m : t) (k : string) : bool :=
  match get m k with Some _ => true | None => false end.

(** [m.set(k, v)]: an existing key keeps its place, a new one is appended. *)
Fixpoint set (k : string) (v : V) (m : t) : t :=
  match m with
  | [] => [(k, v)]
  | (k', v') :: m' =>
      if String.eqb k k' then (k', v) :: m' else (k', v') :: set k v m'
  end.

(** [m.delete(k)]. *)
Fixpoint delete (k : string) (m : t) : t :=
  match m with
  | [] => []
  | (k', v') :: m' =>
      if String.eqb k k' then m' else (k', v') :: delete k m'
  end.

Definition size (m : t) : nat := length m.

(** [m.values()]. *)
Definition values (m : t) : list V := map snd m.

Definition keys (m : t) : list string := map fst m.

End Map.

End JsMap.


(** ** The embedding service ([simpleEmbeddingService.ts]) *)

Module Embedding.

Import JsString.
Local Open Scope string_scope.
Local Open Scope list_scope.

Record DocumentVector := {
  tfidf : JsObj.t R;
  normalized : list R;
  wordCount : nat
}.

(** The mutable fields of the singleton [SimpleEmbeddingService]. *)
Record Service := {
  documents : JsMap.t DocumentVector;
  globalWordFreq : JsObj.t R;
  totalDocuments : nat;
  vocabulary : list string
}.

Definition initial : Service :=
  {| documents := []; globalWordFreq := []; totalDocuments := 0;
     vocabulary := [] |}.

Definition stopWords : list string :=
  [ "the"; "and"; "or"; "but"; "in"; "on"; "at"; "to"; "for"; "of"; "with";
    "by"; "this"; "that"; "these"; "those"; "a"; "an"; "is"; "are"; "was";
    "were"; "be"; "been"; "being"; "have"; "has"; "had"; "do"; "does"; "did";
    "will"; "would"; "could"; "should"; "may"; "might"; "must"; "can";
    "shall"; "from"; "as"; "it"; "he"; "she"; "they"; "we"; "you"; "me";
    "him"; "her"; "us"; "them"; "my"; "your"; "his"; "its"; "our"; "their";
    "i"; "am"; "not"; "no"; "yes"; "if"; "when"; "where"; "what"; "who";
    "how"; "why"; "which"; "all"; "any"; "some"; "many"; "most"; "few" ].

Definition semanticMappings : list (string * list string) :=
  [ ("fruit", ["apple"; "apples"; "banana"; "bananas"; "orange"; "oranges";
               "grape"; "grapes"; "berry"; "berries"]);
    ("food", ["apple"; "apples"; "banana"; "bananas"; "bread"; "meat";
              "vegetable"; "vegetables"]);
    ("color", ["red"; "blue"; "green"; "yellow"; "orange"; "purple"; "black";
               "white"]);
    ("animal", ["dog"; "cat"; "bird"; "fish"; "lion"; "tiger"; "elephant";
                "horse"]);
    ("technology", ["computer"; "software"; "app"; "website"; "digital";
                    "tech"; "internet"]);
    ("business", ["company"; "corporation"; "startup"; "enterprise";
                  "organization"; "firm"]) ].

(** The names every plain object inherits from [Object.prototype]; reading
    one of them on [semanticMappings] gives a function (or the prototype
    object), which is truthy and not iterable. *)
Definition prototypeNames : list string :=
  [ "constructor"; "__defineGetter__"; "__defineSetter__"; "hasOwnProperty";
    "__lookupGetter__"; "__lookupSetter__"; "isPrototypeOf";
    "propertyIsEnumerable"; "toString"; "valueOf"; "__proto__";
    "toLocaleString" ].

Inductive Property :=
| Own (targets : list string)
| Inherited
| Missing.

(** [this.semanticMappings[word]]. *)
Definition mapping (word : string) : Property :=
  match JsObj.get semanticMappings word with
  | Some targets => Own targets
  | None => if mem word prototypeNames then Inherited else Missing
  end.

(** Truthiness of [this.semanticMappings[word]]. *)
Definition is_concept (word : string) : bool :=
  match mapping word with Missing => false | _ => true end.

Definition preprocessText (text : string) : list string :=
  filter (fun word =>
            (2 <? String.length word)%nat && negb (mem word stopWords))
         (split_runs is_space (replace_non_word (toLowerCase text))).

(** The concepts whose target list holds [word] (the reverse lookup), in
    the order of [Object.entries]. *)
Definition conceptsOf (word : string) : list string :=
  map fst (filter (fun entry => mem word (snd entry)) semanticMappings).

(** What the [forEach] of [expandSemanticTerms] pushes on [expandedWords];
    [None] when the spread of a value that is not iterable throws. *)
Fixpoint pushed (words : list string) : option (list string) :=
  match words with
  | [] => Some []
  | word :: rest =>
      match mapping word with
      | Inherited => None
      | Own targets =>
          option_map (fun l => targets ++ conceptsOf word ++ l) (pushed rest)
      | Missing =>
          option_map (fun l => conceptsOf word ++ l) (pushed rest)
      end
  end.

(** The local [expandedWords] of [expandSemanticTerms] after the loop,
    duplicates still in. *)
Definition expandedWords (words : list string) : option (list string) :=
  option_map (fun l => words ++ l) (pushed words).

Definition expandSemanticTerms (words : list string) : option (list string) :=
  option_map unique (expandedWords words).

Local Open Scope R_scope.

(** [o[k] || 0] on an object whose own values are numbers. *)
Definition get_or_0 (o : JsObj.t R) (k : string) : R :=
  match JsObj.get o k with Some x => x | None => 0 end.

Definition increment (o : JsObj.t R) (word : string) : JsObj.t R :=
  JsObj.set word (get_or_0 o word + 1) o.

(** [words] holds no inherited property name when this is called:
    [expandSemanticTerms] has thrown on them. *)
Definition calculateTFIDF (words : list string) : JsObj.t R :=
  let wordFreq := fold_left increment words (@JsObj.empty R) in
  let docLength := INR (length words) in
  map (fun entry => (fst entry, snd entry / docLength)) wordFreq.

Local Open Scope Z_scope.

(** ToInt32. *)
Definition to_int32 (z : Z) : Z := (z + 2 ^ 31) mod 2 ^ 32 - 2 ^ 31.

Definition hash_step (hash : Z) (c : ascii) : Z :=
  to_int32 (to_int32 (Z.shiftl hash 5) - hash + Z.of_N (code c)).

Definition hashWord (word : string) : Z :=
  Z.abs (fold_left hash_step (list_ascii_of_string word) 0).

Local Close Scope Z_scope.

Definition dimensions : nat := 100.

Definition zeroVector : list R := repeat 0 dimensions.

(** [vector[i] += x] for an index inside the array. *)
Fixpoint add_at (i : nat) (x : R) (vector : list R) : list R :=
  match vector, i with
  | [], _ => []
  | v :: vs, O => (v + x) :: vs
  | v :: vs, S i' => v :: add_at i' x vs
  end.

Definition vectorIndex (word : string) : nat :=
  Z.to_nat (Z.rem (hashWord word) 100).

Definition semanticWeight (word : string) : R :=
  let w1 := if (6 <? String.length word)%nat then 1 * 1.2 else 1 in
  let w2 := if endsWith word "ing" || endsWith word "tion"
            then w1 * 1.1 else w1 in
  if is_concept word then w2 * 1.5 else w2.

Definition accumulate (tf : JsObj.t R) (vector : list R) (word : string)
  : list R :=
  add_at (vectorIndex word) (get_or_0 tf word * semanticWeight word) vector.

Definition sumSquares (vector : list R) : R :=
  fold_left (fun sum val => sum + val * val) vector 0.

Definition magnitude (vector : list R) : R := sqrt (sumSquares vector).

Definition normalize (vector : list R) : list R :=
  let m := magnitude vector in
  if Rlt_dec 0 m then map (fun val => val / m) vector else vector.

(** The vector [getEmbedding] returns for a non-empty list of expanded
    words. *)
Definition vectorOf (expanded : list string) : list R :=
  let tf := calculateTFIDF expanded in
  normalize (fold_left (accumulate tf) (unique expanded) zeroVector).

(** A document id is stored under when it is a non-empty string. *)
Definition truthy (documentId : option string) : option string :=
  match documentId with
  | Some id => if is_empty id then None else Some id
  | None => None
  end.

Definition register (documentId : option string) (tf : JsObj.t R)
  (count : nat) (s : Service) : Service :=
  match truthy documentId with
  | Some id =>
      let docs :=
        JsMap.set id {| tfidf := tf; normalized := []; wordCount := count |}
                  (documents s) in
      {| documents := docs;
         globalWordFreq := globalWordFreq s;
         totalDocuments := JsMap.size docs;
         vocabulary := vocabulary s |}
  | None => s
  end.

Definition countWords (tf : JsObj.t R) (s : Service) : Service :=
  {| documents := documents s;
     globalWordFreq := fold_left increment (JsObj.keys tf) (globalWordFreq s);
     totalDocuments := totalDocuments s;
     vocabulary := vocabulary s |}.

(** [getEmbedding(text, documentId)]: the vector, or [None] when the call
    throws, and the service after the call. *)
Definition getEmbedding (text : string) (documentId : option string)
  (s : Service) : option (list R) * Service :=
  let words := preprocessText text in
  match expandSemanticTerms words with
  | None => (None, s)
  | Some [] => (Some zeroVector, s)
  | Some expanded =>
      let tf := calculateTFIDF expanded in
      (Some (vectorOf expanded),
       register documentId tf (length expanded) (countWords tf s))
  end.

Definition dot (vectorA vectorB : list R) : R :=
  fold_left (fun sum ab => sum + fst ab * snd ab) (combine vectorA vectorB) 0.

Definition cosineSimilarity (vectorA vectorB : list R) : R :=
  if negb (length vectorA =? length vectorB)%nat
     || (length vectorA =? 0)%nat
  then 0
  else
    let dotProduct := dot vectorA vectorB in
    let magnitudeA := magnitude vectorA in
    let magnitudeB := magnitude vectorB in
    if Req_dec_T magnitudeA 0 then 0
    else if Req_dec_T magnitudeB 0 then 0
    else Rmax 0 (Rmin 1 (dotProduct / (magnitudeA * magnitudeB))).

(** The number of stored vectors whose term frequency of [word] is
    positive. *)
Definition docCount (s : Service) (word : string) : nat :=
  length (filter (fun doc =>
                    match JsObj.get (tfidf doc) word with
                    | Some x => if Rlt_dec 0 x then true else false
                    | None => false
                    end)
                 (JsMap.values (documents s))).

Definition idf_step (s : Service) (freq : JsObj.t R) (word : string)
  : JsObj.t R :=
  let n := docCount s word in
  if (0 <? n)%nat
  then JsObj.set word (ln (INR (totalDocuments s) / INR n)) freq
  else freq.

(** Called from [updateVocabulary] only, with [totalDocuments] above 1: the
    argument of the logarithm is positive. *)
Definition calculateIDF (s : Service) : Service :=
  let vocab := unique (JsObj.keys (globalWordFreq s)) in
  {| documents := documents s;
     globalWordFreq := fold_left (idf_step s) vocab (globalWordFreq s);
     totalDocuments := totalDocuments s;
     vocabulary := vocab |}.

Definition updateVocabulary (s : Service) : Service :=
  if (1 <? totalDocuments s)%nat then calculateIDF s else s.

(** [getDimensions()]. *)
Definition getDimensions : nat := 100.

(** What [getSemanticMappings] returns when a mapping is triggered. *)
Record SemanticMapping := {
  concept : string;
  matchedWords : list string
}.

(** The filter of [getSemanticMappings]: a mapped word matches when it is
    a query word, is part of one or holds one. *)
Definition triggers (queryWords : list string) (word : string) : bool :=
  mem (toLowerCase word) queryWords
  || existsb (fun qWord =>
                includes qWord (toLowerCase word)
                || includes (toLowerCase word) qWord)
             queryWords.

(** The loop over [Object.entries(this.semanticMappings)]: the first
    concept with a matching word, or that is a query word itself. *)
Fixpoint firstMapping (queryWords : list string)
  (entries : list (string * list string)) : option SemanticMapping :=
  match entries with
  | [] => None
  | (key, mappedWords) :: rest =>
      let matchingWords := filter (triggers queryWords) mappedWords in
      if (0 <? length matchingWords)%nat
      then Some {| concept := key; matchedWords := matchingWords |}
      else if mem key queryWords
      then Some {| concept := key; matchedWords := mappedWords |}
      else firstMapping queryWords rest
  end.

(** [getSemanticMappings(query)]; [None] is [undefined]. *)
Definition getSemanticMappings (query : string) : option SemanticMapping :=
  firstMapping (preprocessText query) semanticMappings.

End Embedding.


(** ** [Array.prototype.sort] with a comparison function *)

Module JsArray.

Section Sort.

Variable A : Type.

(** [notAfter x y] is the test [compare(x, y) <= 0] on the comparison
    function given to [sort]. *)
Variable notAfter : A -> A -> bool.

(** [x] stood before every element of [sorted] in the array: it stays
    before the first element it does not have to follow. *)
Fixpoint insert (x : A) (sorted : list A) : list A :=
  match sorted with
  | [] => [x]
  | y :: rest => if notAfter x y then x :: sorted else y :: insert x rest
  end.

(** The sort is stable (ECMAScript 2019): elements that compare equal keep
    their order.  For a comparison function that is not a consistent
    ordering the language leaves the order to the implementation; this is
    the order a stable insertion sort gives. *)
Definition sort (l : list A) : list A := fold_right insert [] l.

End Sort.

End JsArray.

(** ** The document service ([simpleDocumentService.ts]) *)

Module DocumentService.

Import JsString.
Local Open Scope string_scope.
Local Open Scope list_scope.

Inductive FileType := pdf | docx | csv | txt | xlsx | pptx.

Record Metadata := {
  title : option string;
  author : option string;
  pages : option nat
}.

Record SimpleDocument := {
  id : string;
  filename : string;
  fileType : FileType;
  uploadedAt : string;
  fileSize : nat;
  extractedText : string;
  keywords : list string;
  embedding : option (list R);
  metadata : Metadata
}.

Inductive SearchType := semantic | keyword | hybrid.

Record MatchedSection := { text : string; context : string }.

Record SearchResult := {
  document : SimpleDocument;
  score : R;
  searchType : SearchType;
  matchedSections : list MatchedSection
}.

(** The two singletons: the embedding service and the document map of the
    document service. *)
Record State := {
  embeddings : Embedding.Service;
  documents : JsMap.t SimpleDocument
}.

Definition initial : State :=
  {| embeddings := Embedding.initial; documents := [] |}.

Local Open Scope R_scope.

Definition is_sentence_end (c : ascii) : bool :=
  (code c =? 46)%N || (code c =? 33)%N || (code c =? 63)%N.

(** [text.split(/[.!?]+/).filter(s => s.trim().length > 0)]. *)
Definition sentencesOf (text : string) : list string :=
  filter (fun s => negb (is_empty (trim s)))
         (split_runs is_sentence_end text).

Definition keywordMatches (queryLower : string) (doc : SimpleDocument)
  : list string :=
  filter (fun keyword =>
            includes (toLowerCase keyword) queryLower
            || includes queryLower (toLowerCase keyword))
         (keywords doc).

Definition matchingSentences (queryLower : string) (doc : SimpleDocument)
  : list string :=
  filter (fun sentence => includes (toLowerCase sentence) queryLower)
         (sentencesOf (extractedText doc)).

Definition semanticScoreOf (queryEmbedding : option (list R))
  (doc : SimpleDocument) : R :=
  match queryEmbedding, embedding doc with
  | Some q, Some e => Embedding.cosineSimilarity q e
  | _, _ => 0
  end.

Definition keywordScoreOf (queryLower : string) (doc : SimpleDocument) : R :=
  let s0 := 0 in
  let s1 := if includes (toLowerCase (filename doc)) queryLower
            then s0 + 0.3 else s0 in
  let s2 := s1 + INR (length (keywordMatches queryLower doc)) * 0.15 in
  fold_left (fun s _ => s + 0.2) (matchingSentences queryLower doc) s2.

Definition matchesOf (queryLower : string) (doc : SimpleDocument)
  : list MatchedSection :=
  map (fun sentence => {| text := trim sentence; context := trim sentence |})
      (matchingSentences queryLower doc).

Definition minSemanticScore : R := 0.18.

Definition effectiveSemanticScoreOf (semanticScore : R) : R :=
  if Rlt_dec minSemanticScore semanticScore then semanticScore else 0.

(** [finalScore] and [searchType] after the classification. *)
Definition classify (effectiveSemanticScore keywordScore : R)
  : R * SearchType :=
  if Rlt_dec 0 effectiveSemanticScore then
    if Rlt_dec 0 keywordScore
    then (effectiveSemanticScore * 0.7 + keywordScore * 0.3, hybrid)
    else (effectiveSemanticScore, semantic)
  else if Rlt_dec 0 keywordScore
  then (Rmin keywordScore 1.0, keyword)
  else (0, keyword).

Definition thresholdOf (type : SearchType) : R :=
  match type with
  | semantic => 0.15
  | hybrid => 0.1
  | keyword => 0.1
  end.

(** One iteration of the loop over the stored documents: the result pushed
    for [doc], if any. *)
Definition resultFor (queryEmbedding : option (list R)) (queryLower : string)
  (doc : SimpleDocument) : option SearchResult :=
  let semanticScore := semanticScoreOf queryEmbedding doc in
  let keywordScore := keywordScoreOf queryLower doc in
  let (finalScore, type) :=
    classify (effectiveSemanticScoreOf semanticScore) keywordScore in
  if Rlt_dec (thresholdOf type) finalScore
  then Some {| document := doc; score := finalScore; searchType := type;
               matchedSections := firstn 3 (matchesOf queryLower doc) |}
  else None.

Fixpoint collect (queryEmbedding : option (list R)) (queryLower : string)
  (docs : list SimpleDocument) : list SearchResult :=
  match docs with
  | [] => []
  | doc :: rest =>
      match resultFor queryEmbedding queryLower doc with
      | Some r => r :: collect queryEmbedding queryLower rest
      | None => collect queryEmbedding queryLower rest
      end
  end.

(** The comparison function [(a, b) => b.score - a.score]. *)
Definition byScore (a b : SearchResult) : R := score b - score a.

Definition nonPositive (x : R) : bool := if Rle_dec x 0 then true else false.

(** [searchDocuments(query)]: the results and the state after the call. *)
Definition searchDocuments (query : string) (st : State)
  : list SearchResult * State :=
  if is_empty (trim query) then ([], st)
  else
    let (queryEmbedding, service) :=
      Embedding.getEmbedding query None (embeddings st) in
    let results :=
      collect queryEmbedding (toLowerCase query)
              (JsMap.values (documents st)) in
    (firstn 10 (JsArray.sort (fun a b => nonPositive (byScore a b)) results),
     {| embeddings := service; documents := documents st |}).

(** [getAllDocuments()]. *)
Definition getAllDocuments (st : State) : list SimpleDocument :=
  JsMap.values (documents st).

(** [getDocument(id)]. *)
Definition getDocument (id : string) (st : State) : option SimpleDocument :=
  JsMap.get (documents st) id.

(** [deleteDocument(id)]. *)
Definition deleteDocument (id : string) (st : State) : bool * State :=
  (JsMap.has (documents st) id,
   {| embeddings := embeddings st;
      documents := JsMap.delete id (documents st) |}).

Local Close Scope R_scope.

Definition stopWords : list string :=
  [ "the"; "and"; "or"; "but"; "in"; "on"; "at"; "to"; "for"; "of"; "with";
    "by"; "this"; "that"; "these"; "those"; "a"; "an"; "is"; "are"; "was";
    "were"; "be"; "been"; "being"; "have"; "has"; "had"; "do"; "does"; "did";
    "will"; "would"; "could"; "should"; "may"; "might"; "must"; "can";
    "shall"; "from"; "text"; "document"; "file"; "content"; "contains";
    "includes" ].

Definition isStopWord (word : string) : bool := mem word stopWords.

(** A value of the [frequency] object: a count, or the string that [+ 1]
    makes of an inherited property, which is not a number. *)
Inductive Frequency :=
| Count (n : nat)
| Text.

(** [frequency[word] = (frequency[word] || 0) + 1].  An assignment of a
    string to [__proto__] is ignored. *)
Definition bump (frequency : JsObj.t Frequency) (word : string)
  : JsObj.t Frequency :=
  match JsObj.get frequency word with
  | Some (Count n) => JsObj.set word (Count (n + 1)) frequency
  | Some Text => JsObj.set word Text frequency
  | None =>
      if String.eqb word "__proto__" then frequency
      else if mem word Embedding.prototypeNames
           then JsObj.set word Text frequency
           else JsObj.set word (Count 1) frequency
  end.

(** The comparison function [([, a], [, b]) => b - a]; a difference that
    is not a number counts as [+0]. *)
Definition byFrequency (a b : string * Frequency) : Z :=
  match snd a, snd b with
  | Count x, Count y => Z.of_nat y - Z.of_nat x
  | _, _ => 0
  end.

(** [extractKeywords(text)].  When a counted word is an inherited
    property name its entry holds a string, the comparison function
    returns [NaN] on it and is no consistent ordering: the order of the
    keywords and, past eight words, their selection are then those of the
    engine's sort, which the stable insertion sort below need not give.
    The statements on the order of the keywords leave such texts out; the
    others hold of every selection of at most eight counted words. *)
Definition extractKeywords (text : string) : list string :=
  let words :=
    filter (fun word => negb (isStopWord word))
      (filter (fun word => (3 <? String.length word)%nat)
         (split_runs is_space (replace_non_word (toLowerCase text)))) in
  let frequency := fold_left bump words (@JsObj.empty Frequency) in
  map fst
      (firstn 8
         (JsArray.sort (fun a b => (byFrequency a b <=? 0)%Z) frequency)).

Definition is_dot (c : ascii) : bool := (code c =? 46)%N.

(** [filename.split('.').pop()]. *)
Fixpoint afterLastDot (s : string) : option string :=
  match s with
  | EmptyString => None
  | String c s' =>
      match afterLastDot s' with
      | Some r => Some r
      | None => if is_dot c then Some s' else None
      end
  end.

Definition getFileExtension (filename : string) : option FileType :=
  let ext :=
    toLowerCase
      match afterLastDot filename with Some r => r | None => filename end in
  if String.eqb ext "pdf" then Some pdf
  else if String.eqb ext "docx" then Some docx
  else if String.eqb ext "csv" then Some csv
  else if String.eqb ext "txt" then Some txt
  else if String.eqb ext "xlsx" then Some xlsx
  else if String.eqb ext "pptx" then Some pptx
  else None.

Fixpoint is_extension (s : string) : bool :=
  match s with
  | EmptyString => true
  | String c s' => negb (is_dot c) && negb (code c =? 47)%N && is_extension s'
  end.

(** [name.replace(/\.[^/.]+$/, '')]. *)
Fixpoint stripExtension (s : string) : string :=
  match s with
  | EmptyString => EmptyString
  | String c s' =>
      if is_dot c && negb (is_empty s') && is_extension s'
      then EmptyString
      else String c (stripExtension s')
  end.

(** What one call of [uploadDocument] is given: the file, and the results
    of what the call takes from its environment (the generated id, the
    text [realTextExtraction] returns, the clock, the random page
    count). *)
Record Upload := {
  name : string;
  size : nat;
  generatedId : string;
  extracted : string;
  now : string;
  randomPages : nat
}.

Inductive Outcome :=
| Success (doc : SimpleDocument)
| Failure (error : string).

Definition uploadDocument (file : Upload) (st : State) : Outcome * State :=
  match getFileExtension (name file) with
  | None => (Failure "Unsupported file type", st)
  | Some fileExtension =>
      let (vector, service) :=
        Embedding.getEmbedding (extracted file) (Some (generatedId file))
                               (embeddings st) in
      let doc :=
        {| id := generatedId file;
           filename := name file;
           fileType := fileExtension;
           uploadedAt := now file;
           fileSize := size file;
           extractedText := extracted file;
           keywords := extractKeywords (extracted file);
           embedding := vector;
           metadata := {| title := Some (stripExtension (name file));
                          author := None;
                          pages := Some (randomPages file) |} |} in
      (Success doc,
       {| embeddings := Embedding.updateVocabulary service;
          documents := JsMap.set (generatedId file) doc (documents st) |})
  end.

Definition is_quote (c : ascii) : bool := (code c =? 34)%N.

Definition is_comma (c : ascii) : bool := (code c =? 44)%N.

(** The loop of [parseCSVLine] from one character on, with the field read
    so far and the quote flag. *)
Fixpoint parseCSVLineFrom (line current : string) (inQuotes : bool)
  : list string :=
  match line with
  | EmptyString => [trim current]
  | String char rest =>
      if is_quote char then parseCSVLineFrom rest current (negb inQuotes)
      else if is_comma char && negb inQuotes
      then trim current :: parseCSVLineFrom rest EmptyString inQuotes
      else parseCSVLineFrom rest (current ++ String char EmptyString)%string
                            inQuotes
  end.

(** [parseCSVLine(line)] of [extractFromCSV]. *)
Definition parseCSVLine (line : string) : list string :=
  parseCSVLineFrom line EmptyString false.

End DocumentService.


(** ** Vocabulary of the statements *)

Module Spec.

Import JsString DocumentService.

(** [l1] is [l2] with some elements left out, the order kept. *)
Inductive Subsequence (A : Type) : list A -> list A -> Prop :=
| sub_nil : Subsequence [] []
| sub_skip : forall x l1 l2, Subsequence l1 l2 -> Subsequence l1 (x :: l2)
| sub_keep : forall x l1 l2,
    Subsequence l1 l2 -> Subsequence (x :: l1) (x :: l2).

(** The order of a list sorted by [key], highest first. *)
Definition descending (A : Type) (key : A -> R) (a b : A) : Prop :=
  (key b <= key a)%R.

(** A vector with a component that is not zero. *)
Definition nonZero (v : list R) : Prop := exists x, In x v /\ x <> 0%R.

(** The sum of the components of a vector. *)
Definition total (v : list R) : R := fold_right Rplus 0%R v.

(** A string made of white space only (the empty string included). *)
Definition blank (s : string) : Prop :=
  Forall (fun c => is_space c = true) (list_ascii_of_string s).

Definition hasScore (s : R) (r : SearchResult) : bool :=
  if Req_dec_T (score r) s then true else false.

(** The operations of the document service. *)
Inductive Operation :=
| Insert (file : Upload)
| Delete (id : string)
| Search (query : string).

Definition step (st : State) (op : Operation) : State :=
  match op with
  | Insert file => snd (uploadDocument file st)
  | Delete id => snd (deleteDocument id st)
  | Search query => snd (searchDocuments query st)
  end.

(** The state after a sequence of operations on the fresh service. *)
Definition run (ops : list Operation) : State := fold_left step ops initial.

Definition notDelete (op : Operation) : Prop :=
  match op with Delete _ => False | _ => True end.

(** The distinct expanded terms of a text, when the expansion does not
    throw. *)
Definition termsOf (text : string) : option (list string) :=
  Embedding.expandSemanticTerms (Embedding.preprocessText text).

(** An upload whose text gives at least one term, under a non-empty id. *)
Definition indexable (op : Operation) : Prop :=
  match op with
  | Insert file =>
      generatedId file <> EmptyString /\
      exists w ws, termsOf (extracted file) = Some (w :: ws)
  | _ => True
  end.


(** The vector [getEmbedding] returns for [text], which no field of the
    service enters. *)
Definition embeddingOf (text : string) : option (list R) :=
  match termsOf text with
  | None => None
  | Some [] => Some Embedding.zeroVector
  | Some expanded => Some (Embedding.vectorOf expanded)
  end.

(** The results of a search before they are sorted and cut, in the order
    of the stored documents. *)
Definition candidates (query : string) (st : State) : list SearchResult :=
  collect (embeddingOf query) (toLowerCase query)
          (JsMap.values (documents st)).

Definition ranking : SearchResult -> SearchResult -> bool :=
  fun a b => nonPositive (byScore a b).

Definition storedIds (st : State) : list string :=
  JsMap.keys (documents st).

Definition indexedIds (st : State) : list string :=
  JsMap.keys (Embedding.documents (embeddings st)).

(** The counter is the size of the vector map of the embedding service,
    and every stored document has a vector there. *)
Definition consistent (st : State) : Prop :=
  Embedding.totalDocuments (embeddings st) = length (indexedIds st)
  /\ NoDup (indexedIds st)
  /\ NoDup (storedIds st)
  /\ incl (storedIds st) (indexedIds st).

(** Every stored document carries the vector of its own text. *)
Definition embedded (st : State) : Prop :=
  forall d, In d (JsMap.values (documents st)) ->
            embedding d = embeddingOf (extractedText d).

(** The document [uploadDocument] stores for a file of a supported
    type. *)
Definition documentOf (file : Upload) (type : FileType) : SimpleDocument :=
  {| id := generatedId file;
     filename := name file;
     fileType := type;
     uploadedAt := now file;
     fileSize := size file;
     extractedText := extracted file;
     keywords := extractKeywords (extracted file);
     embedding := embeddingOf (extracted file);
     metadata := {| title := Some (stripExtension (name file));
                    author := None;
                    pages := Some (randomPages file) |} |}.

End Spec.

(** ** Concrete uploads *)

Module Scenario.

Import DocumentService.
Local Open Scope string_scope.

(** A text file of four short sentences. *)
Definition applesFile : Upload :=
  {| name := "apples.txt";
     size := 30;
     generatedId := "d1";
     extracted := "apples. apples. apples. apples";
     now := "2024-01-01T00:00:00.000Z";
     randomPages := 1 |}.

(** A text file whose text is empty (a file that holds a byte order mark
    and nothing else). *)
Definition reportFile : Upload :=
  {| name := "report.txt";
     size := 3;
     generatedId := "d2";
     extracted := "";
     now := "2024-01-01T00:00:00.000Z";
     randomPages := 1 |}.

Definition applesStore : State := snd (uploadDocument applesFile initial).

Definition applesDocument : SimpleDocument := Spec.documentOf applesFile txt.

(** What the search for "apples" returns on [applesStore]. *)
Definition applesResult : SearchResult :=
  {| document := applesDocument;
     score := 1.075;
     searchType := hybrid;
     matchedSections :=
       [ {| text := "apples"; context := "apples" |};
         {| text := "apples"; context := "apples" |};
         {| text := "apples"; context := "apples" |} ] |}.

Definition reportStore : State := snd (uploadDocument reportFile initial).

Definition reportDocument : SimpleDocument := Spec.documentOf reportFile txt.


(** One upload, then the delete of the uploaded document. *)
Definition deletedStore : State :=
  Spec.run [Spec.Insert applesFile; Spec.Delete "d1"].

End Scenario.

(** ** The similarity on binary64 numbers

    [cosineSimilarity] of [simpleEmbeddingService.ts] with its numbers as
    the engine holds them: IEEE 754 binary64, every operation rounded to
    nearest, [===] as the IEEE equality. *)

Module Doubles.

Import PrimFloat.
Local Open Scope float_scope.

(** [Math.min(a, b)]: [NaN] when an argument is [NaN]; of two zeros the
    negative one. *)
Definition min (a b : float) : float :=
  if is_nan a || is_nan b then nan
  else if b <? a then b
  else if a <? b then a
  else if a =? 0
       then match classify a with FloatClass.NZero => a | _ => b end
       else a.

(** [Math.max(a, b)]: [NaN] when an argument is [NaN]; of two zeros the
    positive one. *)
Definition max (a b : float) : float :=
  if is_nan a || is_nan b then nan
  else if a <? b then b
  else if b <? a then a
  else if a =? 0
       then match classify a with FloatClass.NZero => b | _ => a end
       else a.

Definition dot (vectorA vectorB : list float) : float :=
  fold_left (fun sum ab => sum + fst ab * snd ab) (combine vectorA vectorB) 0.

Definition sumSquares (vector : list float) : float :=
  fold_left (fun sum a => sum + a * a) vector 0.

Definition magnitude (vector : list float) : float :=
  sqrt (sumSquares vector).

Definition cosineSimilarity (vectorA vectorB : list float) : float :=
  if negb (length vectorA =? length vectorB)%nat
     || (length vectorA =? 0)%nat
  then 0
  else
    let dotProduct := dot vectorA vectorB in
    let magnitudeA := magnitude vectorA in
    let magnitudeB := magnitude vectorB in
    if (magnitudeA =? 0) || (magnitudeB =? 0) then 0
    else max 0 (min 1 (dotProduct / (magnitudeA * magnitudeB))).


(** A number between 0 and 1. *)
Definition inUnit (x : float) : bool := (0 <=? x) && (x <=? 1).

End Doubles.

Unset Implicit Arguments.

(** * Vocabulary of the further properties *)

Module Notions.

Import JsString DocumentService Spec.
Local Open Scope string_scope.
Local Open Scope list_scope.

Definition chars (s : string) : list ascii := list_ascii_of_string s.

(** The characters a token of [preprocessText] is made of: [a-z], [0-9]
    and the underscore. *)
Definition tokenChar (c : ascii) : bool :=
  in_range 97 122 c || in_range 48 57 c || (code c =? 95)%N.

(** [w] is one lookup in [semanticMappings] away from [w0]: a word mapped
    to the concept [w0], or a concept whose words hold [w0]. *)
Definition related (w0 w : string) : Prop :=
  (exists targets,
      JsObj.get Embedding.semanticMappings w0 = Some targets /\ In w targets)
  \/ In w (Embedding.conceptsOf w0).

(** A text one of whose tokens names a property every object inherits. *)
Definition namesInherited (text : string) : Prop :=
  In "constructor" (Embedding.preprocessText text)
  \/ In "__proto__" (Embedding.preprocessText text).

(** Horner's rule for the polynomial in 31 on the character codes. *)
Definition horner (h : Z) (cs : list ascii) : Z :=
  fold_left (fun acc c => (31 * acc + Z.of_N (code c))%Z) cs h.

(** The extension [getFileExtension] reads a file type from. *)
Definition extensionOf (t : FileType) : string :=
  match t with
  | pdf => "pdf" | docx => "docx" | csv => "csv"
  | txt => "txt" | xlsx => "xlsx" | pptx => "pptx"
  end.

(** The words [extractKeywords] counts. *)
Definition keywordWords (text : string) : list string :=
  filter (fun word => negb (isStopWord word))
    (filter (fun word => (3 <? String.length word)%nat)
       (split_runs is_space (replace_non_word (toLowerCase text)))).

(** How often [extractKeywords] counts [word] in [text]. *)
Definition occurrences (text word : string) : nat :=
  count_occ string_dec (keywordWords text) word.

(** The number an entry of the [frequency] object holds. *)
Definition countOf (e : string * Frequency) : R :=
  match snd e with Count n => INR n | Text => 0%R end.

(** The object [o] holds the counts [c], and no name with count 0. *)
Definition counted (o : JsObj.t Frequency) (c : string -> nat) : Prop :=
  forall k, JsObj.get o k
            = match c k with O => None | S n => Some (Count (S n)) end.

(** The order [byFrequency] gives on entries that hold numbers. *)
Definition byCount (a b : string * Frequency) : bool :=
  if Rle_dec (countOf b) (countOf a) then true else false.

(** A state as the operations leave it: distinct ids; every document
    stored under its own id, with the type of its file name and the
    keywords and the vector of its text; and a counter that is the number
    of registered vectors. *)
Definition wellFormed (st : State) : Prop :=
  NoDup (storedIds st)
  /\ (forall k d, In (k, d) (documents st) ->
        id d = k
        /\ getFileExtension (filename d) = Some (fileType d)
        /\ keywords d = extractKeywords (extractedText d)
        /\ embedding d = embeddingOf (extractedText d))
  /\ Embedding.totalDocuments (embeddings st)
     = JsMap.size (Embedding.documents (embeddings st))
  /\ NoDup (indexedIds st).

(** The evidence the loop of [searchDocuments] looks for in one
    document. *)
Definition hasSignal (queryEmbedding : option (list R)) (queryLower : string)
  (doc : SimpleDocument) : Prop :=
  (minSemanticScore < semanticScoreOf queryEmbedding doc)%R
  \/ includes (toLowerCase (filename doc)) queryLower = true
  \/ keywordMatches queryLower doc <> []
  \/ matchingSentences queryLower doc <> [].

Definition doubleQuote : ascii := ascii_of_nat 34.

(** A field as a CSV writer puts it on a line: between double quotes when
    it holds a comma, as it is otherwise. *)
Definition csvField (field : string) : string :=
  if existsb is_comma (chars field)
  then String doubleQuote (field ++ String doubleQuote EmptyString)
  else field.

Definition csvLine (fields : list string) : string :=
  String.concat "," (map csvField fields).

(** No white space at either end. *)
Definition trimmed (s : string) : Prop := trim s = s.

Definition quoteFree (s : string) : Prop :=
  Forall (fun c => is_quote c = false) (chars s).

(** A text of three words with three different frequencies. *)
Definition fruitText : string := "banana apple banana cherry banana apple".

(** What the search for "constructor apples" returns for the document of
    [Scenario.applesFile]. *)
Definition inheritedResult : SearchResult :=
  {| document := Scenario.applesDocument;
     score := Rmin (keywordScoreOf "constructor apples"
                                   Scenario.applesDocument) 1.0;
     searchType := keyword;
     matchedSections :=
       firstn 3 (matchesOf "constructor apples" Scenario.applesDocument) |}.

End Notions.

Set Implicit Arguments.

(** ** Facts on real sums and on the cosine *)

Module VectorFacts.

Import Embedding.
Local Open Scope R_scope.

Lemma sumSquares_from (v : list R) (a : R) :
  fold_left (fun sum val => sum + val * val) v a = a + sumSquares v.
Proof.
  unfold sumSquares. revert a.
  induction v as [|x v IH]; intros a; simpl.
  - lra.
  - rewrite (IH (a + x * x)), (IH (0 + x * x)). lra.
Qed.

Lemma sumSquares_cons (x : R) (v : list R) :
  sumSquares (x :: v) = x * x + sumSquares v.
Proof.
  unfold sumSquares at 1. simpl. rewrite sumSquares_from. lra.
Qed.

Lemma sumSquares_nonneg (v : list R) : 0 <= sumSquares v.
Proof.
  induction v as [|x v IH].
  - unfold sumSquares; simpl; lra.
  - rewrite sumSquares_cons. nra.
Qed.

Lemma sumSquares_pos (v : list R) :
  Spec.nonZero v -> 0 < sumSquares v.
Proof.
  intros [x [Hin Hx]].
  induction v as [|y v IH]; [contradiction|].
  rewrite sumSquares_cons.
  pose proof (sumSquares_nonneg v) as Hv.
  destruct Hin as [->|Hin].
  - assert (0 < x * x) by nra. lra.
  - specialize (IH Hin). nra.
Qed.

Lemma sumSquares_zeros (n : nat) : sumSquares (repeat 0 n) = 0.
Proof.
  induction n as [|n IH]; simpl.
  - reflexivity.
  - rewrite sumSquares_cons, IH. lra.
Qed.

Lemma dot_from (a b : list R) (acc : R) :
  fold_left (fun sum ab => sum + fst ab * snd ab) (combine a b) acc
  = acc + dot a b.
Proof.
  unfold dot. revert b acc.
  induction a as [|x a IH]; intros [|y b] acc; simpl; try lra.
  rewrite (IH b (acc + x * y)), (IH b (0 + x * y)). lra.
Qed.

Lemma dot_self (v : list R) : dot v v = sumSquares v.
Proof.
  induction v as [|x v IH].
  - reflexivity.
  - rewrite sumSquares_cons, <- IH.
    unfold dot at 1. simpl. rewrite dot_from. lra.
Qed.

Lemma magnitude_pos (v : list R) : Spec.nonZero v -> 0 < magnitude v.
Proof.
  intros H. unfold magnitude. apply sqrt_lt_R0. now apply sumSquares_pos.
Qed.

Lemma magnitude_zeros (n : nat) : magnitude (repeat 0 n) = 0.
Proof.
  unfold magnitude. rewrite sumSquares_zeros. apply sqrt_0.
Qed.

Lemma cosine_self (v : list R) :
  Spec.nonZero v -> cosineSimilarity v v = 1.
Proof.
  intros Hnz.
  pose proof (magnitude_pos Hnz) as Hm.
  unfold cosineSimilarity.
  rewrite Nat.eqb_refl. simpl.
  destruct v as [|x v].
  { destruct Hnz as [y [[] _]]. }
  simpl length. simpl Nat.eqb.
  destruct (Req_dec_T (magnitude (x :: v)) 0) as [E|_]; [lra|].
  rewrite dot_self.
  assert (Hsq : magnitude (x :: v) * magnitude (x :: v) = sumSquares (x :: v)).
  { unfold magnitude. apply sqrt_sqrt. apply sumSquares_nonneg. }
  rewrite Hsq.
  assert (Hpos : 0 < sumSquares (x :: v)) by now apply sumSquares_pos.
  replace (sumSquares (x :: v) / sumSquares (x :: v)) with 1
    by (field; lra).
  rewrite Rmin_left by lra. rewrite Rmax_right by lra. reflexivity.
Qed.

Lemma cosine_zeros (v : list R) (n : nat) :
  cosineSimilarity v (repeat 0 n) = 0.
Proof.
  unfold cosineSimilarity.
  match goal with |- (if ?c then _ else _) = _ => destruct c end;
    [reflexivity|].
  destruct (Req_dec_T (magnitude v) 0); [reflexivity|].
  destruct (Req_dec_T (magnitude (repeat 0 n)) 0) as [_|Hne];
    [reflexivity|].
  exfalso. apply Hne, magnitude_zeros.
Qed.

Lemma cosine_range (a b : list R) : 0 <= cosineSimilarity a b <= 1.
Proof.
  unfold cosineSimilarity.
  match goal with |- _ <= (if ?c then _ else _) <= _ => destruct c end;
    [lra|].
  destruct (Req_dec_T (magnitude a) 0); [lra|].
  destruct (Req_dec_T (magnitude b) 0); [lra|].
  split.
  - apply Rmax_l.
  - apply Rmax_lub; [lra|apply Rmin_l].
Qed.

End VectorFacts.

(** ** Facts on objects and maps *)

Module ObjFacts.

Import JsString.

Section Obj.

Variable V : Type.
Implicit Types (o : JsObj.t V) (k : string) (v : V).

Lemma has_get o k : JsObj.has o k = false -> JsObj.get o k = None.
Proof.
  unfold JsObj.has. destruct (JsObj.get o k); [discriminate|reflexivity].
Qed.

Lemma get_replace o k v k' :
  JsObj.has o k = true ->
  JsObj.get (JsObj.replace k v o) k'
  = if String.eqb k' k then Some v else JsObj.get o k'.
Proof.
  unfold JsObj.has.
  induction o as [|[k0 v0] o IH]; simpl; [discriminate|].
  intros H.
  destruct (String.eqb_spec k k0) as [->|Hk]; simpl.
  - destruct (String.eqb_spec k' k0); reflexivity.
  - destruct (String.eqb_spec k' k0) as [->|Hk'].
    + destruct (String.eqb_spec k0 k); [congruence|reflexivity].
    + now apply IH.
Qed.

Lemma get_insert_index o n k v k' :
  JsObj.get o k = None ->
  JsObj.get (JsObj.insert_index n k v o) k'
  = if String.eqb k' k then Some v else JsObj.get o k'.
Proof.
  induction o as [|[k0 v0] o IH]; simpl.
  - intros _. destruct (String.eqb k' k); reflexivity.
  - destruct (String.eqb_spec k k0) as [->|Hk]; [discriminate|].
    intros H.
    destruct (JsObj.array_index k0) as [n'|]; [destruct (n <? n')%N|];
      simpl; try reflexivity.
    destruct (String.eqb_spec k' k0) as [->|Hk'].
    + destruct (String.eqb_spec k0 k); [congruence|reflexivity].
    + now apply IH.
Qed.

Lemma get_append o k v k' :
  JsObj.get o k = None ->
  JsObj.get (o ++ [(k, v)]) k'
  = if String.eqb k' k then Some v else JsObj.get o k'.
Proof.
  induction o as [|[k0 v0] o IH]; simpl.
  - intros _. destruct (String.eqb k' k); reflexivity.
  - destruct (String.eqb_spec k k0) as [->|Hk]; [discriminate|].
    intros H.
    destruct (String.eqb_spec k' k0) as [->|Hk'].
    + destruct (String.eqb_spec k0 k); [congruence|reflexivity].
    + now apply IH.
Qed.

(** Reading after writing. *)
Lemma get_set o k v k' :
  JsObj.get (JsObj.set k v o) k'
  = if String.eqb k' k then Some v else JsObj.get o k'.
Proof.
  unfold JsObj.set.
  destruct (JsObj.has o k) eqn:Hh.
  - now apply get_replace.
  - apply has_get in Hh.
    destruct (JsObj.array_index k).
    + now apply get_insert_index.
    + now apply get_append.
Qed.

Lemma get_In_keys o k v : JsObj.get o k = Some v -> In k (JsObj.keys o).
Proof.
  induction o as [|[k0 v0] o IH]; simpl; [discriminate|].
  destruct (String.eqb_spec k k0) as [->|Hk]; auto.
Qed.

Lemma get_None_keys o k : JsObj.get o k = None -> ~ In k (JsObj.keys o).
Proof.
  induction o as [|[k0 v0] o IH]; simpl; [tauto|].
  destruct (String.eqb_spec k k0) as [->|Hk]; [discriminate|].
  intros H [E|Hin]; [congruence|]. now apply IH.
Qed.

Lemma keys_get o k : In k (JsObj.keys o) -> exists v, JsObj.get o k = Some v.
Proof.
  intros Hin. destruct (JsObj.get o k) as [v|] eqn:E; [now exists v|].
  now apply get_None_keys in E.
Qed.

Lemma keys_replace o k v : JsObj.keys (JsObj.replace k v o) = JsObj.keys o.
Proof.
  unfold JsObj.keys.
  induction o as [|[k0 v0] o IH]; simpl; [reflexivity|].
  destruct (String.eqb k k0); simpl; [reflexivity|].
  f_equal. exact IH.
Qed.

Lemma keys_insert_index o n k v :
  Permutation (k :: JsObj.keys o) (JsObj.keys (JsObj.insert_index n k v o)).
Proof.
  induction o as [|[k0 v0] o IH]; simpl; [reflexivity|].
  destruct (JsObj.array_index k0) as [n'|]; [destruct (n <? n')%N|];
    simpl; try reflexivity.
  rewrite perm_swap. now apply perm_skip.
Qed.

(** Writing a new name adds it to the names; writing an old one keeps
    them. *)
Lemma keys_set o k v :
  Permutation
    (if JsObj.has o k then JsObj.keys o else k :: JsObj.keys o)
    (JsObj.keys (JsObj.set k v o)).
Proof.
  unfold JsObj.set.
  destruct (JsObj.has o k).
  - now rewrite keys_replace.
  - destruct (JsObj.array_index k).
    + apply keys_insert_index.
    + unfold JsObj.keys. rewrite map_app. simpl.
      apply Permutation_cons_append.
Qed.

Lemma NoDup_keys_set o k v :
  NoDup (JsObj.keys o) -> NoDup (JsObj.keys (JsObj.set k v o)).
Proof.
  intros Hnd.
  eapply Permutation_NoDup; [apply keys_set|].
  destruct (JsObj.has o k) eqn:Hh; [assumption|].
  constructor; [|assumption].
  apply get_None_keys. now apply has_get.
Qed.

Lemma In_keys_set o k v k' :
  In k' (JsObj.keys (JsObj.set k v o)) <-> k' = k \/ In k' (JsObj.keys o).
Proof.
  split.
  - intros Hin. apply keys_get in Hin. destruct Hin as [x Hx].
    rewrite get_set in Hx.
    destruct (String.eqb_spec k' k); [now left|].
    right. eapply get_In_keys; eauto.
  - intros H. 
    assert (exists x, JsObj.get (JsObj.set k v o) k' = Some x) as [x Hx].
    { rewrite get_set. destruct (String.eqb_spec k' k); [eauto|].
      destruct H as [E|Hin]; [congruence|]. now apply keys_get. }
    eapply get_In_keys; eauto.
Qed.

End Obj.

Lemma mem_In (w : string) (l : list string) : mem w l = true <-> In w l.
Proof.
  unfold mem. rewrite existsb_exists. split.
  - intros [x [Hin E]]. apply String.eqb_eq in E. now subst.
  - intros Hin. exists w. split; [assumption|apply String.eqb_refl].
Qed.

Lemma mem_false (w : string) (l : list string) :
  mem w l = false <-> ~ In w l.
Proof.
  rewrite <- mem_In. destruct (mem w l); split; congruence.
Qed.

Lemma unique_from_spec (seen l : list string) (w : string) :
  In w (unique_from seen l) <-> In w l /\ ~ In w seen.
Proof.
  revert seen. induction l as [|x l IH]; intros seen; simpl.
  - tauto.
  - destruct (mem x seen) eqn:Hm.
    + apply mem_In in Hm. rewrite IH. split.
      * intros [H1 H2]. auto.
      * intros [[->|H1] H2]; [contradiction|auto].
    + apply mem_false in Hm. simpl. rewrite IH. simpl. split.
      * intros [->|[H1 H2]]; [auto|]. split; [auto|tauto].
      * intros [[->|H1] H2]; [auto|].
        destruct (string_dec x w) as [->|Hne]; [auto|].
        right. split; [assumption|]. intros [E|H3]; congruence.
Qed.

Lemma unique_from_NoDup (seen l : list string) : NoDup (unique_from seen l).
Proof.
  revert seen. induction l as [|x l IH]; intros seen; simpl.
  - constructor.
  - destruct (mem x seen); [apply IH|].
    constructor; [|apply IH].
    rewrite unique_from_spec. simpl. tauto.
Qed.

Lemma unique_In (l : list string) (w : string) : In w (unique l) <-> In w l.
Proof. unfold unique. rewrite unique_from_spec. simpl. tauto. Qed.

Lemma unique_NoDup (l : list string) : NoDup (unique l).
Proof. apply unique_from_NoDup. Qed.

End ObjFacts.

Module MapFacts.

Section Map.

Variable V : Type.
Implicit Types (m : JsMap.t V) (k : string) (v : V).

Lemma stored_keys_set m k v k' :
  In k' (JsMap.keys (JsMap.set k v m)) <-> k' = k \/ In k' (JsMap.keys m).
Proof.
  induction m as [|[k0 v0] m IH]; simpl.
  - intuition.
  - destruct (String.eqb_spec k k0) as [->|Hne]; simpl.
    + intuition.
    + rewrite IH. intuition.
Qed.

Lemma stored_keys_set_NoDup m k v :
  NoDup (JsMap.keys m) -> NoDup (JsMap.keys (JsMap.set k v m)).
Proof.
  induction m as [|[k0 v0] m IH]; simpl; intros Hnd.
  - repeat constructor. intros [].
  - destruct (String.eqb_spec k k0) as [->|Hne]; simpl; [assumption|].
    inversion Hnd as [|? ? Hk Hm]; subst.
    constructor; [|now apply IH].
    rewrite stored_keys_set. intros [E|Hin]; [congruence|contradiction].
Qed.

Lemma stored_keys_delete m k k' :
  In k' (JsMap.keys (JsMap.delete k m)) -> In k' (JsMap.keys m).
Proof.
  induction m as [|[k0 v0] m IH]; simpl; [tauto|].
  destruct (String.eqb k k0); simpl; intuition.
Qed.

Lemma stored_keys_delete_NoDup m k :
  NoDup (JsMap.keys m) -> NoDup (JsMap.keys (JsMap.delete k m)).
Proof.
  induction m as [|[k0 v0] m IH]; simpl; intros Hnd; [constructor|].
  inversion Hnd as [|? ? Hk Hm]; subst.
  destruct (String.eqb k k0); simpl; [assumption|].
  constructor; [|now apply IH].
  intros Hin. apply stored_keys_delete in Hin. contradiction.
Qed.

Lemma stored_values_set m k v x :
  In x (JsMap.values (JsMap.set k v m)) ->
  x = v \/ In x (JsMap.values m).
Proof.
  induction m as [|[k0 v0] m IH]; simpl.
  - intuition.
  - destruct (String.eqb k k0); simpl; intuition.
Qed.

Lemma stored_values_delete m k x :
  In x (JsMap.values (JsMap.delete k m)) -> In x (JsMap.values m).
Proof.
  induction m as [|[k0 v0] m IH]; simpl; [tauto|].
  destruct (String.eqb k k0); simpl; intuition.
Qed.

Lemma size_keys m : JsMap.size m = length (JsMap.keys m).
Proof. unfold JsMap.size, JsMap.keys. now rewrite length_map. Qed.

End Map.

End MapFacts.

(** ** Facts on the embedding service *)

Module EmbeddingFacts.

Import JsString Embedding Spec.
Local Open Scope R_scope.

Lemma get_or_0_increment (o : JsObj.t R) (w w' : string) :
  get_or_0 (increment o w) w'
  = get_or_0 o w' + (if String.eqb w' w then 1 else 0).
Proof.
  unfold get_or_0, increment. rewrite ObjFacts.get_set.
  destruct (String.eqb_spec w' w) as [->|Hne]; [reflexivity|].
  destruct (JsObj.get o w'); lra.
Qed.

(** Counting: after the loop a word has its old count plus its number of
    occurrences. *)
Lemma get_or_0_count (ws : list string) (o : JsObj.t R) (w : string) :
  get_or_0 (fold_left increment ws o) w
  = get_or_0 o w + INR (count_occ string_dec ws w).
Proof.
  revert o. induction ws as [|x ws IH]; intros o.
  - simpl. lra.
  - cbn [fold_left count_occ]. rewrite IH, get_or_0_increment.
    destruct (string_dec x w) as [->|Hne].
    + rewrite String.eqb_refl, S_INR. lra.
    + destruct (String.eqb_spec w x); [congruence|lra].
Qed.

Lemma keys_count_NoDup (ws : list string) (o : JsObj.t R) :
  NoDup (JsObj.keys o) -> NoDup (JsObj.keys (fold_left increment ws o)).
Proof.
  revert o. induction ws as [|x ws IH]; intros o Hnd; simpl.
  - assumption.
  - apply IH. now apply ObjFacts.NoDup_keys_set.
Qed.

Lemma keys_count_In (ws : list string) (o : JsObj.t R) (w : string) :
  In w (JsObj.keys (fold_left increment ws o))
  <-> In w ws \/ In w (JsObj.keys o).
Proof.
  revert o. induction ws as [|x ws IH]; intros o; simpl.
  - tauto.
  - rewrite IH. unfold increment at 1. rewrite ObjFacts.In_keys_set.
    intuition congruence.
Qed.

Lemma keys_calculateTFIDF (ws : list string) :
  JsObj.keys (calculateTFIDF ws)
  = JsObj.keys (fold_left increment ws (@JsObj.empty R)).
Proof.
  unfold calculateTFIDF, JsObj.keys. rewrite map_map. reflexivity.
Qed.

Lemma get_map_values (f : R -> R) (o : JsObj.t R) (w : string) :
  JsObj.get (map (fun entry => (fst entry, f (snd entry))) o) w
  = option_map f (JsObj.get o w).
Proof.
  induction o as [|[k v] o IH]; simpl; [reflexivity|].
  destruct (String.eqb w k); [reflexivity|exact IH].
Qed.

(** What [calculateTFIDF] gives on the list it is handed: the occurrence
    count in that list over the length of that list. *)
Lemma calculateTFIDF_spec (ws : list string) (w : string) :
  get_or_0 (calculateTFIDF ws) w
  = INR (count_occ string_dec ws w) / INR (length ws).
Proof.
  unfold calculateTFIDF, get_or_0. cbv zeta.
  rewrite (get_map_values (fun x => x / INR (length ws))).
  pose proof (get_or_0_count ws (@JsObj.empty R) w) as Hc.
  unfold get_or_0 in Hc. simpl JsObj.get in Hc at 2.
  destruct (JsObj.get (fold_left increment ws (@JsObj.empty R)) w) as [x|]
    eqn:E; simpl.
  - rewrite Hc. f_equal. lra.
  - assert (Hz : INR (count_occ string_dec ws w) = 0) by lra.
    rewrite Hz. unfold Rdiv. lra.
Qed.

Lemma count_occ_NoDup (ws : list string) (w : string) :
  NoDup ws -> In w ws -> count_occ string_dec ws w = 1%nat.
Proof.
  intros Hnd Hin.
  pose proof (proj1 (NoDup_count_occ string_dec ws) Hnd w) as Hle.
  pose proof (proj1 (count_occ_In string_dec ws w) Hin) as Hpos.
  lia.
Qed.

(** On a list without duplicates every term has the same frequency. *)
Lemma calculateTFIDF_NoDup (ws : list string) (w : string) :
  NoDup ws -> In w ws ->
  get_or_0 (calculateTFIDF ws) w = 1 / INR (length ws).
Proof.
  intros Hnd Hin. rewrite calculateTFIDF_spec, count_occ_NoDup by assumption.
  reflexivity.
Qed.

Lemma calculateTFIDF_pos (ws : list string) (w : string) :
  In w ws -> 0 < get_or_0 (calculateTFIDF ws) w.
Proof.
  intros Hin. rewrite calculateTFIDF_spec.
  assert (Hc : (0 < count_occ string_dec ws w)%nat)
    by now apply count_occ_In.
  assert (Hl : (0 < length ws)%nat) by (destruct ws; [contradiction|simpl; lia]).
  apply lt_INR in Hc, Hl. simpl in Hc, Hl.
  apply Rdiv_lt_0_compat; assumption.
Qed.

Lemma semanticWeight_pos (w : string) : 0 < semanticWeight w.
Proof.
  unfold semanticWeight.
  destruct (6 <? String.length w)%nat;
    destruct (endsWith w "ing" || endsWith w "tion");
    destruct (is_concept w); lra.
Qed.

Lemma vectorIndex_lt (w : string) : (vectorIndex w < dimensions)%nat.
Proof.
  unfold vectorIndex, dimensions, hashWord.
  set (h := fold_left hash_step (list_ascii_of_string w) 0%Z).
  assert (Hr : (0 <= Z.rem (Z.abs h) 100 < 100)%Z).
  { apply Z.rem_bound_pos; lia. }
  lia.
Qed.

Lemma add_at_length (i : nat) (x : R) (v : list R) :
  length (add_at i x v) = length v.
Proof.
  revert i. induction v as [|y v IH]; intros [|i]; simpl; auto.
Qed.

Lemma add_at_total (i : nat) (x : R) (v : list R) :
  (i < length v)%nat -> total (add_at i x v) = total v + x.
Proof.
  revert i. induction v as [|y v IH]; intros [|i] Hi; simpl in *;
    try lia; try lra.
  rewrite IH by lia. lra.
Qed.

Lemma add_at_nonneg (i : nat) (x : R) (v : list R) :
  0 <= x -> Forall (Rle 0) v -> Forall (Rle 0) (add_at i x v).
Proof.
  intros Hx. revert i.
  induction v as [|y v IH]; intros [|i] Hv; simpl; auto;
    inversion Hv; subst; constructor; auto; lra.
Qed.

Lemma total_pos_nonZero (v : list R) :
  Forall (Rle 0) v -> 0 < total v -> exists x, In x v /\ 0 < x.
Proof.
  induction v as [|y v IH]; simpl; intros Hv Ht; [lra|].
  inversion Hv as [|? ? Hy Hv']; subst.
  destruct (Rlt_dec 0 y) as [Hpos|Hnp].
  - exists y. auto.
  - destruct IH as [x [Hin Hx]]; [assumption|lra|].
    exists x. auto.
Qed.

Lemma accumulate_invariant (tf : JsObj.t R) (ws : list string) (v : list R) :
  length v = dimensions -> Forall (Rle 0) v ->
  (forall w, 0 <= get_or_0 tf w) ->
  let v' := fold_left (accumulate tf) ws v in
  length v' = dimensions /\ Forall (Rle 0) v' /\
  total v' = total v
             + fold_right (fun w a => get_or_0 tf w * semanticWeight w + a)
                          0 ws.
Proof.
  intros Hl Hv Htf. revert v Hl Hv.
  induction ws as [|w ws IH]; intros v Hl Hv; simpl.
  - repeat split; auto. lra.
  - assert (Hc : 0 <= get_or_0 tf w * semanticWeight w).
    { pose proof (semanticWeight_pos w). specialize (Htf w). nra. }
    destruct (IH (accumulate tf v w)) as [H1 [H2 H3]].
    + unfold accumulate. now rewrite add_at_length.
    + unfold accumulate. now apply add_at_nonneg.
    + repeat split; auto. rewrite H3. unfold accumulate.
      rewrite add_at_total; [lra|].
      rewrite Hl. apply vectorIndex_lt.
Qed.

Lemma zeroVector_nonneg : Forall (Rle 0) zeroVector.
Proof.
  unfold zeroVector. generalize dimensions.
  induction n; simpl; constructor; auto; lra.
Qed.

Lemma total_zeros (n : nat) : total (repeat 0 n) = 0.
Proof. induction n; simpl; lra. Qed.

Lemma get_or_0_tf_nonneg (ws : list string) (w : string) :
  0 <= get_or_0 (calculateTFIDF ws) w.
Proof.
  rewrite calculateTFIDF_spec.
  pose proof (pos_INR (count_occ string_dec ws w)).
  pose proof (pos_INR (length ws)).
  destruct (Req_dec (INR (length ws)) 0) as [E|Hne].
  - rewrite E. unfold Rdiv. rewrite Rinv_0. lra.
  - apply Rmult_le_pos; [assumption|].
    apply Rlt_le, Rinv_0_lt_compat. lra.
Qed.

(** The vector of a non-empty list of terms has a component that is not
    zero. *)
Lemma vectorOf_nonZero (w : string) (ws : list string) :
  Spec.nonZero (vectorOf (w :: ws)).
Proof.
  unfold vectorOf.
  set (e := w :: ws).
  set (tf := calculateTFIDF e).
  destruct (@accumulate_invariant tf (unique e) zeroVector)
    as [Hl [Hnn Ht]].
  - unfold zeroVector. apply repeat_length.
  - apply zeroVector_nonneg.
  - intros x. apply get_or_0_tf_nonneg.
  - set (raw := fold_left (accumulate tf) (unique e) zeroVector) in *.
    assert (Hpos : 0 < total raw).
    { rewrite Ht. unfold zeroVector. rewrite total_zeros.
      assert (Hu : exists u us, unique e = u :: us /\ In u e).
      { destruct (unique e) as [|u us] eqn:Eu.
        - assert (Hin : In w (unique e))
            by (apply ObjFacts.unique_In; now left).
          rewrite Eu in Hin. contradiction.
        - exists u, us. split; [reflexivity|].
          apply ObjFacts.unique_In. rewrite Eu. now left. }
      destruct Hu as [u [us [-> Hu]]]. simpl.
      assert (0 < get_or_0 tf u * semanticWeight u).
      { apply Rmult_lt_0_compat;
          [now apply calculateTFIDF_pos | apply semanticWeight_pos]. }
      assert (0 <= fold_right
                     (fun w a => get_or_0 tf w * semanticWeight w + a) 0 us).
      { clear. induction us as [|y us IH]; simpl; [lra|].
        pose proof (get_or_0_tf_nonneg e y). fold tf in H.
        pose proof (semanticWeight_pos y). nra. }
      lra. }
    destruct (total_pos_nonZero Hnn Hpos) as [x [Hin Hx]].
    assert (Hm : 0 < magnitude raw).
    { apply VectorFacts.magnitude_pos. exists x. split; [assumption|lra]. }
    unfold normalize.
    destruct (Rlt_dec 0 (magnitude raw)) as [_|Hn]; [|contradiction].
    exists (x / magnitude raw). split.
    + apply (in_map (fun val => val / magnitude raw)). assumption.
    + apply Rgt_not_eq. apply Rdiv_lt_0_compat; assumption.
Qed.

(** The vector returned does not depend on the service or on the id. *)
Lemma getEmbedding_vector (text : string) (documentId : option string)
  (s : Service) :
  fst (getEmbedding text documentId s) = Spec.embeddingOf text.
Proof.
  unfold getEmbedding, Spec.embeddingOf, Spec.termsOf.
  destruct (expandSemanticTerms (preprocessText text)) as [[|w ws]|];
    reflexivity.
Qed.

End EmbeddingFacts.

(** ** Facts on subsequences and on the sort *)

Module ListFacts.

Import Spec.

Section Subsequences.

Variable A : Type.
Implicit Types l : list A.

Lemma Subsequence_nil l : Subsequence [] l.
Proof. induction l; constructor; assumption. Qed.

Lemma Subsequence_trans l1 l2 l3 :
  Subsequence l1 l2 -> Subsequence l2 l3 -> Subsequence l1 l3.
Proof.
  intros H12 H23. revert l1 H12.
  induction H23 as [|x l2 l3 H IH|x l2 l3 H IH]; intros l1 H12.
  - assumption.
  - constructor. now apply IH.
  - inversion H12; subst.
    + constructor. now apply IH.
    + apply sub_keep. now apply IH.
Qed.

Lemma Subsequence_filter (p : A -> bool) l :
  Subsequence (filter p l) l.
Proof.
  induction l as [|x l IH]; simpl; [constructor|].
  destruct (p x); constructor; assumption.
Qed.

Lemma Subsequence_filter_mono (p : A -> bool) l1 l2 :
  Subsequence l1 l2 -> Subsequence (filter p l1) (filter p l2).
Proof.
  induction 1 as [|x l1 l2 H IH|x l1 l2 H IH]; simpl.
  - constructor.
  - destruct (p x); [constructor|]; assumption.
  - destruct (p x); [apply sub_keep|]; assumption.
Qed.

Lemma Subsequence_firstn (n : nat) l : Subsequence (firstn n l) l.
Proof.
  revert n. induction l as [|x l IH]; intros [|n]; simpl.
  - constructor.
  - constructor.
  - apply Subsequence_nil.
  - apply sub_keep, IH.
Qed.

Lemma Subsequence_In l1 l2 (x : A) :
  Subsequence l1 l2 -> In x l1 -> In x l2.
Proof.
  induction 1 as [|y l1 l2 H IH|y l1 l2 H IH]; simpl; intuition.
Qed.

Lemma Subsequence_Forall (P : A -> Prop) l1 l2 :
  Subsequence l1 l2 -> Forall P l2 -> Forall P l1.
Proof.
  intros Hs Hf. rewrite Forall_forall in *.
  intros x Hx. apply Hf. eapply Subsequence_In; eauto.
Qed.

End Subsequences.

Lemma Subsequence_map (A B : Type) (f : A -> B) (l1 l2 : list A) :
  Subsequence l1 l2 -> Subsequence (map f l1) (map f l2).
Proof.
  induction 1; simpl; constructor; assumption.
Qed.

Section Sorting.

Variable A : Type.
Variable key : A -> R.

(** The test of a comparison function [(a, b) => key(b) - key(a)]. *)
Variable notAfter : A -> A -> bool.
Hypothesis notAfter_spec :
  forall x y, notAfter x y = true <-> (key y <= key x)%R.

Lemma insert_Permutation (x : A) (l : list A) :
  Permutation (x :: l) (JsArray.insert notAfter x l).
Proof.
  induction l as [|y l IH]; simpl; [reflexivity|].
  destruct (notAfter x y); [reflexivity|].
  rewrite perm_swap. now apply perm_skip.
Qed.

Lemma sort_Permutation (l : list A) :
  Permutation l (JsArray.sort notAfter l).
Proof.
  induction l as [|x l IH]; simpl; [reflexivity|].
  rewrite <- insert_Permutation. now apply perm_skip.
Qed.

Lemma insert_Sorted (x : A) (l : list A) :
  Sorted (descending key) l ->
  Sorted (descending key) (JsArray.insert notAfter x l).
Proof.
  induction l as [|y l IH]; intros Hs; simpl.
  - repeat constructor.
  - destruct (notAfter x y) eqn:E.
    + constructor; [assumption|]. constructor.
      apply notAfter_spec. assumption.
    + inversion Hs as [|? ? Hl Hhd]; subst.
      constructor; [now apply IH|].
      assert (Hyx : descending key y x).
      { unfold descending.
        destruct (Rle_dec (key y) (key x)) as [Hle|Hgt].
        - apply notAfter_spec in Hle. congruence.
        - lra. }
      destruct l as [|z l]; simpl.
      * constructor. assumption.
      * destruct (notAfter x z); constructor; [assumption|].
        inversion Hhd; assumption.
Qed.

Lemma sort_Sorted (l : list A) :
  Sorted (descending key) (JsArray.sort notAfter l).
Proof.
  induction l as [|x l IH]; simpl; [constructor|].
  now apply insert_Sorted.
Qed.

Lemma sort_StronglySorted (l : list A) :
  StronglySorted (descending key) (JsArray.sort notAfter l).
Proof.
  apply Sorted_StronglySorted; [|apply sort_Sorted].
  intros a b c. unfold descending. lra.
Qed.

(** Stability: the elements of one key keep their order. *)
Lemma insert_filter (s : R) (x : A) (l : list A) :
  let same := fun a => if Req_dec_T (key a) s then true else false in
  filter same (JsArray.insert notAfter x l) = filter same (x :: l).
Proof.
  intros same.
  induction l as [|y l IH]; simpl; [reflexivity|].
  destruct (notAfter x y) eqn:E; [reflexivity|].
  simpl. rewrite IH. simpl.
  destruct (same x) eqn:Ex; [|reflexivity].
  destruct (same y) eqn:Ey; [|reflexivity].
  exfalso. unfold same in Ex, Ey.
  destruct (Req_dec_T (key x) s); [|discriminate].
  destruct (Req_dec_T (key y) s); [|discriminate].
  assert (Hle : (key y <= key x)%R) by lra.
  apply notAfter_spec in Hle. congruence.
Qed.

Lemma sort_filter (s : R) (l : list A) :
  let same := fun a => if Req_dec_T (key a) s then true else false in
  filter same (JsArray.sort notAfter l) = filter same l.
Proof.
  intros same.
  induction l as [|x l IH]; simpl; [reflexivity|].
  unfold same. rewrite insert_filter. simpl.
  fold same. now rewrite IH.
Qed.

End Sorting.

Lemma StronglySorted_firstn (A : Type) (R : A -> A -> Prop) (n : nat)
  (l : list A) :
  StronglySorted R l -> StronglySorted R (firstn n l).
Proof.
  intros Hs. revert n.
  induction Hs as [|x l Hl IH Hx]; intros [|n]; simpl; try constructor.
  - apply IH.
  - eapply Subsequence_Forall; [apply Subsequence_firstn|assumption].
Qed.

End ListFacts.

(** ** Facts on the search *)

Module SearchFacts.

Import JsString DocumentService Spec.
Local Open Scope R_scope.

Lemma ranking_spec (a b : SearchResult) :
  ranking a b = true <-> score b <= score a.
Proof.
  unfold ranking, nonPositive, byScore.
  destruct (Rle_dec (score b - score a) 0); split; intros; try lra;
    try reflexivity; discriminate.
Qed.

Lemma search_results (query : string) (st : State) :
  fst (searchDocuments query st)
  = if is_empty (trim query) then []
    else firstn 10 (JsArray.sort ranking (candidates query st)).
Proof.
  unfold searchDocuments, candidates.
  destruct (is_empty (trim query)); [reflexivity|].
  rewrite <- (EmbeddingFacts.getEmbedding_vector query None (embeddings st)).
  destruct (Embedding.getEmbedding query None (embeddings st)).
  reflexivity.
Qed.

Lemma search_documents (query : string) (st : State) :
  documents (snd (searchDocuments query st)) = documents st.
Proof.
  unfold searchDocuments.
  destruct (is_empty (trim query)); [reflexivity|].
  destruct (Embedding.getEmbedding query None (embeddings st)).
  reflexivity.
Qed.

Lemma resultFor_inv (queryEmbedding : option (list R)) (queryLower : string)
  (doc : SimpleDocument) (r : SearchResult) :
  resultFor queryEmbedding queryLower doc = Some r ->
  document r = doc
  /\ matchedSections r = firstn 3 (matchesOf queryLower doc)
  /\ thresholdOf (searchType r) < score r
  /\ (score r, searchType r)
     = classify (effectiveSemanticScoreOf
                   (semanticScoreOf queryEmbedding doc))
                (keywordScoreOf queryLower doc).
Proof.
  unfold resultFor.
  destruct (classify _ _) as [finalScore type].
  destruct (Rlt_dec (thresholdOf type) finalScore) as [Hlt|]; [|discriminate].
  intros E. injection E as <-. simpl. auto.
Qed.

Lemma collect_In (queryEmbedding : option (list R)) (queryLower : string)
  (docs : list SimpleDocument) (r : SearchResult) :
  In r (collect queryEmbedding queryLower docs) ->
  exists doc, In doc docs /\ resultFor queryEmbedding queryLower doc = Some r.
Proof.
  induction docs as [|doc docs IH]; simpl; [contradiction|].
  destruct (resultFor queryEmbedding queryLower doc) as [r'|] eqn:E.
  - intros [->|Hin].
    + exists doc. auto.
    + destruct (IH Hin) as [d [H1 H2]]. exists d. auto.
  - intros Hin. destruct (IH Hin) as [d [H1 H2]]. exists d. auto.
Qed.

Lemma collect_documents (queryEmbedding : option (list R))
  (queryLower : string) (docs : list SimpleDocument) :
  Subsequence (map document (collect queryEmbedding queryLower docs)) docs.
Proof.
  induction docs as [|doc docs IH]; simpl; [constructor|].
  destruct (resultFor queryEmbedding queryLower doc) as [r|] eqn:E.
  - simpl. apply resultFor_inv in E. destruct E as [-> _].
    now apply sub_keep.
  - now constructor.
Qed.

Lemma search_In (query : string) (st : State) (r : SearchResult) :
  In r (fst (searchDocuments query st)) -> In r (candidates query st).
Proof.
  rewrite search_results.
  destruct (is_empty (trim query)); [contradiction|].
  intros Hin.
  eapply ListFacts.Subsequence_In in Hin;
    [|apply ListFacts.Subsequence_firstn].
  eapply Permutation_in; [|exact Hin].
  symmetry. apply ListFacts.sort_Permutation.
Qed.

Lemma upload_documents (file : Upload) (type : FileType) (st : State) :
  getFileExtension (name file) = Some type ->
  documents (snd (uploadDocument file st))
  = JsMap.set (generatedId file) (documentOf file type) (documents st).
Proof.
  intros Hext. unfold uploadDocument, documentOf. rewrite Hext.
  rewrite <- (EmbeddingFacts.getEmbedding_vector
                (extracted file) (Some (generatedId file)) (embeddings st)).
  destruct (Embedding.getEmbedding _ _ _). reflexivity.
Qed.

Lemma upload_embeddings (file : Upload) (type : FileType) (st : State) :
  getFileExtension (name file) = Some type ->
  embeddings (snd (uploadDocument file st))
  = Embedding.updateVocabulary
      (snd (Embedding.getEmbedding (extracted file)
              (Some (generatedId file)) (embeddings st))).
Proof.
  intros Hext. unfold uploadDocument. rewrite Hext.
  destruct (Embedding.getEmbedding _ _ _). reflexivity.
Qed.

Lemma upload_unsupported (file : Upload) (st : State) :
  getFileExtension (name file) = None ->
  snd (uploadDocument file st) = st.
Proof. intros Hext. unfold uploadDocument. now rewrite Hext. Qed.

Lemma effective_above (x : R) :
  minSemanticScore < x -> effectiveSemanticScoreOf x = x.
Proof.
  intros H. unfold effectiveSemanticScoreOf.
  destruct (Rlt_dec minSemanticScore x); [reflexivity|contradiction].
Qed.

Lemma effective_below (x : R) :
  x <= minSemanticScore -> effectiveSemanticScoreOf x = 0.
Proof.
  intros H. unfold effectiveSemanticScoreOf.
  destruct (Rlt_dec minSemanticScore x); [lra|reflexivity].
Qed.

(** The three outcomes of one loop iteration, from the two scores. *)
Lemma resultFor_hybrid (queryEmbedding : option (list R))
  (queryLower : string) (doc : SimpleDocument) :
  let sem := semanticScoreOf queryEmbedding doc in
  let kw := keywordScoreOf queryLower doc in
  minSemanticScore < sem -> 0 < kw ->
  resultFor queryEmbedding queryLower doc
  = Some {| document := doc; score := sem * 0.7 + kw * 0.3;
            searchType := hybrid;
            matchedSections := firstn 3 (matchesOf queryLower doc) |}.
Proof.
  intros sem kw Hs Hk. unfold resultFor. fold sem kw.
  rewrite (effective_above Hs). unfold classify.
  unfold minSemanticScore in Hs.
  destruct (Rlt_dec 0 sem); [|lra].
  destruct (Rlt_dec 0 kw); [|lra].
  simpl thresholdOf.
  destruct (Rlt_dec 0.1 (sem * 0.7 + kw * 0.3)); [reflexivity|lra].
Qed.

Lemma resultFor_keyword (queryEmbedding : option (list R))
  (queryLower : string) (doc : SimpleDocument) :
  let sem := semanticScoreOf queryEmbedding doc in
  let kw := keywordScoreOf queryLower doc in
  sem <= minSemanticScore -> 0.1 < kw ->
  resultFor queryEmbedding queryLower doc
  = Some {| document := doc; score := Rmin kw 1.0;
            searchType := keyword;
            matchedSections := firstn 3 (matchesOf queryLower doc) |}.
Proof.
  intros sem kw Hs Hk. unfold resultFor. fold sem kw.
  rewrite (effective_below Hs). unfold classify.
  destruct (Rlt_dec 0 0); [lra|].
  destruct (Rlt_dec 0 kw); [|lra].
  simpl thresholdOf.
  destruct (Rlt_dec 0.1 (Rmin kw 1.0)) as [|Hn]; [reflexivity|].
  exfalso. apply Hn. apply Rmin_glb_lt; lra.
Qed.

Lemma resultFor_none (queryEmbedding : option (list R))
  (queryLower : string) (doc : SimpleDocument) :
  semanticScoreOf queryEmbedding doc <= minSemanticScore ->
  keywordScoreOf queryLower doc <= 0 ->
  resultFor queryEmbedding queryLower doc = None.
Proof.
  intros Hs Hk. unfold resultFor.
  rewrite (effective_below Hs). unfold classify.
  destruct (Rlt_dec 0 0); [lra|].
  destruct (Rlt_dec 0 (keywordScoreOf queryLower doc)); [lra|].
  simpl thresholdOf.
  destruct (Rlt_dec 0.1 0); [lra|reflexivity].
Qed.

Lemma blank_trim (s : string) : blank s -> trim s = EmptyString.
Proof.
  unfold blank, trim.
  induction s as [|c s IH]; simpl; intros H; [reflexivity|].
  inversion H as [|? ? Hc Hs]; subst. rewrite Hc. now apply IH.
Qed.

End SearchFacts.

(** ** Facts on the state of the two services *)

Module StoreFacts.

Import JsString DocumentService Spec.
Local Open Scope R_scope.

Lemma truthy_id (id : string) :
  id <> EmptyString -> Embedding.truthy (Some id) = Some id.
Proof. destruct id; [congruence|reflexivity]. Qed.

(** A call without a document id leaves the vector map, the counter and
    the vocabulary alone. *)
Lemma getEmbedding_query_frame (text : string) (s : Embedding.Service) :
  let s' := snd (Embedding.getEmbedding text None s) in
  Embedding.documents s' = Embedding.documents s
  /\ Embedding.totalDocuments s' = Embedding.totalDocuments s
  /\ Embedding.vocabulary s' = Embedding.vocabulary s.
Proof.
  unfold Embedding.getEmbedding.
  destruct (Embedding.expandSemanticTerms _) as [[|w ws]|]; simpl; auto.
Qed.

Lemma count_occ_keys (o : JsObj.t R) (w : string) :
  NoDup (JsObj.keys o) ->
  INR (count_occ string_dec (JsObj.keys o) w)
  = if mem w (JsObj.keys o) then 1 else 0.
Proof.
  intros Hnd. destruct (mem w (JsObj.keys o)) eqn:Hm.
  - apply ObjFacts.mem_In in Hm.
    now rewrite EmbeddingFacts.count_occ_NoDup.
  - apply ObjFacts.mem_false in Hm.
    apply (count_occ_not_In string_dec) in Hm. now rewrite Hm.
Qed.

Lemma mem_ext (w : string) (l1 l2 : list string) :
  (In w l1 <-> In w l2) -> mem w l1 = mem w l2.
Proof.
  intros H. destruct (mem w l2) eqn:E.
  - apply ObjFacts.mem_In. apply H. now apply ObjFacts.mem_In.
  - apply ObjFacts.mem_false. rewrite H. now apply ObjFacts.mem_false.
Qed.

(** ... and adds one to the global count of each distinct term of the
    text. *)
Lemma getEmbedding_counts (text : string) (documentId : option string)
  (s : Embedding.Service) (w : string) :
  let s' := snd (Embedding.getEmbedding text documentId s) in
  let terms := match termsOf text with Some l => l | None => [] end in
  Embedding.get_or_0 (Embedding.globalWordFreq s') w
  = Embedding.get_or_0 (Embedding.globalWordFreq s) w
    + (if mem w terms then 1 else 0).
Proof.
  unfold Embedding.getEmbedding, termsOf.
  destruct (Embedding.expandSemanticTerms _) as [[|x xs]|] eqn:E;
    cbv zeta; cbn [snd]; [simpl; lra| |simpl; lra].
  set (e := x :: xs).
  assert (Hg : forall n,
             Embedding.globalWordFreq
               (Embedding.register documentId (Embedding.calculateTFIDF e) n
                  (Embedding.countWords (Embedding.calculateTFIDF e) s))
             = fold_left Embedding.increment
                 (JsObj.keys (Embedding.calculateTFIDF e))
                 (Embedding.globalWordFreq s)).
  { intros n. unfold Embedding.register.
    destruct (Embedding.truthy documentId); reflexivity. }
  rewrite Hg, EmbeddingFacts.get_or_0_count.
  rewrite count_occ_keys.
  - f_equal. rewrite (@mem_ext w _ e); [reflexivity|].
    rewrite EmbeddingFacts.keys_calculateTFIDF.
    rewrite EmbeddingFacts.keys_count_In. simpl. tauto.
  - rewrite EmbeddingFacts.keys_calculateTFIDF.
    apply EmbeddingFacts.keys_count_NoDup. constructor.
Qed.











Lemma getEmbedding_register (text id : string) (s : Embedding.Service)
  (w : string) (ws : list string) :
  termsOf text = Some (w :: ws) -> id <> EmptyString ->
  let s' := snd (Embedding.getEmbedding text (Some id) s) in
  JsMap.keys (Embedding.documents s')
  = JsMap.keys
      (JsMap.set id
         {| Embedding.tfidf := Embedding.calculateTFIDF (w :: ws);
            Embedding.normalized := [];
            Embedding.wordCount := length (w :: ws) |}
         (Embedding.documents s))
  /\ Embedding.totalDocuments s'
     = length (JsMap.keys (Embedding.documents s')).
Proof.
  intros Ht Hid. unfold termsOf in Ht.
  unfold Embedding.getEmbedding. rewrite Ht. cbv zeta. simpl snd.
  unfold Embedding.register. rewrite (truthy_id Hid). simpl.
  split; [reflexivity|apply MapFacts.size_keys].
Qed.

Lemma updateVocabulary_frame (s : Embedding.Service) :
  Embedding.documents (Embedding.updateVocabulary s) = Embedding.documents s
  /\ Embedding.totalDocuments (Embedding.updateVocabulary s)
     = Embedding.totalDocuments s.
Proof.
  unfold Embedding.updateVocabulary.
  destruct (1 <? Embedding.totalDocuments s)%nat; simpl; auto.
Qed.

Lemma search_service_frame (query : string) (st : State) :
  let s' := embeddings (snd (searchDocuments query st)) in
  Embedding.documents s' = Embedding.documents (embeddings st)
  /\ Embedding.totalDocuments s' = Embedding.totalDocuments (embeddings st)
  /\ Embedding.vocabulary s' = Embedding.vocabulary (embeddings st).
Proof.
  unfold searchDocuments.
  destruct (is_empty (trim query)); [simpl; auto|].
  pose proof (getEmbedding_query_frame query (embeddings st)) as H.
  destruct (Embedding.getEmbedding query None (embeddings st)). exact H.
Qed.

Lemma initial_consistent : consistent initial.
Proof.
  unfold consistent, indexedIds, storedIds. simpl.
  repeat split; try constructor. intros x [].
Qed.

Lemma step_consistent (st : State) (op : Operation) :
  indexable op -> consistent st -> consistent (step st op).
Proof.
  intros Hop (Hc & Hni & Hns & Hincl).
  destruct op as [file|id|query]; simpl.
  - destruct Hop as [Hid [w [ws Ht]]].
    destruct (getFileExtension (name file)) as [type|] eqn:Hext.
    2:{ rewrite SearchFacts.upload_unsupported by assumption.
        repeat split; assumption. }
    unfold consistent, indexedIds, storedIds.
    rewrite (SearchFacts.upload_documents _ st Hext).
    rewrite (SearchFacts.upload_embeddings _ st Hext).
    destruct (updateVocabulary_frame
                (snd (Embedding.getEmbedding (extracted file)
                        (Some (generatedId file)) (embeddings st))))
      as [-> ->].
    destruct (@getEmbedding_register _ _ (embeddings st) _ _ Ht Hid) as [Hk Hn].
    rewrite Hn, Hk. split; [reflexivity|]. split; [|split].
    + now apply MapFacts.stored_keys_set_NoDup.
    + now apply MapFacts.stored_keys_set_NoDup.
    + intros k Hin. apply MapFacts.stored_keys_set in Hin.
      apply MapFacts.stored_keys_set.
      destruct Hin as [->|Hin]; [now left|right; now apply Hincl].
  - unfold consistent, indexedIds, storedIds. simpl.
    repeat split; try assumption.
    + now apply MapFacts.stored_keys_delete_NoDup.
    + intros k Hin. apply MapFacts.stored_keys_delete in Hin. now apply Hincl.
  - unfold consistent, indexedIds, storedIds.
    destruct (search_service_frame query st) as [-> [-> _]].
    rewrite SearchFacts.search_documents. repeat split; assumption.
Qed.

(** Without a delete every vector of the map belongs to a stored
    document. *)
Lemma step_covered (st : State) (op : Operation) :
  indexable op -> notDelete op ->
  incl (indexedIds st) (storedIds st) ->
  incl (indexedIds (step st op)) (storedIds (step st op)).
Proof.
  intros Hop Hnd Hincl.
  destruct op as [file|id|query]; simpl; [|contradiction|].
  - destruct Hop as [Hid [w [ws Ht]]].
    destruct (getFileExtension (name file)) as [type|] eqn:Hext.
    2:{ now rewrite SearchFacts.upload_unsupported. }
    unfold indexedIds, storedIds.
    rewrite (SearchFacts.upload_documents _ st Hext).
    rewrite (SearchFacts.upload_embeddings _ st Hext).
    destruct (updateVocabulary_frame
                (snd (Embedding.getEmbedding (extracted file)
                        (Some (generatedId file)) (embeddings st))))
      as [-> _].
    destruct (@getEmbedding_register _ _ (embeddings st) _ _ Ht Hid) as [-> _].
    intros k Hin. apply MapFacts.stored_keys_set in Hin.
    apply MapFacts.stored_keys_set.
    destruct Hin as [->|Hin]; [now left|right; now apply Hincl].
  - unfold indexedIds, storedIds.
    destruct (search_service_frame query st) as [-> _].
    now rewrite SearchFacts.search_documents.
Qed.

Lemma fold_consistent (ops : list Operation) (st : State) :
  Forall indexable ops -> consistent st -> consistent (fold_left step ops st).
Proof.
  revert st. induction ops as [|op ops IH]; intros st Hops Hc; simpl.
  - assumption.
  - inversion Hops; subst. apply IH; [assumption|].
    now apply step_consistent.
Qed.

Lemma fold_covered (ops : list Operation) (st : State) :
  Forall indexable ops -> Forall notDelete ops ->
  incl (indexedIds st) (storedIds st) ->
  incl (indexedIds (fold_left step ops st))
       (storedIds (fold_left step ops st)).
Proof.
  revert st. induction ops as [|op ops IH]; intros st Hops Hnd Hc; simpl.
  - assumption.
  - inversion Hops; inversion Hnd; subst. apply IH; try assumption.
    now apply step_covered.
Qed.

Lemma step_embedded (st : State) (op : Operation) :
  embedded st -> embedded (step st op).
Proof.
  intros He. destruct op as [file|id|query]; simpl.
  - destruct (getFileExtension (name file)) as [type|] eqn:Hext.
    2:{ now rewrite SearchFacts.upload_unsupported. }
    intros d Hd. rewrite (SearchFacts.upload_documents _ st Hext) in Hd.
    apply MapFacts.stored_values_set in Hd.
    destruct Hd as [->|Hd]; [reflexivity|now apply He].
  - intros d Hd. simpl in Hd. apply MapFacts.stored_values_delete in Hd.
    now apply He.
  - intros d Hd. rewrite SearchFacts.search_documents in Hd. now apply He.
Qed.

Lemma run_embedded (ops : list Operation) : embedded (run ops).
Proof.
  unfold run.
  assert (H : embedded initial) by (intros d []).
  revert H. generalize initial.
  induction ops as [|op ops IH]; intros st H; simpl; [assumption|].
  apply IH. now apply step_embedded.
Qed.

End StoreFacts.

(** ** Facts on the concrete uploads *)

Module ScenarioFacts.

Import JsString DocumentService Spec Scenario.
Local Open Scope string_scope.
Local Open Scope R_scope.

Lemma applesStore_values :
  JsMap.values (documents applesStore) = [documentOf applesFile txt].
Proof.
  unfold applesStore.
  rewrite (@SearchFacts.upload_documents applesFile txt) by reflexivity.
  reflexivity.
Qed.

Lemma apples_semanticScore :
  semanticScoreOf (embeddingOf "apples") (documentOf applesFile txt) = 1.
Proof.
  assert (Hq : embeddingOf "apples"
               = Some (Embedding.vectorOf ["apples"; "fruit"; "food"]))
    by reflexivity.
  assert (He : embedding (documentOf applesFile txt)
               = Some (Embedding.vectorOf ["apples"; "fruit"; "food"]))
    by reflexivity.
  unfold semanticScoreOf. rewrite Hq, He.
  apply VectorFacts.cosine_self, EmbeddingFacts.vectorOf_nonZero.
Qed.

Lemma apples_keywordScore :
  keywordScoreOf "apples" (documentOf applesFile txt) = 1.25.
Proof.
  unfold keywordScoreOf.
  assert (H1 : includes (toLowerCase (filename (documentOf applesFile txt)))
                        "apples" = true) by reflexivity.
  assert (H2 : keywordMatches "apples" (documentOf applesFile txt)
               = ["apples"]) by reflexivity.
  assert (H3 : matchingSentences "apples" (documentOf applesFile txt)
               = ["apples"; " apples"; " apples"; " apples"]) by reflexivity.
  rewrite H1, H2, H3. simpl. lra.
Qed.

Lemma apples_search :
  fst (searchDocuments "apples" applesStore) = [applesResult].
Proof.
  rewrite SearchFacts.search_results.
  change (is_empty (trim "apples")) with false. cbv iota.
  unfold candidates. rewrite applesStore_values.
  change (toLowerCase "apples") with "apples".
  cbn [collect].
  rewrite SearchFacts.resultFor_hybrid.
  - rewrite apples_semanticScore, apples_keywordScore.
    unfold applesResult. simpl. repeat f_equal. lra.
  - rewrite apples_semanticScore. unfold minSemanticScore. lra.
  - rewrite apples_keywordScore. lra.
Qed.

Lemma reportStore_values :
  JsMap.values (documents reportStore) = [documentOf reportFile txt].
Proof.
  unfold reportStore.
  rewrite (@SearchFacts.upload_documents reportFile txt) by reflexivity.
  reflexivity.
Qed.

End ScenarioFacts.

(** ** The model on small inputs *)

Module Examples.

Import JsString Embedding DocumentService.
Local Open Scope string_scope.

Example preprocessText_sentence :
  preprocessText "I love fresh Apples, and bananas!"
  = ["love"; "fresh"; "apples"; "bananas"].
Proof. reflexivity. Qed.

Example split_keeps_empty_pieces :
  split_runs is_space " a  b " = [""; "a"; "b"; ""].
Proof. reflexivity. Qed.

Example expand_fruit :
  expandSemanticTerms ["fruit"]
  = Some ["fruit"; "apple"; "apples"; "banana"; "bananas"; "orange";
          "oranges"; "grape"; "grapes"; "berry"; "berries"].
Proof. reflexivity. Qed.

Example expand_orange :
  expandSemanticTerms ["orange"] = Some ["orange"; "fruit"; "color"].
Proof. reflexivity. Qed.

(** The spread of [semanticMappings["constructor"]] throws. *)
Example expand_inherited_name :
  expandSemanticTerms (preprocessText "the constructor runs") = None.
Proof. reflexivity. Qed.

Example hashWord_apple :
  hashWord "apple" = 93029210%Z /\ vectorIndex "apple" = 10%nat.
Proof. split; reflexivity. Qed.

(** A hash that leaves the 32-bit range on the way wraps around. *)
Example hashWord_wraps :
  hashWord "vegetables" = 1900045198%Z /\ vectorIndex "vegetables" = 98%nat.
Proof. split; reflexivity. Qed.

Example sentencesOf_text :
  sentencesOf "Revenue is up. Costs?! ... Flat"
  = ["Revenue is up"; " Costs"; " Flat"].
Proof. reflexivity. Qed.

Example extractKeywords_counts :
  extractKeywords "Revenue grows; costs fall, revenue holds: REVENUE 2024"
  = ["revenue"; "2024"; "grows"; "costs"; "fall"; "holds"].
Proof. reflexivity. Qed.

Example getFileExtension_cases :
  getFileExtension "Quarterly_Report.PDF" = Some pdf
  /\ getFileExtension "archive.tar.gz" = None
  /\ stripExtension "Quarterly_Report.PDF" = "Quarterly_Report".
Proof. repeat split; reflexivity. Qed.

End Examples.

(** ** Claims on the cosine *)

Unset Implicit Arguments.

(** * Facts on binary64 numbers *)

Module DoubleFacts.

Import PrimFloat SpecFloat FloatOps FloatAxioms Doubles.
Local Open Scope float_scope.

Lemma mul_comm (x y : float) : x * y = y * x.
Proof.
  apply Prim2SF_inj. rewrite !mul_spec.
  unfold SF64mul, SFmul.
  destruct (Prim2SF x) as [sx|sx| |sx mx ex],
           (Prim2SF y) as [sy|sy| |sy my ey];
    try reflexivity; try (now rewrite xorb_comm).
  now rewrite xorb_comm, Pos.mul_comm, Z.add_comm.
Qed.





Lemma ltb_leb (x y : float) : (x <? y) = true -> (x <=? y) = true.
Proof.
  rewrite ltb_spec, leb_spec. unfold SFltb, SFleb.
  destruct (SFcompare (Prim2SF x) (Prim2SF y)) as [[]|];
    first [reflexivity | discriminate].
Qed.

Lemma ltb_not_nan (x y : float) : (x <? y) = true -> is_nan x = false.
Proof.
  unfold is_nan. rewrite ltb_spec, eqb_spec. unfold SFltb, SFeqb.
  destruct (Prim2SF x) as [[]|[]| |[] m e]; try reflexivity;
    try discriminate.
  - simpl. intros _. unfold SFcompare.
    rewrite Z.compare_refl. 
    assert (H : Pos.compare_cont Eq m m = Eq) by apply Pos.compare_cont_refl.
    now rewrite H.
  - simpl. intros _. unfold SFcompare.
    rewrite Z.compare_refl.
    assert (H : Pos.compare_cont Eq m m = Eq) by apply Pos.compare_cont_refl.
    now rewrite H.
Qed.

(** The clamp [Math.max(0, Math.min(1, x))] is [NaN] or between 0 and
    1. *)
Lemma clamp_range (x : float) :
  is_nan (max 0 (min 1 x)) = true \/ inUnit (max 0 (min 1 x)) = true.
Proof.
  unfold min.
  change (is_nan 1) with false. cbn [orb].
  destruct (is_nan x) eqn:Hn; [now left|].
  change (1 =? 0) with false. cbv iota.
  destruct (x <? 1) eqn:Hx1.
  - (* min = x *)
    unfold max. change (is_nan 0) with false. cbn [orb]. rewrite Hn.
    destruct (0 <? x) eqn:H0x.
    + right. unfold inUnit. now rewrite (ltb_leb _ _ H0x), (ltb_leb _ _ Hx1).
    + change (0 =? 0) with true. cbv iota.
      change (classify 0) with FloatClass.PZero. cbv iota.
      destruct (x <? 0); right; reflexivity.
  - assert (Hm : (if 1 <? x then 1 else 1) = 1)
      by (destruct (1 <? x); reflexivity).
    rewrite Hm. right. reflexivity.
Qed.

Lemma cosine_range64 (a b : list float) :
  is_nan (cosineSimilarity a b) = true \/ inUnit (cosineSimilarity a b) = true.
Proof.
  unfold cosineSimilarity.
  destruct (negb (length a =? length b)%nat || (length a =? 0)%nat);
    [now right|].
  cbv zeta.
  destruct ((magnitude a =? 0) || (magnitude b =? 0)); [now right|].
  apply clamp_range.
Qed.

Lemma dot_comm64 (a b : list float) : dot a b = dot b a.
Proof.
  unfold dot. generalize 0.
  revert b. induction a as [|x a IH]; intros [|y b] acc; try reflexivity.
  cbn [combine fold_left fst snd]. rewrite (mul_comm x y). apply IH.
Qed.

Lemma cosine_sym64 (a b : list float) :
  cosineSimilarity a b = cosineSimilarity b a.
Proof.
  unfold cosineSimilarity.
  destruct (Nat.eqb_spec (length a) (length b)) as [E|Hne].
  - rewrite <- E, Nat.eqb_refl. cbn [negb orb].
    destruct (length a =? 0)%nat; [reflexivity|].
    cbv zeta.
    rewrite (dot_comm64 a b), (mul_comm (magnitude a)), orb_comm.
    reflexivity.
  - destruct (Nat.eqb_spec (length b) (length a)); [congruence|reflexivity].
Qed.










End DoubleFacts.

Set Implicit Arguments.

Module CosineClaims.

Import PrimFloat Doubles.
Local Open Scope float_scope.


(** Where the roots are exact the similarity is 1: the vector [[3, 4]]
    has magnitude 5. *)
Lemma self_similarity_exact_roots :
  cosineSimilarity [3; 4] [3; 4] = 1.
Proof. reflexivity. Qed.


End CosineClaims.

(** ** Claims on the search *)

Module SearchClaims.

Import JsString DocumentService Spec.
Local Open Scope R_scope.

(** C6: for every query and every state, a second run of the search on
    the state the first run leaves returns the same result list (the same
    documents in the same order, with the same scores, types and matched
    sections), and the first run leaves the stored documents as they
    were. *)
Theorem search_twice_same_results (query : string) (st : State) :
  let first := searchDocuments query st in
  let second := searchDocuments query (snd first) in
  fst second = fst first /\ documents (snd first) = documents st.
Proof.
  cbv zeta. split; [|apply SearchFacts.search_documents].
  rewrite !SearchFacts.search_results.
  unfold candidates. now rewrite SearchFacts.search_documents.
Qed.

(** C7: for every query and store, the result list has at most 10
    entries, is ordered by score, highest first, and for each score the
    documents of the results with that score stand in the order in which
    the store holds them (its insertion order). *)
Theorem search_capped_sorted_stable (query : string) (st : State) :
  let results := fst (searchDocuments query st) in
  (length results <= 10)%nat
  /\ StronglySorted (descending score) results
  /\ forall s : R,
       Subsequence (map document (filter (hasScore s) results))
                   (JsMap.values (documents st)).
Proof.
  cbv zeta. rewrite SearchFacts.search_results.
  destruct (is_empty (trim query)).
  { simpl. repeat split; [lia|constructor|].
    intros s. apply ListFacts.Subsequence_nil. }
  split; [apply firstn_le_length|]. split.
  - apply ListFacts.StronglySorted_firstn.
    apply (ListFacts.sort_StronglySorted score ranking).
    apply SearchFacts.ranking_spec.
  - intros s.
    eapply ListFacts.Subsequence_trans;
      [|apply (SearchFacts.collect_documents (embeddingOf query)
                 (toLowerCase query))].
    apply ListFacts.Subsequence_map.
    eapply ListFacts.Subsequence_trans;
      [apply ListFacts.Subsequence_filter_mono,
             ListFacts.Subsequence_firstn|].
    unfold hasScore.
    rewrite (ListFacts.sort_filter score ranking SearchFacts.ranking_spec).
    apply ListFacts.Subsequence_filter.
Qed.

(** C9: for every query that is empty or made of white space only, the
    search returns the empty list, whatever the store holds, and leaves
    the state as it was. *)
Theorem search_blank_query (query : string) (st : State) :
  blank query -> searchDocuments query st = ([], st).
Proof.
  intros Hb. unfold searchDocuments.
  now rewrite (SearchFacts.blank_trim Hb).
Qed.

Lemma search_blank_query_witness :
  blank "  " /\ searchDocuments "  " initial = ([], initial).
Proof.
  assert (H : blank "  ") by (repeat constructor).
  split; [exact H|].
  exact (search_blank_query initial H).
Defined.

(** C10: every result carries at most 3 matched sections; in each of
    them [context] is [text]; and the texts are, in the order of the
    document, trimmed sentences of the document's [extractedText] whose
    lower-cased form contains the lower-cased query. *)
Theorem matched_sections_shape (query : string) (st : State)
  (r : SearchResult) :
  In r (fst (searchDocuments query st)) ->
  (length (matchedSections r) <= 3)%nat
  /\ Forall (fun m => context m = text m) (matchedSections r)
  /\ exists sentences,
       map text (matchedSections r) = map trim sentences
       /\ Subsequence sentences (sentencesOf (extractedText (document r)))
       /\ Forall (fun sentence =>
                    includes (toLowerCase sentence) (toLowerCase query)
                    = true) sentences.
Proof.
  intros Hin. apply SearchFacts.search_In in Hin.
  apply SearchFacts.collect_In in Hin. destruct Hin as [doc [_ Hr]].
  apply SearchFacts.resultFor_inv in Hr.
  destruct Hr as [Hdoc [Hms _]]. rewrite Hms, Hdoc.
  set (ql := toLowerCase query).
  split; [apply firstn_le_length|]. split.
  - eapply ListFacts.Subsequence_Forall;
      [apply ListFacts.Subsequence_firstn|].
    unfold matchesOf. apply Forall_forall. intros m Hm.
    apply in_map_iff in Hm. destruct Hm as [x [<- _]]. reflexivity.
  - exists (firstn 3 (matchingSentences ql doc)). split; [|split].
    + unfold matchesOf. rewrite <- !firstn_map, map_map. reflexivity.
    + eapply ListFacts.Subsequence_trans;
        [apply ListFacts.Subsequence_firstn|].
      apply ListFacts.Subsequence_filter.
    + eapply ListFacts.Subsequence_Forall;
        [apply ListFacts.Subsequence_firstn|].
      unfold matchingSentences. apply Forall_forall. intros x Hx.
      apply filter_In in Hx. tauto.
Qed.

Lemma matched_sections_shape_witness :
  In Scenario.applesResult
     (fst (searchDocuments "apples" Scenario.applesStore))
  /\ (length (matchedSections Scenario.applesResult) <= 3)%nat
  /\ Forall (fun m => context m = text m)
            (matchedSections Scenario.applesResult)
  /\ exists sentences,
       map text (matchedSections Scenario.applesResult) = map trim sentences
       /\ Subsequence sentences
            (sentencesOf
               (extractedText (document Scenario.applesResult)))
       /\ Forall (fun sentence =>
                    includes (toLowerCase sentence) (toLowerCase "apples")
                    = true) sentences.
Proof.
  assert (H : In Scenario.applesResult
                 (fst (searchDocuments "apples" Scenario.applesStore))).
  { rewrite ScenarioFacts.apples_search. now left. }
  split; [exact H|].
  exact (matched_sections_shape "apples" Scenario.applesStore
           Scenario.applesResult H).
Defined.

End SearchClaims.

(** ** Claims on the state *)

Module StateClaims.

Import JsString DocumentService Spec Scenario.
Local Open Scope string_scope.
Local Open Scope R_scope.



(** C5, at an input where it fails: after one upload and the delete of
    the uploaded document the store is empty and [totalDocuments] is
    1. *)
Lemma delete_keeps_totalDocuments :
  Embedding.totalDocuments (embeddings deletedStore) = 1%nat
  /\ JsMap.size (documents deletedStore) = 0%nat.
Proof. split; reflexivity. Qed.

(** An upload whose text gives no term is stored and not counted. *)
Lemma empty_upload_not_counted :
  Embedding.totalDocuments (embeddings reportStore) = 0%nat
  /\ JsMap.size (documents reportStore) = 1%nat.
Proof. split; reflexivity. Qed.

(** C5, amended: after every sequence of uploads, deletes and searches in
    which every uploaded text gives at least one term (and every generated
    id is a non-empty string, as [generateId] makes them),
    [totalDocuments] is at least the number of stored documents, and equal
    to it when the sequence holds no delete; a delete leaves
    [totalDocuments] as it is. *)
Theorem totalDocuments_counts_uploads (ops : list Operation) :
  Forall indexable ops ->
  let st := run ops in
  (JsMap.size (documents st) <= Embedding.totalDocuments (embeddings st))%nat
  /\ (Forall notDelete ops ->
      Embedding.totalDocuments (embeddings st) = JsMap.size (documents st))
  /\ forall id : string,
       Embedding.totalDocuments (embeddings (step st (Delete id)))
       = Embedding.totalDocuments (embeddings st).
Proof.
  intros Hops. cbv zeta.
  destruct (StoreFacts.fold_consistent Hops StoreFacts.initial_consistent)
    as (Hc & Hni & Hns & Hincl).
  fold (run ops) in Hc, Hni, Hns, Hincl.
  rewrite MapFacts.size_keys. fold (storedIds (run ops)).
  assert (Hle : (length (storedIds (run ops))
                 <= length (indexedIds (run ops)))%nat)
    by now apply NoDup_incl_length.
  split; [lia|]. split; [|reflexivity].
  intros Hnd.
  assert (Hcov : incl (indexedIds (run ops)) (storedIds (run ops))).
  { apply StoreFacts.fold_covered; try assumption. intros x []. }
  assert (Hge : (length (indexedIds (run ops))
                 <= length (storedIds (run ops)))%nat)
    by now apply NoDup_incl_length.
  lia.
Qed.

Lemma totalDocuments_counts_uploads_witness :
  Forall indexable [Insert applesFile]
  /\ Forall notDelete [Insert applesFile]
  /\ (JsMap.size (documents (run [Insert applesFile]))
      <= Embedding.totalDocuments (embeddings (run [Insert applesFile])))%nat
  /\ Embedding.totalDocuments (embeddings (run [Insert applesFile]))
     = JsMap.size (documents (run [Insert applesFile])).
Proof.
  assert (H : Forall indexable [Insert applesFile]).
  { constructor; [|constructor]. split; [discriminate|].
    exists "apples", ["fruit"; "food"]. reflexivity. }
  assert (N : Forall notDelete [Insert applesFile]).
  { constructor; [exact I|constructor]. }
  split; [exact H|]. split; [exact N|]. split.
  - exact (proj1 (totalDocuments_counts_uploads H)).
  - exact (proj1 (proj2 (totalDocuments_counts_uploads H)) N).
Defined.

End StateClaims.

(** ** Claims on the term frequencies *)

Module FrequencyClaims.

Import JsString Embedding Spec.
Local Open Scope string_scope.
Local Open Scope R_scope.

(** The frequencies [getEmbedding] weights a vector with: every distinct
    expanded term has the frequency one over the number of distinct
    expanded terms. *)
Lemma frequency_after_deduplication (words expanded : list string)
  (w : string) :
  expandSemanticTerms words = Some expanded -> In w expanded ->
  get_or_0 (calculateTFIDF expanded) w = 1 / INR (length expanded).
Proof.
  unfold expandSemanticTerms. intros He Hin.
  destruct (expandedWords words) as [raw|]; [|discriminate].
  injection He as <-.
  apply EmbeddingFacts.calculateTFIDF_NoDup; [|assumption].
  apply ObjFacts.unique_NoDup.
Qed.

(** C2, at an input where it fails: for the tokens of "apple apple
    banana" the expanded list holds "apple" 2 times among 9 words, and the
    frequency of "apple" in the map [getEmbedding] computes and stores is
    1/4. *)
Theorem frequency_of_repeated_token :
  let text := "apple apple banana" in
  exists (raw : list string) (vector : DocumentVector),
    preprocessText text = ["apple"; "apple"; "banana"]
    /\ expandedWords (preprocessText text) = Some raw
    /\ INR (count_occ string_dec raw "apple") / INR (length raw) = 2 / 9
    /\ JsMap.get (documents (snd (getEmbedding text (Some "d1") initial)))
                 "d1" = Some vector
    /\ get_or_0 (tfidf vector) "apple" = 1 / 4.
Proof.
  cbv zeta.
  exists ["apple"; "apple"; "banana"; "fruit"; "food"; "fruit"; "food";
          "fruit"; "food"].
  exists {| tfidf := calculateTFIDF ["apple"; "banana"; "fruit"; "food"];
            normalized := [];
            wordCount := 4 |}.
  split; [reflexivity|]. split; [reflexivity|]. split.
  - replace (count_occ string_dec _ "apple") with 2%nat
      by (vm_compute; reflexivity).
    cbn [length INR]. lra.
  - split; [reflexivity|].
    cbn [tfidf].
    rewrite (@frequency_after_deduplication ["apple"; "apple"; "banana"]).
    + cbn [length INR]. lra.
    + reflexivity.
    + now left.
Qed.

End FrequencyClaims.

(** ** Claims on the scores *)

Module ScoreClaims.

Import JsString DocumentService Spec Scenario.
Local Open Scope string_scope.
Local Open Scope R_scope.

(** C1, at an input where it fails: after the upload of [applesFile], the
    search for "apples" returns one result, classified hybrid, whose score
    is 0.7 * 1 + 0.3 * 1.25 = 1.075, above 1. *)
Theorem hybrid_score_above_one :
  exists r : SearchResult,
    fst (searchDocuments "apples" applesStore) = [r]
    /\ searchType r = hybrid
    /\ score r = 1.075
    /\ 1 < score r.
Proof.
  exists applesResult. split; [apply ScenarioFacts.apples_search|].
  simpl. repeat split; lra.
Qed.

(** What does hold: a result that is not hybrid has its score in
    [0, 1], and a hybrid one is above its threshold. *)
Lemma score_range (query : string) (st : State) (r : SearchResult) :
  In r (fst (searchDocuments query st)) ->
  match searchType r with
  | hybrid => 0.1 < score r
  | _ => 0 <= score r <= 1
  end.
Proof.
  intros Hin. apply SearchFacts.search_In, SearchFacts.collect_In in Hin.
  destruct Hin as [doc [_ Hr]].
  apply SearchFacts.resultFor_inv in Hr.
  destruct Hr as (_ & _ & Hth & Hc).
  revert Hc. unfold classify, effectiveSemanticScoreOf.
  set (sem := semanticScoreOf (embeddingOf query) doc).
  assert (Hsem : 0 <= sem <= 1).
  { unfold sem, semanticScoreOf.
    destruct (embeddingOf query); [|lra].
    destruct (embedding doc); [apply VectorFacts.cosine_range|lra]. }
  set (kw := keywordScoreOf (toLowerCase query) doc).
  unfold minSemanticScore.
  pose proof (Rmin_r kw 1.0) as Hmin.
  destruct (Rlt_dec 0.18 sem);
    destruct (Rlt_dec 0 _); try destruct (Rlt_dec 0 kw);
    intros E; injection E as Es Et; rewrite Et in *; simpl in Hth;
    rewrite Es in *; try lra.
Qed.

(** C3, at an input where it fails: the stored document of [reportFile]
    has an empty text and no keywords, and the search for "report"
    returns it, through its file name. *)
Lemma empty_document_found_by_filename :
  In reportDocument (JsMap.values (documents reportStore))
  /\ extractedText reportDocument = ""
  /\ keywords reportDocument = []
  /\ In reportDocument
        (map document (fst (searchDocuments "report" reportStore))).
Proof.
  unfold reportDocument. pose proof ScenarioFacts.reportStore_values as Hv.
  split; [rewrite Hv; now left|].
  split; [reflexivity|]. split; [reflexivity|].
  rewrite SearchFacts.search_results.
  change (is_empty (trim "report")) with false. cbv iota.
  unfold candidates. rewrite Hv.
  change (toLowerCase "report") with "report".
  cbn [collect].
  assert (Hs : semanticScoreOf (embeddingOf "report")
                 (documentOf reportFile txt) = 0).
  { unfold semanticScoreOf.
    change (embedding (documentOf reportFile txt))
      with (Some Embedding.zeroVector).
    destruct (embeddingOf "report"); [|reflexivity].
    apply VectorFacts.cosine_zeros. }
  assert (Hk : keywordScoreOf "report" (documentOf reportFile txt) = 0.3).
  { unfold keywordScoreOf.
    assert (H1 : includes
                   (toLowerCase (filename (documentOf reportFile txt)))
                   "report" = true) by reflexivity.
    assert (H2 : keywordMatches "report" (documentOf reportFile txt) = [])
      by reflexivity.
    assert (H3 : matchingSentences "report" (documentOf reportFile txt) = [])
      by reflexivity.
    rewrite H1, H2, H3. simpl. lra. }
  rewrite SearchFacts.resultFor_keyword.
  - simpl. now left.
  - rewrite Hs. unfold minSemanticScore. lra.
  - rewrite Hk. lra.
Qed.

Lemma empty_document_scores (queryEmbedding : option (list R))
  (queryLower : string) (d : SimpleDocument) :
  extractedText d = "" -> keywords d = [] ->
  embedding d = embeddingOf (extractedText d) ->
  includes (toLowerCase (filename d)) queryLower = false ->
  resultFor queryEmbedding queryLower d = None.
Proof.
  intros Ht Hk He Hf. rewrite Ht in He.
  apply SearchFacts.resultFor_none.
  - unfold semanticScoreOf. rewrite He.
    change (embeddingOf "") with (Some Embedding.zeroVector).
    unfold minSemanticScore.
    destruct queryEmbedding; [|lra].
    unfold Embedding.zeroVector. rewrite VectorFacts.cosine_zeros. lra.
  - unfold keywordScoreOf, keywordMatches, matchingSentences.
    rewrite Hf, Hk, Ht. simpl. lra.
Qed.

(** C3, amended: after every sequence of operations, a stored document
    whose text and keyword list are empty is in no result list of a query
    whose lower-cased form does not occur in the lower-cased file name of
    the document. *)
Theorem empty_document_excluded (ops : list Operation) (query : string)
  (d : SimpleDocument) :
  In d (JsMap.values (documents (run ops))) ->
  extractedText d = "" ->
  keywords d = [] ->
  includes (toLowerCase (filename d)) (toLowerCase query) = false ->
  ~ In d (map document (fst (searchDocuments query (run ops)))).
Proof.
  intros Hd Ht Hk Hf Hin.
  apply in_map_iff in Hin. destruct Hin as [r [Hr Hin]].
  apply SearchFacts.search_In, SearchFacts.collect_In in Hin.
  destruct Hin as [doc [_ Hres]].
  pose proof (SearchFacts.resultFor_inv _ _ _ Hres) as [Hdoc _].
  rewrite Hr in Hdoc. subst doc.
  rewrite empty_document_scores in Hres; try assumption; [discriminate|].
  exact (StoreFacts.run_embedded ops d Hd).
Qed.

Lemma empty_document_excluded_witness :
  In reportDocument (JsMap.values (documents (run [Insert reportFile])))
  /\ extractedText reportDocument = ""
  /\ keywords reportDocument = []
  /\ includes (toLowerCase (filename reportDocument)) (toLowerCase "apple")
     = false
  /\ ~ In reportDocument
         (map document
              (fst (searchDocuments "apple" (run [Insert reportFile])))).
Proof.
  unfold reportDocument.
  assert (Hd : In (documentOf reportFile txt)
                  (JsMap.values (documents (run [Insert reportFile])))).
  { change (run [Insert reportFile]) with reportStore.
    rewrite ScenarioFacts.reportStore_values. now left. }
  split; [exact Hd|]. repeat (split; [reflexivity|]).
  apply (@empty_document_excluded [Insert reportFile] "apple"
           (documentOf reportFile txt) Hd);
    reflexivity.
Defined.

End ScoreClaims.

Unset Implicit Arguments.

(** * Tokens *)

Module Tokens.

Import JsString Notions.
Local Open Scope string_scope.
Local Open Scope list_scope.

Lemma lower_word_char (c : ascii) :
  is_word_char (lower_char c) = true -> tokenChar (lower_char c) = true.
Proof.
  destruct c as [[] [] [] [] [] [] [] []]; vm_compute; intros H;
    first [reflexivity | discriminate H].
Qed.

Lemma lower_space (c : ascii) : is_space (lower_char c) = is_space c.
Proof. destruct c as [[] [] [] [] [] [] [] []]; reflexivity. Qed.

Lemma lower_lower (c : ascii) : lower_char (lower_char c) = lower_char c.
Proof. destruct c as [[] [] [] [] [] [] [] []]; reflexivity. Qed.

Lemma split_runs_nonempty (sep : ascii -> bool) (s : string) :
  split_runs sep s <> [].
Proof.
  induction s as [|c s IH]; simpl; [discriminate|].
  destruct (sep c).
  - destruct (starts_with_sep sep s); [assumption|discriminate].
  - destruct (split_runs sep s); discriminate.
Qed.

(** Every character of a piece is a character of the string that is not a
    separator. *)
Lemma split_runs_chars (sep : ascii -> bool) (s piece : string) (c : ascii) :
  In piece (split_runs sep s) -> In c (chars piece) ->
  In c (chars s) /\ sep c = false.
Proof.
  revert piece. induction s as [|a s IH]; simpl; intros piece Hp Hc.
  - destruct Hp as [<-|[]]. contradiction.
  - destruct (sep a) eqn:Ea.
    + assert (Hin : In piece (split_runs sep s) \/ piece = EmptyString).
      { destruct (starts_with_sep sep s); [now left|].
        destruct Hp as [<-|Hp]; [now right|now left]. }
      destruct Hin as [Hin| ->]; [|contradiction].
      destruct (IH _ Hin Hc). auto.
    + destruct (split_runs sep s) as [|h t] eqn:Es.
      * destruct Hp as [<-|[]]. simpl in Hc.
        destruct Hc as [<-|[]]. auto.
      * destruct Hp as [<-|Hp].
        -- simpl in Hc. destruct Hc as [<-|Hc]; [auto|].
           destruct (IH h (or_introl eq_refl) Hc). auto.
        -- destruct (IH piece (or_intror Hp) Hc). auto.
Qed.

Lemma chars_replace_lower (text : string) (c : ascii) :
  In c (chars (replace_non_word (toLowerCase text))) ->
  is_space c = false -> tokenChar c = true.
Proof.
  induction text as [|a text IH]; simpl; [contradiction|].
  intros [<-|Hin] Hs; [|now apply IH].
  destruct (is_word_char (lower_char a)) eqn:Ew; simpl in *.
  - now apply lower_word_char.
  - destruct (is_space (lower_char a)) eqn:Esp; [congruence|].
    discriminate Hs.
Qed.

Lemma token_shape (text word : string) :
  In word (Embedding.preprocessText text) ->
  (2 < String.length word)%nat
  /\ mem word Embedding.stopWords = false
  /\ Forall (fun c => tokenChar c = true) (chars word).
Proof.
  unfold Embedding.preprocessText. intros H.
  apply filter_In in H. destruct H as [Hin Hf].
  apply andb_true_iff in Hf. destruct Hf as [Hl Hs].
  apply Nat.ltb_lt in Hl. apply negb_true_iff in Hs.
  repeat split; try assumption.
  apply Forall_forall. intros c Hc.
  destruct (split_runs_chars _ _ _ _ Hin Hc) as [H1 H2].
  eapply chars_replace_lower; eassumption.
Qed.

Lemma lower_idem (s : string) : toLowerCase (toLowerCase s) = toLowerCase s.
Proof.
  induction s as [|c s IH]; simpl; [reflexivity|].
  now rewrite lower_lower, IH.
Qed.

Lemma chars_lower (s : string) :
  chars (toLowerCase s) = map lower_char (chars s).
Proof.
  unfold chars. induction s as [|c s IH]; simpl; [reflexivity|].
  now rewrite IH.
Qed.

Lemma token_lower (w : string) :
  Forall (fun c => tokenChar c = true) (chars w) -> toLowerCase w = w.
Proof.
  induction w as [|c w IH]; simpl; intros H; [reflexivity|].
  inversion H as [|? ? Hc Hw]; subst.
  rewrite (IH Hw). f_equal.
  revert Hc. clear.
  destruct c as [[] [] [] [] [] [] [] []]; vm_compute; intros H;
    first [reflexivity | discriminate H].
Qed.

Lemma token_not_space (c : ascii) : tokenChar c = true -> is_space c = false.
Proof.
  destruct c as [[] [] [] [] [] [] [] []]; vm_compute; intros H;
    first [reflexivity | discriminate H].
Qed.

(** X1: The tokens of [preprocessText]: each is longer than two characters,
    is no stop word and is made of lower-case letters, digits and
    underscores only; and the case of the text does not change them. *)
Theorem preprocessText_tokens (text : string) :
  Forall (fun word =>
            (2 < String.length word)%nat
            /\ mem word Embedding.stopWords = false
            /\ toLowerCase word = word
            /\ Forall (fun c => tokenChar c = true) (chars word))
         (Embedding.preprocessText text)
  /\ Embedding.preprocessText (toLowerCase text)
     = Embedding.preprocessText text.
Proof.
  split.
  - apply Forall_forall. intros word Hin.
    destruct (token_shape text word Hin) as (H1 & H2 & H3).
    repeat split; try assumption. now apply token_lower.
  - unfold Embedding.preprocessText. now rewrite lower_idem.
Qed.

End Tokens.

(** * Semantic expansion *)

Module Expansion.

Import JsString Notions Tokens.
Local Open Scope string_scope.
Local Open Scope list_scope.

Lemma mapping_cases (w : string) :
  match Embedding.mapping w with
  | Embedding.Own targets => JsObj.get Embedding.semanticMappings w = Some targets
  | Embedding.Inherited =>
      JsObj.get Embedding.semanticMappings w = None
      /\ mem w Embedding.prototypeNames = true
  | Embedding.Missing =>
      JsObj.get Embedding.semanticMappings w = None
  end.
Proof.
  unfold Embedding.mapping.
  destruct (JsObj.get Embedding.semanticMappings w); [reflexivity|].
  destruct (mem w Embedding.prototypeNames); auto.
Qed.

Lemma pushed_In (words l : list string) (w : string) :
  Embedding.pushed words = Some l ->
  (In w l <-> exists w0, In w0 words /\ related w0 w).
Proof.
  revert l. induction words as [|x words IH]; simpl; intros l H.
  - injection H as <-. split; [contradiction|]. intros [w0 [[] _]].
  - pose proof (mapping_cases x) as Hm.
    destruct (Embedding.mapping x) as [targets| |]; [|discriminate|];
      destruct (Embedding.pushed words) as [rest|]; try discriminate;
      injection H as <-; specialize (IH rest eq_refl);
      rewrite ?in_app_iff, IH; unfold related; split.
    + intros [H|[H|[w0 [H1 H2]]]].
      * exists x. split; [now left|]. left. eauto.
      * exists x. split; [now left|]. now right.
      * exists w0. split; [now right|assumption].
    + intros [w0 [[<-|H1] H2]].
      * destruct H2 as [[t [Ht Hin]]|H2]; [|auto].
        rewrite Hm in Ht. injection Ht as <-. auto.
      * right. right. exists w0. auto.
    + intros [H|[w0 [H1 H2]]].
      * exists x. split; [now left|]. now right.
      * exists w0. split; [now right|assumption].
    + intros [w0 [[<-|H1] H2]].
      * destruct H2 as [[t [Ht Hin]]|H2]; [congruence|auto].
      * right. exists w0. auto.
Qed.

Lemma pushed_None (words : list string) :
  Embedding.pushed words = None <->
  exists w, In w words /\ Embedding.mapping w = Embedding.Inherited.
Proof.
  induction words as [|x words IH]; simpl.
  - split; [discriminate|]. intros [w [[] _]].
  - destruct (Embedding.mapping x) as [targets| |] eqn:Em.
    + destruct (Embedding.pushed words) as [rest|]; simpl.
      * split; [discriminate|]. intros [w [[<-|Hw] Hi]]; [congruence|].
        assert (Hn : Some rest = None) by (apply IH; eauto).
        discriminate Hn.
      * split; [|reflexivity]. intros _.
        destruct (proj1 IH eq_refl) as [w [Hw Hi]]. eauto.
    + split; [|reflexivity]. intros _. exists x. auto.
    + destruct (Embedding.pushed words) as [rest|]; simpl.
      * split; [discriminate|]. intros [w [[<-|Hw] Hi]]; [congruence|].
        assert (Hn : Some rest = None) by (apply IH; eauto).
        discriminate Hn.
      * split; [|reflexivity]. intros _.
        destruct (proj1 IH eq_refl) as [w [Hw Hi]]. eauto.
Qed.

Lemma expanded_In (words expanded : list string) (w : string) :
  Embedding.expandSemanticTerms words = Some expanded ->
  In w expanded <->
  In w words \/ exists w0, In w0 words /\ related w0 w.
Proof.
  unfold Embedding.expandSemanticTerms, Embedding.expandedWords.
  destruct (Embedding.pushed words) as [l|] eqn:E; [|discriminate].
  simpl. intros H. injection H as <-.
  rewrite ObjFacts.unique_In, in_app_iff, (pushed_In _ _ w E).
  reflexivity.
Qed.

(** X2: The expansion, when it does not throw: no duplicates; every input
    word; and beside them exactly the words one lookup away from an input
    word. *)
Theorem expandSemanticTerms_spec (words expanded : list string) :
  Embedding.expandSemanticTerms words = Some expanded ->
  NoDup expanded
  /\ forall w, In w expanded <->
               In w words \/ exists w0, In w0 words /\ related w0 w.
Proof.
  intros H. split.
  - revert H.
    unfold Embedding.expandSemanticTerms, Embedding.expandedWords.
    destruct (Embedding.pushed words) as [l|]; [|discriminate].
    simpl. intros H. injection H as <-. apply ObjFacts.unique_NoDup.
  - intros w. now apply expanded_In.
Qed.

Lemma expandSemanticTerms_spec_witness :
  Embedding.expandSemanticTerms ["apple"] = Some ["apple"; "fruit"; "food"]
  /\ NoDup ["apple"; "fruit"; "food"]
  /\ forall w, In w ["apple"; "fruit"; "food"] <->
               In w ["apple"]
               \/ exists w0, In w0 ["apple"] /\ related w0 w.
Proof.
  split; [reflexivity|].
  apply (expandSemanticTerms_spec ["apple"] ["apple"; "fruit"; "food"]).
  reflexivity.
Defined.

Lemma token_prototype_name (w : string) :
  Forall (fun c => tokenChar c = true) (chars w) ->
  mem w Embedding.prototypeNames = true ->
  w = "constructor" \/ w = "__proto__".
Proof.
  intros Hf Hm. apply ObjFacts.mem_In in Hm.
  assert (Hb : forallb tokenChar (chars w) = true).
  { apply forallb_forall. now apply Forall_forall. }
  simpl in Hm.
  repeat (destruct Hm as [<-|Hm];
          [first [now left | now right | discriminate Hb]|]).
  contradiction.
Qed.

Lemma expansion_None (text : string) :
  Embedding.expandSemanticTerms (Embedding.preprocessText text) = None <->
  namesInherited text.
Proof.
  unfold namesInherited.
  unfold Embedding.expandSemanticTerms, Embedding.expandedWords.
  destruct (Embedding.pushed (Embedding.preprocessText text)) as [l|] eqn:E;
    simpl.
  - split; [discriminate|].
    intros H. exfalso.
    assert (Hn : Embedding.pushed (Embedding.preprocessText text) = None).
    { apply pushed_None.
      destruct H as [H|H]; eexists; (split; [exact H|reflexivity]). }
    congruence.
  - split; [|reflexivity]. intros _.
    destruct (proj1 (pushed_None _) E) as [w [Hw Hi]].
    pose proof (mapping_cases w) as Hm. rewrite Hi in Hm.
    destruct Hm as [_ Hm].
    destruct (token_shape _ _ Hw) as (_ & _ & Hc).
    destruct (token_prototype_name _ Hc Hm) as [-> | ->]; auto.
Qed.

(** X3: [getEmbedding] throws (in [expandSemanticTerms]) exactly for a text
    one of whose tokens is [constructor] or [__proto__], and then it has
    changed nothing in the service. *)
Theorem getEmbedding_throws (text : string) (documentId : option string)
  (s : Embedding.Service) :
  (fst (Embedding.getEmbedding text documentId s) = None
   <-> namesInherited text)
  /\ (fst (Embedding.getEmbedding text documentId s) = None ->
      snd (Embedding.getEmbedding text documentId s) = s).
Proof.
  rewrite <- expansion_None. unfold Embedding.getEmbedding.
  destruct (Embedding.expandSemanticTerms (Embedding.preprocessText text))
    as [[|w ws]|]; simpl; repeat split; congruence.
Qed.

End Expansion.

(** * The hash and the term frequencies *)

Module Terms.

Import JsString Notions Tokens.
Local Open Scope string_scope.
Local Open Scope list_scope.

Local Open Scope Z_scope.

Lemma to_int32_range (z : Z) :
  - 2 ^ 31 <= Embedding.to_int32 z < 2 ^ 31.
Proof.
  unfold Embedding.to_int32.
  pose proof (Z.mod_pos_bound (z + 2 ^ 31) (2 ^ 32) ltac:(lia)). lia.
Qed.

Lemma to_int32_shift (z k : Z) :
  Embedding.to_int32 (z + k * 2 ^ 32) = Embedding.to_int32 z.
Proof.
  unfold Embedding.to_int32.
  replace (z + k * 2 ^ 32 + 2 ^ 31) with (z + 2 ^ 31 + k * 2 ^ 32) by lia.
  now rewrite Z_mod_plus_full.
Qed.

Lemma to_int32_repr (z : Z) :
  exists k, Embedding.to_int32 z = z + k * 2 ^ 32.
Proof.
  unfold Embedding.to_int32.
  exists (- ((z + 2 ^ 31) / 2 ^ 32)).
  pose proof (Z.div_mod (z + 2 ^ 31) (2 ^ 32) ltac:(lia)). lia.
Qed.

Lemma hash_step_poly (x : Z) (c : ascii) :
  Embedding.hash_step (Embedding.to_int32 x) c
  = Embedding.to_int32 (31 * x + Z.of_N (code c)).
Proof.
  unfold Embedding.hash_step. rewrite Z.shiftl_mul_pow2 by lia.
  destruct (to_int32_repr x) as [k Hk].
  destruct (to_int32_repr (Embedding.to_int32 x * 2 ^ 5)) as [j Hj].
  rewrite Hj, Hk.
  replace ((x + k * 2 ^ 32) * 2 ^ 5 + j * 2 ^ 32 - (x + k * 2 ^ 32)
           + Z.of_N (code c))
    with (31 * x + Z.of_N (code c) + (31 * k + j) * 2 ^ 32) by lia.
  apply to_int32_shift.
Qed.

Lemma fold_hash_step (cs : list ascii) (x : Z) :
  fold_left Embedding.hash_step cs (Embedding.to_int32 x)
  = Embedding.to_int32 (horner x cs).
Proof.
  revert x. induction cs as [|c cs IH]; intros x; simpl.
  - reflexivity.
  - rewrite hash_step_poly. apply IH.
Qed.

(** X4: [hashWord] is the absolute value of the 31-polynomial of the character
    codes wrapped to 32 bits; it lies between 0 and 2^31 (the absolute
    value of the least 32-bit integer), and the bucket it selects is below
    the dimension. *)
Theorem hashWord_polynomial (word : string) :
  Embedding.hashWord word
  = Z.abs (Embedding.to_int32 (horner 0 (chars word)))
  /\ 0 <= Embedding.hashWord word <= 2 ^ 31
  /\ (Embedding.vectorIndex word < Embedding.getDimensions)%nat.
Proof.
  assert (H : Embedding.hashWord word
              = Z.abs (Embedding.to_int32 (horner 0 (chars word)))).
  { unfold Embedding.hashWord.
    change 0 with (Embedding.to_int32 0) at 1.
    now rewrite fold_hash_step. }
  split; [exact H|]. split.
  - rewrite H. pose proof (to_int32_range (horner 0 (chars word))). lia.
  - apply EmbeddingFacts.vectorIndex_lt.
Qed.

Local Close Scope Z_scope.
Local Open Scope R_scope.

(** X5: What [calculateTFIDF] computes on a list free of inherited property
    names: the keys are the distinct words, each value is the number of
    occurrences over the length, and the value of every word of the list
    is positive and at most 1. *)
Theorem calculateTFIDF_frequencies (words : list string) :
  words <> [] ->
  Forall (fun w => mem w Embedding.prototypeNames = false) words ->
  let tf := Embedding.calculateTFIDF words in
  NoDup (JsObj.keys tf)
  /\ (forall w, In w (JsObj.keys tf) <-> In w words)
  /\ (forall w, Embedding.get_or_0 tf w
                = INR (count_occ string_dec words w) / INR (length words))
  /\ (forall w, In w words -> 0 < Embedding.get_or_0 tf w <= 1).
Proof.
  intros Hne _. cbv zeta.
  split.
  { rewrite EmbeddingFacts.keys_calculateTFIDF.
    apply EmbeddingFacts.keys_count_NoDup. constructor. }
  split.
  { intros w. rewrite EmbeddingFacts.keys_calculateTFIDF,
      EmbeddingFacts.keys_count_In. simpl. tauto. }
  split; [apply EmbeddingFacts.calculateTFIDF_spec|].
  intros w Hw. rewrite EmbeddingFacts.calculateTFIDF_spec.
  assert (Hlen : 0 < INR (length words)).
  { apply lt_0_INR. destruct words; [congruence|simpl; lia]. }
  assert (Hc : 0 < INR (count_occ string_dec words w)).
  { apply lt_0_INR. now apply count_occ_In. }
  assert (Hb : INR (count_occ string_dec words w) <= INR (length words)).
  { apply le_INR, count_occ_bound. }
  split.
  - now apply Rdiv_lt_0_compat.
  - apply (Rmult_le_reg_r (INR (length words))); [assumption|].
    unfold Rdiv. rewrite Rmult_assoc, Rinv_l by lra. lra.
Qed.

Lemma calculateTFIDF_frequencies_witness :
  ["apple"; "pear"; "apple"] <> []
  /\ Forall (fun w => mem w Embedding.prototypeNames = false)
            ["apple"; "pear"; "apple"]
  /\ NoDup (JsObj.keys (Embedding.calculateTFIDF ["apple"; "pear"; "apple"]))
  /\ (forall w,
        In w (JsObj.keys (Embedding.calculateTFIDF ["apple"; "pear"; "apple"]))
        <-> In w ["apple"; "pear"; "apple"])
  /\ (forall w,
        Embedding.get_or_0
          (Embedding.calculateTFIDF ["apple"; "pear"; "apple"]) w
        = INR (count_occ string_dec ["apple"; "pear"; "apple"] w)
          / INR (length ["apple"; "pear"; "apple"]))
  /\ (forall w,
        In w ["apple"; "pear"; "apple"] ->
        0 < Embedding.get_or_0
              (Embedding.calculateTFIDF ["apple"; "pear"; "apple"]) w
        <= 1).
Proof.
  assert (H1 : ["apple"; "pear"; "apple"] <> []) by discriminate.
  assert (H2 : Forall (fun w => mem w Embedding.prototypeNames = false)
                      ["apple"; "pear"; "apple"])
    by (repeat constructor).
  split; [exact H1|]. split; [exact H2|].
  exact (calculateTFIDF_frequencies ["apple"; "pear"; "apple"] H1 H2).
Defined.

End Terms.

(** * Vectors *)

Module Vectors.

Import JsString Notions Embedding.
Local Open Scope string_scope.
Local Open Scope list_scope.
Local Open Scope R_scope.

Lemma sumSquares_scale (v : list R) (m : R) :
  m <> 0 ->
  sumSquares (map (fun val => val / m) v) = sumSquares v / (m * m).
Proof.
  intros Hm. induction v as [|x v IH]; simpl.
  - unfold sumSquares. simpl. field. assumption.
  - rewrite !VectorFacts.sumSquares_cons, IH. field. assumption.
Qed.

Lemma sumSquares_bound (v : list R) (x : R) :
  In x v -> x * x <= sumSquares v.
Proof.
  induction v as [|y v IH]; [contradiction|].
  rewrite VectorFacts.sumSquares_cons.
  pose proof (VectorFacts.sumSquares_nonneg v).
  intros [->|Hin]; [lra|]. specialize (IH Hin). nra.
Qed.

Lemma normalize_length (v : list R) : length (normalize v) = length v.
Proof.
  unfold normalize. destruct (Rlt_dec 0 (magnitude v)); [|reflexivity].
  apply length_map.
Qed.

Lemma vectorOf_shape (w : string) (ws : list string) :
  let v := vectorOf (w :: ws) in
  length v = getDimensions
  /\ Forall (fun x => 0 <= x <= 1) v
  /\ sumSquares v = 1.
Proof.
  cbv zeta. unfold vectorOf.
  set (e := w :: ws). set (tf := calculateTFIDF e).
  destruct (@EmbeddingFacts.accumulate_invariant tf (unique e) zeroVector)
    as [Hl [Hnn _]].
  { unfold zeroVector. apply repeat_length. }
  { apply EmbeddingFacts.zeroVector_nonneg. }
  { intros x. apply EmbeddingFacts.get_or_0_tf_nonneg. }
  pose proof (EmbeddingFacts.vectorOf_nonZero w ws) as Hnz.
  unfold vectorOf in Hnz. fold e tf in Hnz.
  set (raw := fold_left (accumulate tf) (unique e) zeroVector) in *.
  assert (Hm : 0 < magnitude raw).
  { unfold normalize in Hnz.
    destruct (Rlt_dec 0 (magnitude raw)) as [H|H]; [exact H|].
    exfalso. apply H. now apply VectorFacts.magnitude_pos. }
  assert (Hsq : magnitude raw * magnitude raw = sumSquares raw).
  { unfold magnitude. apply sqrt_sqrt, VectorFacts.sumSquares_nonneg. }
  assert (Hs : sumSquares (normalize raw) = 1).
  { unfold normalize.
    destruct (Rlt_dec 0 (magnitude raw)); [|contradiction].
    rewrite sumSquares_scale by lra. rewrite Hsq. field. nra. }
  split; [rewrite normalize_length; exact Hl|]. split; [|exact Hs].
  apply Forall_forall. intros x Hx.
  pose proof (sumSquares_bound _ _ Hx) as Hb. rewrite Hs in Hb.
  assert (H0 : 0 <= x).
  { unfold normalize in Hx.
    destruct (Rlt_dec 0 (magnitude raw)); [|contradiction].
    apply in_map_iff in Hx. destruct Hx as [y [<- Hy]].
    rewrite Forall_forall in Hnn. specialize (Hnn y Hy).
    apply Rmult_le_pos; [assumption|].
    apply Rlt_le, Rinv_0_lt_compat. assumption. }
  split; [assumption|]. nra.
Qed.

(** X6: Every vector [getEmbedding] returns has the dimension of the service
    and components between 0 and 1; it is the zero vector when the text
    has no term, and has a component that is not 0 otherwise. *)
Theorem getEmbedding_shape (text : string) (documentId : option string)
  (s : Service) (v : list R) :
  fst (getEmbedding text documentId s) = Some v ->
  length v = getDimensions
  /\ Forall (fun x => 0 <= x <= 1) v
  /\ ((Spec.termsOf text = Some [] /\ v = zeroVector)
      \/ ((exists w ws, Spec.termsOf text = Some (w :: ws))
          /\ Spec.nonZero v)).
Proof.
  rewrite EmbeddingFacts.getEmbedding_vector. unfold Spec.embeddingOf.
  destruct (Spec.termsOf text) as [[|w ws]|] eqn:E; [| |discriminate];
    intros H; injection H as <-.
  - split; [apply repeat_length|]. split; [|now left].
    unfold zeroVector. apply Forall_forall. intros x Hx.
    apply repeat_spec in Hx. subst. lra.
  - destruct (vectorOf_shape w ws) as (H1 & H2 & H3).
    split; [exact H1|]. split; [exact H2|]. right. split; [eauto|].
    apply EmbeddingFacts.vectorOf_nonZero.
Qed.

Lemma getEmbedding_shape_witness :
  fst (getEmbedding "apples" None Embedding.initial)
  = Some (vectorOf ["apples"; "fruit"; "food"])
  /\ length (vectorOf ["apples"; "fruit"; "food"]) = getDimensions
  /\ Forall (fun x => 0 <= x <= 1) (vectorOf ["apples"; "fruit"; "food"])
  /\ ((Spec.termsOf "apples" = Some []
       /\ vectorOf ["apples"; "fruit"; "food"] = zeroVector)
      \/ ((exists w ws, Spec.termsOf "apples" = Some (w :: ws))
          /\ Spec.nonZero (vectorOf ["apples"; "fruit"; "food"]))).
Proof.
  assert (H : fst (getEmbedding "apples" None Embedding.initial)
              = Some (vectorOf ["apples"; "fruit"; "food"]))
    by reflexivity.
  split; [exact H|].
  exact (getEmbedding_shape "apples" None Embedding.initial
           (vectorOf ["apples"; "fruit"; "food"]) H).
Defined.

End Vectors.

(** * The similarity on binary64 numbers *)

Module Similarity.

Import PrimFloat Doubles.
Local Open Scope float_scope.

(** X7: On the numbers of the engine, [cosineSimilarity(a, b)] and
    [cosineSimilarity(b, a)] are the same number, and the result is [NaN]
    or lies between 0 and 1. *)
Theorem cosineSimilarity_symmetric (a b : list float) :
  cosineSimilarity a b = cosineSimilarity b a
  /\ (is_nan (cosineSimilarity a b) = true
      \/ inUnit (cosineSimilarity a b) = true).
Proof.
  split.
  - exact (DoubleFacts.cosine_sym64 a b).
  - exact (DoubleFacts.cosine_range64 a b).
Qed.

(** [NaN] does occur: the sum of squares of a vector whose one component
    is 2^600 overflows, and infinity over infinity is [NaN]. *)
Lemma cosineSimilarity_overflow :
  is_nan (cosineSimilarity [0x1p+600] [0x1p+600]) = true.
Proof. reflexivity. Qed.

End Similarity.


(** * The vocabulary and the reported mappings *)

Module Vocabulary.

Import JsString Notions Tokens Embedding.
Local Open Scope string_scope.
Local Open Scope list_scope.

Lemma keys_set_existing (V : Type) (o : JsObj.t V) (k : string) (v : V) :
  In k (JsObj.keys o) -> JsObj.keys (JsObj.set k v o) = JsObj.keys o.
Proof.
  intros Hin. unfold JsObj.set.
  destruct (ObjFacts.keys_get _ _ Hin) as [x Hx].
  unfold JsObj.has. rewrite Hx. apply ObjFacts.keys_replace.
Qed.

Lemma idf_fold_keys (s : Service) (vocab : list string) (g : JsObj.t R) :
  (forall w, In w vocab -> In w (JsObj.keys g)) ->
  JsObj.keys (fold_left (idf_step s) vocab g) = JsObj.keys g.
Proof.
  revert g. induction vocab as [|x vocab IH]; intros g Hin; simpl.
  - reflexivity.
  - assert (Hk : JsObj.keys (idf_step s g x) = JsObj.keys g).
    { unfold idf_step. destruct (0 <? docCount s x)%nat; [|reflexivity].
      apply keys_set_existing. apply Hin. now left. }
    rewrite IH; [exact Hk|].
    intros w Hw. rewrite Hk. apply Hin. now right.
Qed.

Lemma idf_fold_get (s : Service) (vocab : list string) (g : JsObj.t R)
  (w : string) :
  JsObj.get (fold_left (idf_step s) vocab g) w
  = if mem w vocab && (0 <? docCount s w)%nat
    then Some (ln (INR (totalDocuments s) / INR (docCount s w)))
    else JsObj.get g w.
Proof.
  revert g. induction vocab as [|x vocab IH]; intros g; simpl.
  - reflexivity.
  - rewrite IH.
    destruct (mem w vocab && (0 <? docCount s w)%nat) eqn:E.
    + apply andb_true_iff in E. destruct E as [E1 E2].
      unfold mem in E1 |- *. rewrite E1, E2, orb_true_r. reflexivity.
    + unfold idf_step.
      destruct (String.eqb_spec w x) as [->|Hne]; simpl.
      * destruct (0 <? docCount s x)%nat eqn:Ed.
        -- rewrite ObjFacts.get_set, String.eqb_refl. reflexivity.
        -- apply andb_false_iff in E. destruct E as [E|E];
             rewrite ?E; reflexivity.
      * rewrite E.
        destruct (0 <? docCount s x)%nat; [|reflexivity].
        rewrite ObjFacts.get_set.
        destruct (String.eqb_spec w x); [congruence|reflexivity].
Qed.

(** X9: [updateVocabulary] does nothing before a second vector is registered.
    From then on it sets the vocabulary to the names of the global
    word-frequency object, keeps those names, the registered vectors and
    the counter, and overwrites the value of every name that occurs in a
    registered vector with the logarithm of the counter over the number
    of vectors it occurs in. *)
Theorem updateVocabulary_spec (s : Service) :
  ((totalDocuments s <= 1)%nat -> updateVocabulary s = s)
  /\ ((1 < totalDocuments s)%nat ->
      let s' := updateVocabulary s in
      documents s' = documents s
      /\ totalDocuments s' = totalDocuments s
      /\ vocabulary s' = unique (JsObj.keys (globalWordFreq s))
      /\ JsObj.keys (globalWordFreq s') = JsObj.keys (globalWordFreq s)
      /\ forall w,
           JsObj.get (globalWordFreq s') w
           = if mem w (JsObj.keys (globalWordFreq s))
                && (0 <? docCount s w)%nat
             then Some (ln (INR (totalDocuments s) / INR (docCount s w)))
             else JsObj.get (globalWordFreq s) w).
Proof.
  unfold updateVocabulary. split; intros H.
  - destruct (Nat.ltb_spec 1 (totalDocuments s)); [lia|reflexivity].
  - destruct (Nat.ltb_spec 1 (totalDocuments s)); [|lia].
    cbv zeta. unfold calculateIDF. simpl.
    repeat split.
    + apply idf_fold_keys. intros w Hw. now apply ObjFacts.unique_In.
    + intros w. rewrite idf_fold_get.
      rewrite (StoreFacts.mem_ext w (unique (JsObj.keys (globalWordFreq s)))
                 (JsObj.keys (globalWordFreq s)));
        [reflexivity|apply ObjFacts.unique_In].
Qed.

Lemma firstMapping_None (queryWords : list string)
  (entries : list (string * list string)) :
  firstMapping queryWords entries = None <->
  forall key mapped, In (key, mapped) entries ->
    filter (triggers queryWords) mapped = [] /\ mem key queryWords = false.
Proof.
  induction entries as [|[k T] entries IH]; simpl.
  - split; [intros _ ? ? []|reflexivity].
  - destruct (filter (triggers queryWords) T) as [|x l] eqn:Ef; simpl.
    + destruct (mem k queryWords) eqn:Em.
      * split; [discriminate|]. intros H.
        destruct (H k T (or_introl eq_refl)). congruence.
      * rewrite IH. split.
        -- intros H key mapped [E|Hin]; [|now apply H].
           injection E as <- <-. auto.
        -- intros H key mapped Hin. apply H. now right.
    + split; [discriminate|]. intros H.
      destruct (H k T (or_introl eq_refl)) as [H1 _]. congruence.
Qed.

Lemma firstMapping_Some (queryWords : list string)
  (entries : list (string * list string)) (m : SemanticMapping) :
  firstMapping queryWords entries = Some m ->
  exists mapped, In (concept m, mapped) entries
    /\ (matchedWords m = mapped \/ matchedWords m <> [])
    /\ Spec.Subsequence (matchedWords m) mapped.
Proof.
  induction entries as [|[k T] entries IH]; simpl; [discriminate|].
  destruct (filter (triggers queryWords) T) as [|x l] eqn:Ef; simpl.
  - destruct (mem k queryWords).
    + intros H. injection H as <-. simpl. exists T.
      split; [now left|]. split; [now left|].
      clear. induction T; constructor; assumption.
    + intros H. destruct (IH H) as [mapped [H1 H2]].
      exists mapped. split; [now right|assumption].
  - intros H. injection H as <-. simpl. exists T.
    split; [now left|]. split; [right; discriminate|].
    rewrite <- Ef. apply ListFacts.Subsequence_filter.
Qed.

Lemma mappings_nonempty :
  forall key mapped, In (key, mapped) semanticMappings -> mapped <> [].
Proof.
  intros key mapped H. simpl in H.
  repeat (destruct H as [H|H]; [injection H as <- <-; discriminate|]).
  contradiction.
Qed.

Lemma get_In_entries (V : Type) (o : JsObj.t V) (k : string) (v : V) :
  JsObj.get o k = Some v -> In (k, v) o.
Proof.
  induction o as [|[k0 v0] o IH]; simpl; [discriminate|].
  destruct (String.eqb_spec k k0) as [->|Hne].
  - intros H. injection H as <-. now left.
  - intros H. right. now apply IH.
Qed.

(** X10: [getSemanticMappings]: a reported concept is a concept of the table
    and its matched words are a non-empty selection of the words mapped to
    it; and a concept is reported whenever the expansion of the query adds
    a word to its tokens. *)
Theorem getSemanticMappings_spec (query : string) :
  (forall m, getSemanticMappings query = Some m ->
     exists mapped, In (concept m, mapped) semanticMappings
       /\ matchedWords m <> []
       /\ Spec.Subsequence (matchedWords m) mapped)
  /\ (forall expanded w,
        Spec.termsOf query = Some expanded ->
        In w expanded -> ~ In w (preprocessText query) ->
        getSemanticMappings query <> None).
Proof.
  unfold getSemanticMappings. split.
  - intros m H. destruct (firstMapping_Some _ _ _ H) as [mapped (H1 & H2 & H3)].
    exists mapped. split; [exact H1|]. split; [|exact H3].
    destruct H2 as [E|Hne]; [|exact Hne].
    rewrite E. eapply mappings_nonempty; eauto.
  - intros expanded w He Hin Hnot Hnone.
    apply (Expansion.expanded_In _ _ w He) in Hin. destruct Hin as [Hin|[w0 [Hw0 Hrel]]];
      [contradiction|].
    rewrite firstMapping_None in Hnone.
    destruct Hrel as [[targets [Hg _]]|Hc].
    + apply get_In_entries in Hg.
      destruct (Hnone _ _ Hg) as [_ Hm].
      apply ObjFacts.mem_false in Hm. contradiction.
    + unfold conceptsOf in Hc. apply in_map_iff in Hc.
      destruct Hc as [[k T] [<- Hf]]. apply filter_In in Hf.
      destruct Hf as [Hentry Hmem]. simpl in *.
      destruct (Hnone _ _ Hentry) as [Hfilter _].
      apply ObjFacts.mem_In in Hmem.
      assert (Ht : In w0 (filter (triggers (preprocessText query)) T)).
      { apply filter_In. split; [assumption|].
        unfold triggers.
        destruct (token_shape _ _ Hw0) as (_ & _ & Hchars).
        rewrite (token_lower _ Hchars).
        apply orb_true_iff. left. now apply ObjFacts.mem_In. }
      rewrite Hfilter in Ht. contradiction.
Qed.

End Vocabulary.

(** * Uploads *)

Module Uploads.

Import JsString Notions Tokens DocumentService.
Local Open Scope string_scope.
Local Open Scope list_scope.

Section MapLaws.

Variable V : Type.
Implicit Types (m : JsMap.t V) (k : string) (v : V).

Lemma map_get_set m k v k' :
  JsMap.get (JsMap.set k v m) k'
  = if String.eqb k' k then Some v else JsMap.get m k'.
Proof.
  induction m as [|[k0 v0] m IH]; simpl.
  - destruct (String.eqb k' k); reflexivity.
  - destruct (String.eqb_spec k k0) as [->|Hne]; simpl.
    + destruct (String.eqb k' k0); reflexivity.
    + rewrite IH. destruct (String.eqb_spec k' k0) as [->|Hne'];
        [|reflexivity].
      destruct (String.eqb_spec k0 k); [congruence|reflexivity].
Qed.

Lemma map_get_keys m k : JsMap.get m k = None <-> ~ In k (JsMap.keys m).
Proof.
  induction m as [|[k0 v0] m IH]; simpl; [tauto|].
  destruct (String.eqb_spec k k0) as [->|Hne].
  - split; [discriminate|]. intros H. exfalso. auto.
  - rewrite IH. split; [intros H [E|Hin]; [congruence|auto]|tauto].
Qed.

Lemma map_has_keys m k : JsMap.has m k = true <-> In k (JsMap.keys m).
Proof.
  unfold JsMap.has. pose proof (map_get_keys m k) as H.
  destruct (JsMap.get m k).
  - split; [|reflexivity]. intros _.
    destruct (in_dec string_dec k (JsMap.keys m)) as [Hin|Hn]; [assumption|].
    apply H in Hn. discriminate.
  - split; [discriminate|]. intros Hin. exfalso. now apply H.
Qed.

Lemma map_get_delete m k k' :
  NoDup (JsMap.keys m) ->
  JsMap.get (JsMap.delete k m) k'
  = if String.eqb k' k then None else JsMap.get m k'.
Proof.
  induction m as [|[k0 v0] m IH]; simpl; intros Hnd.
  - destruct (String.eqb k' k); reflexivity.
  - inversion Hnd as [|? ? Hk Hm]; subst.
    destruct (String.eqb_spec k k0) as [E|Hne]; simpl.
    + destruct (String.eqb_spec k' k) as [E'|Hne'].
      * rewrite E', E. now apply map_get_keys.
      * rewrite <- E. destruct (String.eqb_spec k' k); [congruence|].
        reflexivity.
    + rewrite (IH Hm).
      destruct (String.eqb_spec k' k0) as [E'|Hne']; [|reflexivity].
      destruct (String.eqb_spec k' k); [congruence|reflexivity].
Qed.

Lemma map_delete_missing m k : ~ In k (JsMap.keys m) -> JsMap.delete k m = m.
Proof.
  induction m as [|[k0 v0] m IH]; simpl; intros Hn; [reflexivity|].
  destruct (String.eqb_spec k k0) as [->|Hne]; [exfalso; auto|].
  f_equal. apply IH. tauto.
Qed.

Lemma map_size_delete m k :
  In k (JsMap.keys m) -> S (JsMap.size (JsMap.delete k m)) = JsMap.size m.
Proof.
  unfold JsMap.size.
  induction m as [|[k0 v0] m IH]; simpl; [contradiction|].
  destruct (String.eqb_spec k k0) as [->|Hne]; [reflexivity|].
  intros [E|Hin]; [congruence|]. simpl. f_equal. now apply IH.
Qed.

Lemma map_values_set_new m k v :
  ~ In k (JsMap.keys m) ->
  JsMap.values (JsMap.set k v m) = JsMap.values m ++ [v].
Proof.
  unfold JsMap.values.
  induction m as [|[k0 v0] m IH]; simpl; intros Hn; [reflexivity|].
  destruct (String.eqb_spec k k0) as [->|Hne]; [exfalso; auto|].
  simpl. f_equal. apply IH. tauto.
Qed.

Lemma map_keys_set_old m k v :
  In k (JsMap.keys m) -> JsMap.keys (JsMap.set k v m) = JsMap.keys m.
Proof.
  unfold JsMap.keys.
  induction m as [|[k0 v0] m IH]; simpl; [contradiction|].
  destruct (String.eqb_spec k k0) as [->|Hne]; [reflexivity|].
  intros [E|Hin]; [congruence|]. simpl. f_equal. now apply IH.
Qed.

Lemma map_get_In m k v : JsMap.get m k = Some v -> In (k, v) m.
Proof.
  induction m as [|[k0 v0] m IH]; simpl; [discriminate|].
  destruct (String.eqb_spec k k0) as [->|Hne].
  - intros H. injection H as <-. now left.
  - intros H. right. now apply IH.
Qed.

Lemma map_In_set m k v k' v' :
  In (k', v') (JsMap.set k v m) -> (k' = k /\ v' = v) \/ In (k', v') m.
Proof.
  induction m as [|[k0 v0] m IH]; simpl.
  - intros [E|[]]. injection E as <- <-. auto.
  - destruct (String.eqb_spec k k0) as [->|Hne]; simpl.
    + intros [E|H]; [injection E as <- <-; auto|auto].
    + intros [E|H]; [auto|]. destruct (IH H); auto.
Qed.

Lemma map_In_delete m k k' v' :
  In (k', v') (JsMap.delete k m) -> In (k', v') m.
Proof.
  induction m as [|[k0 v0] m IH]; simpl; [tauto|].
  destruct (String.eqb k k0); simpl; intuition.
Qed.

End MapLaws.

Lemma is_dot_lower (c : ascii) : is_dot (lower_char c) = is_dot c.
Proof. destruct c as [[] [] [] [] [] [] [] []]; reflexivity. Qed.

Lemma slash_lower (c : ascii) :
  (code (lower_char c) =? 47)%N = (code c =? 47)%N.
Proof. destruct c as [[] [] [] [] [] [] [] []]; reflexivity. Qed.

Lemma is_extension_lower (s : string) :
  is_extension (toLowerCase s) = is_extension s.
Proof.
  induction s as [|c s IH]; simpl; [reflexivity|].
  now rewrite is_dot_lower, slash_lower, IH.
Qed.

Lemma is_extension_no_dot (s : string) :
  is_extension s = true -> afterLastDot s = None.
Proof.
  induction s as [|c s IH]; simpl; [reflexivity|].
  intros H. apply andb_true_iff in H. destruct H as [H Hs].
  apply andb_true_iff in H. destruct H as [Hd _].
  rewrite (IH Hs). apply negb_true_iff in Hd. now rewrite Hd.
Qed.

Lemma afterLastDot_app (base ext : string) :
  afterLastDot ext = None ->
  afterLastDot ((base ++ String "." ext)%string) = Some ext.
Proof.
  intros He. induction base as [|c base IH]; simpl.
  - now rewrite He.
  - simpl in IH. now rewrite IH.
Qed.

Lemma is_extension_app (base ext : string) :
  is_extension ((base ++ String "." ext)%string) = false.
Proof.
  induction base as [|c base IH]; simpl; [reflexivity|].
  rewrite IH. now rewrite andb_false_r.
Qed.

Lemma stripExtension_app (base ext : string) :
  ext <> "" -> is_extension ext = true ->
  stripExtension ((base ++ String "." ext)%string) = base.
Proof.
  intros Hne He. induction base as [|c base IH]; simpl.
  - rewrite He. destruct ext; [congruence|reflexivity].
  - rewrite is_extension_app, andb_false_r. now rewrite IH.
Qed.

Lemma supported_extension (ext : string) (t : FileType) :
  toLowerCase ext = extensionOf t ->
  ext <> "" /\ is_extension ext = true.
Proof.
  intros H. split.
  - intros ->. destruct t; discriminate.
  - rewrite <- is_extension_lower, H. destruct t; reflexivity.
Qed.

(** A file name that ends in a dot and one of the six extensions, in any
    letter case, has that type. *)
Lemma getFileExtension_named (base ext : string) (t : FileType) :
  toLowerCase ext = extensionOf t ->
  getFileExtension ((base ++ String "." ext)%string) = Some t.
Proof.
  intros H. destruct (supported_extension _ _ H) as [_ He].
  unfold getFileExtension.
  rewrite (afterLastDot_app _ _ (is_extension_no_dot _ He)), H.
  destruct t; reflexivity.
Qed.

(** X11: Upload and lookup: a file named [base.ext] with a supported extension
    is stored under its generated id with the type of the extension, the
    given name and text, the keywords of the text and [base] as title, and
    [getDocument] returns it; every other id is looked up as before. *)
Theorem upload_then_getDocument (base ext : string) (t : FileType)
  (file : Upload) (st : State) :
  name file = (base ++ String "." ext)%string ->
  toLowerCase ext = extensionOf t ->
  exists doc,
    fst (uploadDocument file st) = Success doc
    /\ getDocument (generatedId file) (snd (uploadDocument file st))
       = Some doc
    /\ id doc = generatedId file
    /\ filename doc = name file
    /\ fileType doc = t
    /\ extractedText doc = extracted file
    /\ keywords doc = extractKeywords (extracted file)
    /\ title (metadata doc) = Some base
    /\ forall other, other <> generatedId file ->
         getDocument other (snd (uploadDocument file st))
         = getDocument other st.
Proof.
  intros Hname Hext.
  pose proof (getFileExtension_named base ext t Hext) as Hf.
  rewrite <- Hname in Hf.
  exists (Spec.documentOf file t).
  assert (Hfst : fst (uploadDocument file st)
                 = Success (Spec.documentOf file t)).
  { unfold uploadDocument, Spec.documentOf. rewrite Hf.
    rewrite <- (EmbeddingFacts.getEmbedding_vector (extracted file)
                  (Some (generatedId file)) (embeddings st)).
    destruct (Embedding.getEmbedding _ _ _). reflexivity. }
  split; [exact Hfst|].
  unfold getDocument.
  rewrite (SearchFacts.upload_documents _ st Hf).
  split; [rewrite map_get_set, String.eqb_refl; reflexivity|].
  repeat (split; [reflexivity|]).
  split.
  - simpl. rewrite Hname.
    destruct (supported_extension _ _ Hext) as [H1 H2].
    now rewrite stripExtension_app.
  - intros other Hne. rewrite map_get_set.
    destruct (String.eqb_spec other (generatedId file)); [congruence|].
    reflexivity.
Qed.

Lemma upload_then_getDocument_witness :
  name Scenario.applesFile = ("apples" ++ String "." "txt")%string
  /\ toLowerCase "txt" = extensionOf txt
  /\ exists doc,
       fst (uploadDocument Scenario.applesFile initial) = Success doc
       /\ getDocument (generatedId Scenario.applesFile)
                      (snd (uploadDocument Scenario.applesFile initial))
          = Some doc
       /\ id doc = generatedId Scenario.applesFile
       /\ filename doc = name Scenario.applesFile
       /\ fileType doc = txt
       /\ extractedText doc = extracted Scenario.applesFile
       /\ keywords doc = extractKeywords (extracted Scenario.applesFile)
       /\ title (metadata doc) = Some "apples"
       /\ forall other, other <> generatedId Scenario.applesFile ->
            getDocument other
                        (snd (uploadDocument Scenario.applesFile initial))
            = getDocument other initial.
Proof.
  split; [reflexivity|]. split; [reflexivity|].
  apply (upload_then_getDocument "apples" "txt" txt Scenario.applesFile
           initial); reflexivity.
Defined.

End Uploads.

(** * The store *)

Module Store.

Import JsString Notions Tokens Uploads DocumentService Spec.
Local Open Scope string_scope.
Local Open Scope list_scope.

Lemma Subsequence_NoDup (A : Type) (l1 l2 : list A) :
  Subsequence l1 l2 -> NoDup l2 -> NoDup l1.
Proof.
  induction 1 as [|x l1 l2 H IH|x l1 l2 H IH]; intros Hnd.
  - constructor.
  - inversion Hnd; subst. auto.
  - inversion Hnd as [|? ? Hx Hl]; subst. constructor; [|auto].
    intros Hin. apply Hx. eapply ListFacts.Subsequence_In; eauto.
Qed.

Lemma bump_keys_NoDup (o : JsObj.t Frequency) (w : string) :
  NoDup (JsObj.keys o) -> NoDup (JsObj.keys (bump o w)).
Proof.
  intros H. unfold bump.
  destruct (JsObj.get o w) as [[n|]|];
    try (now apply ObjFacts.NoDup_keys_set).
  destruct (String.eqb w "__proto__"); [assumption|].
  destruct (mem w Embedding.prototypeNames);
    now apply ObjFacts.NoDup_keys_set.
Qed.

Lemma bump_keys_In (o : JsObj.t Frequency) (w k : string) :
  In k (JsObj.keys (bump o w)) -> k = w \/ In k (JsObj.keys o).
Proof.
  unfold bump.
  destruct (JsObj.get o w) as [[n|]|];
    try (now intros H; apply ObjFacts.In_keys_set in H).
  destruct (String.eqb w "__proto__"); [auto|].
  destruct (mem w Embedding.prototypeNames);
    intros H; now apply ObjFacts.In_keys_set in H.
Qed.

Lemma fold_bump_keys (ws : list string) (o : JsObj.t Frequency) :
  NoDup (JsObj.keys o) ->
  NoDup (JsObj.keys (fold_left bump ws o))
  /\ forall k, In k (JsObj.keys (fold_left bump ws o)) ->
               In k ws \/ In k (JsObj.keys o).
Proof.
  revert o. induction ws as [|w ws IH]; intros o Hnd; simpl.
  - auto.
  - destruct (IH (bump o w) (bump_keys_NoDup o w Hnd)) as [H1 H2].
    split; [exact H1|]. intros k Hk.
    destruct (H2 k Hk) as [H|H]; [auto|].
    destruct (bump_keys_In o w k H); auto.
Qed.

Lemma extractKeywords_keys (text : string) :
  exists entries,
    extractKeywords text = map fst (firstn 8 entries)
    /\ Permutation (fold_left bump (keywordWords text)
                      (@JsObj.empty Frequency)) entries.
Proof.
  eexists. split; [reflexivity|].
  apply ListFacts.sort_Permutation.
Qed.

Lemma keyword_counted (text k : string) :
  In k (extractKeywords text) -> In k (keywordWords text).
Proof.
  destruct (extractKeywords_keys text) as [entries [-> Hp]].
  destruct (fold_bump_keys (keywordWords text) (@JsObj.empty Frequency))
    as [_ Hin]; [constructor|].
  intros Hk.
  eapply ListFacts.Subsequence_In in Hk;
    [|apply ListFacts.Subsequence_map, ListFacts.Subsequence_firstn].
  eapply Permutation_in in Hk;
    [|symmetry; exact (Permutation_map fst Hp)].
  destruct (Hin k Hk) as [Hw|[]]. exact Hw.
Qed.

Lemma keywordWords_shape (text k : string) :
  In k (keywordWords text) ->
  (3 < String.length k)%nat
  /\ isStopWord k = false
  /\ Forall (fun c => tokenChar c = true) (chars k).
Proof.
  unfold keywordWords. intros Hw.
  apply filter_In in Hw. destruct Hw as [Hw Hs].
  apply filter_In in Hw. destruct Hw as [Hw Hl].
  apply Nat.ltb_lt in Hl. apply negb_true_iff in Hs.
  repeat split; try assumption.
  apply Forall_forall. intros c Hc.
  destruct (split_runs_chars _ _ _ _ Hw Hc) as [Hsrc Hsp].
  eapply chars_replace_lower; eassumption.
Qed.

(** X12: The keywords of a text: at most 8, all distinct, each one of the
    counted words of the text, so longer than 3 characters, no stop word,
    and made of lower-case letters, digits and underscores only. *)
Theorem extractKeywords_shape (text : string) :
  (length (extractKeywords text) <= 8)%nat
  /\ NoDup (extractKeywords text)
  /\ Forall (fun k =>
               In k (keywordWords text)
               /\ (3 < String.length k)%nat
               /\ isStopWord k = false
               /\ Forall (fun c => tokenChar c = true) (chars k))
            (extractKeywords text).
Proof.
  split; [|split].
  - destruct (extractKeywords_keys text) as [entries [-> _]].
    rewrite length_map. apply firstn_le_length.
  - destruct (extractKeywords_keys text) as [entries [-> Hp]].
    destruct (fold_bump_keys (keywordWords text) (@JsObj.empty Frequency))
      as [Hnd _]; [constructor|].
    eapply Subsequence_NoDup;
      [apply ListFacts.Subsequence_map, ListFacts.Subsequence_firstn|].
    eapply Permutation_NoDup; [exact (Permutation_map fst Hp)|exact Hnd].
  - apply Forall_forall. intros k Hk.
    apply keyword_counted in Hk. split; [exact Hk|].
    exact (keywordWords_shape text k Hk).
Qed.

Lemma initial_wellFormed : wellFormed initial.
Proof.
  unfold wellFormed, storedIds, indexedIds. simpl.
  repeat split; try constructor; contradiction.
Qed.

Lemma getEmbedding_counter (text : string) (documentId : option string)
  (s : Embedding.Service) :
  Embedding.totalDocuments s = JsMap.size (Embedding.documents s) ->
  NoDup (JsMap.keys (Embedding.documents s)) ->
  let s' := snd (Embedding.getEmbedding text documentId s) in
  Embedding.totalDocuments s' = JsMap.size (Embedding.documents s')
  /\ NoDup (JsMap.keys (Embedding.documents s')).
Proof.
  intros Hc Hnd. unfold Embedding.getEmbedding.
  destruct (Embedding.expandSemanticTerms _) as [[|w ws]|]; simpl; auto.
  unfold Embedding.register.
  destruct (Embedding.truthy documentId); simpl; auto.
  split; [reflexivity|]. now apply MapFacts.stored_keys_set_NoDup.
Qed.

Lemma step_wellFormed (st : State) (op : Operation) :
  wellFormed st -> wellFormed (step st op).
Proof.
  intros (Hnd & Hdocs & Hc & Hni).
  destruct op as [file|key|query]; simpl.
  - destruct (getFileExtension (name file)) as [type|] eqn:Hext.
    2:{ rewrite SearchFacts.upload_unsupported by assumption.
        exact (conj Hnd (conj Hdocs (conj Hc Hni))). }
    unfold wellFormed, storedIds, indexedIds.
    rewrite (SearchFacts.upload_documents _ st Hext).
    rewrite (SearchFacts.upload_embeddings _ st Hext).
    destruct (StoreFacts.updateVocabulary_frame
                (snd (Embedding.getEmbedding (extracted file)
                        (Some (generatedId file)) (embeddings st))))
      as [-> ->].
    destruct (getEmbedding_counter (extracted file)
                (Some (generatedId file)) (embeddings st) Hc Hni)
      as [Hc' Hni'].
    split; [now apply MapFacts.stored_keys_set_NoDup|].
    split; [|split; assumption].
    intros k d Hin. apply map_In_set in Hin.
    destruct Hin as [[-> ->]|Hin]; [|now apply Hdocs].
    simpl. auto.
  - unfold wellFormed, storedIds, indexedIds. simpl.
    split; [now apply MapFacts.stored_keys_delete_NoDup|].
    split; [|split; assumption].
    intros k d Hin. apply map_In_delete in Hin. now apply Hdocs.
  - unfold wellFormed, storedIds, indexedIds.
    destruct (StoreFacts.search_service_frame query st) as [-> [-> _]].
    rewrite SearchFacts.search_documents.
    exact (conj Hnd (conj Hdocs (conj Hc Hni))).
Qed.

Lemma reachable_wellFormed (ops : list Operation) : wellFormed (run ops).
Proof.
  unfold run. generalize initial_wellFormed. generalize initial.
  induction ops as [|op ops IH]; intros st H; simpl; [assumption|].
  apply IH. now apply step_wellFormed.
Qed.

Lemma stored_lookup (st : State) (doc : SimpleDocument) :
  wellFormed st -> In doc (getAllDocuments st) ->
  getDocument (id doc) st = Some doc
  /\ keywords doc = extractKeywords (extractedText doc)
  /\ embedding doc = embeddingOf (extractedText doc).
Proof.
  intros (Hnd & Hdocs & _) Hin.
  unfold getAllDocuments, JsMap.values in Hin.
  apply in_map_iff in Hin. destruct Hin as [[k d] [Hd Hin]].
  simpl in Hd. subst d.
  destruct (Hdocs k doc Hin) as (Hid & _ & Hk & He).
  split; [|now split].
  unfold getDocument. rewrite Hid.
  unfold storedIds in Hnd. clear Hdocs Hid Hk He.
  induction (documents st) as [|[k0 d0] m IH]; [contradiction|].
  simpl in *. inversion Hnd as [|? ? Hk0 Hnd']; subst.
  destruct Hin as [E|Hin].
  - injection E as -> ->. now rewrite String.eqb_refl.
  - destruct (String.eqb_spec k k0) as [->|Hne]; [|now apply IH].
    exfalso. apply Hk0. unfold JsMap.keys.
    change k0 with (fst (k0, doc)). now apply in_map.
Qed.

Lemma stored_ids (st : State) :
  wellFormed st -> map id (getAllDocuments st) = storedIds st.
Proof.
  intros (_ & Hdocs & _).
  unfold getAllDocuments, storedIds, JsMap.values, JsMap.keys.
  rewrite map_map. apply map_ext_in. intros [k d] Hin.
  simpl. now destruct (Hdocs k d Hin).
Qed.

(** X13: The invariant of the two services.  After every sequence of uploads,
    deletes and searches: the stored documents have distinct ids;
    [getDocument] finds each of them under its own id; each has the file
    type of its name, the keywords of its text and the vector of its text
    (none when the expansion of the text throws); and the counter of the
    embedding service is the number of vectors it has registered, under
    distinct ids. *)
Theorem store_invariant (ops : list Operation) :
  let st := run ops in
  NoDup (map id (getAllDocuments st))
  /\ Forall (fun doc =>
               getDocument (id doc) st = Some doc
               /\ getFileExtension (filename doc) = Some (fileType doc)
               /\ keywords doc = extractKeywords (extractedText doc)
               /\ embedding doc = embeddingOf (extractedText doc))
            (getAllDocuments st)
  /\ Embedding.totalDocuments (embeddings st) = length (indexedIds st)
  /\ NoDup (indexedIds st).
Proof.
  cbv zeta. pose proof (reachable_wellFormed ops) as Hwf.
  set (st := run ops) in *.
  split; [rewrite stored_ids by assumption; apply Hwf|].
  split.
  - apply Forall_forall. intros doc Hdoc.
    destruct (stored_lookup st doc Hwf Hdoc) as (Hget & Hk & He).
    split; [exact Hget|]. split; [|now split].
    destruct Hwf as (_ & Hdocs & _).
    unfold getDocument in Hget. apply Uploads.map_get_In in Hget.
    now destruct (Hdocs _ _ Hget) as (_ & Hf & _).
  - destruct Hwf as (_ & _ & Hc & Hni). split; [|exact Hni].
    rewrite Hc. unfold indexedIds, JsMap.size, JsMap.keys.
    now rewrite length_map.
Qed.

(** X14: [deleteDocument] after any sequence of operations: it answers whether
    the id was stored; afterwards the id is not found, every other id is
    looked up as before and the embedding service is as it was; the store
    loses one document when the id was stored and is unchanged when it
    was not. *)
Theorem deleteDocument_spec (ops : list Operation) (key : string) :
  let st := run ops in
  let st' := snd (deleteDocument key st) in
  (fst (deleteDocument key st) = true <-> getDocument key st <> None)
  /\ getDocument key st' = None
  /\ (forall other, other <> key ->
        getDocument other st' = getDocument other st)
  /\ embeddings st' = embeddings st
  /\ (getDocument key st <> None ->
      S (length (getAllDocuments st')) = length (getAllDocuments st))
  /\ (getDocument key st = None -> st' = st).
Proof.
  cbv zeta. destruct (reachable_wellFormed ops) as (Hnd & _).
  set (st := run ops) in *. unfold storedIds in Hnd.
  unfold deleteDocument, getDocument, getAllDocuments. simpl.
  split.
  { unfold JsMap.has. destruct (JsMap.get (documents st) key);
      split; congruence. }
  split; [rewrite map_get_delete, String.eqb_refl by assumption;
          reflexivity|].
  split.
  { intros other Hne. rewrite map_get_delete by assumption.
    destruct (String.eqb_spec other key); [congruence|reflexivity]. }
  split; [reflexivity|]. split.
  - intros Hs.
    assert (Hin : In key (JsMap.keys (documents st))).
    { destruct (in_dec string_dec key (JsMap.keys (documents st)));
        [assumption|].
      exfalso. apply Hs. now apply map_get_keys. }
    pose proof (map_size_delete _ _ _ Hin) as Hsz.
    unfold JsMap.size, JsMap.values in *. now rewrite !length_map.
  - intros Hn. apply map_get_keys in Hn.
    rewrite map_delete_missing by assumption. now destruct st.
Qed.

End Store.

(** * The evidence for one document *)

Module Evidence.

Import JsString Notions DocumentService Spec.
Local Open Scope string_scope.
Local Open Scope list_scope.
Local Open Scope R_scope.

Lemma add_sentences (A : Type) (l : list A) (s : R) :
  fold_left (fun acc _ => acc + 0.2) l s = s + 0.2 * INR (length l).
Proof.
  revert s. induction l as [|x l IH]; intros s.
  - simpl. lra.
  - cbn [fold_left length]. rewrite IH, S_INR. lra.
Qed.

Lemma INR_length_pos (A : Type) (l : list A) :
  l <> [] -> 1 <= INR (length l).
Proof.
  destruct l as [|x l]; [congruence|]. intros _.
  simpl length. rewrite S_INR. pose proof (pos_INR (length l)). lra.
Qed.

Lemma keywordScore_cases (queryLower : string) (doc : SimpleDocument) :
  (keywordScoreOf queryLower doc = 0
   /\ includes (toLowerCase (filename doc)) queryLower = false
   /\ keywordMatches queryLower doc = []
   /\ matchingSentences queryLower doc = [])
  \/ (0.15 <= keywordScoreOf queryLower doc
      /\ (includes (toLowerCase (filename doc)) queryLower = true
          \/ keywordMatches queryLower doc <> []
          \/ matchingSentences queryLower doc <> [])).
Proof.
  unfold keywordScoreOf. rewrite add_sentences.
  pose proof (pos_INR (length (keywordMatches queryLower doc))) as Hk.
  pose proof (pos_INR (length (matchingSentences queryLower doc))) as Hm.
  destruct (includes (toLowerCase (filename doc)) queryLower) eqn:Ef.
  { right. split; [lra|auto]. }
  destruct (keywordMatches queryLower doc) as [|k ks] eqn:Ek.
  2:{ right. split; [|right; left; discriminate].
      pose proof (@INR_length_pos _ (k :: ks) ltac:(discriminate)). lra. }
  destruct (matchingSentences queryLower doc) as [|x xs] eqn:Em.
  2:{ right. split; [|right; right; discriminate].
      pose proof (@INR_length_pos _ (x :: xs) ltac:(discriminate)).
      simpl length at 1. simpl INR at 1. lra. }
  left. simpl. repeat split; lra.
Qed.

Lemma semanticScore_range (queryEmbedding : option (list R))
  (doc : SimpleDocument) :
  0 <= semanticScoreOf queryEmbedding doc <= 1.
Proof.
  unfold semanticScoreOf.
  destruct queryEmbedding; [|lra].
  destruct (embedding doc); [apply VectorFacts.cosine_range|lra].
Qed.

Lemma resultFor_signal (queryEmbedding : option (list R))
  (queryLower : string) (doc : SimpleDocument) :
  resultFor queryEmbedding queryLower doc <> None
  <-> hasSignal queryEmbedding queryLower doc.
Proof.
  unfold hasSignal.
  pose proof (semanticScore_range queryEmbedding doc) as Hsem.
  destruct (keywordScore_cases queryLower doc)
    as [(Hk0 & Hf & Hm & Hs)|[Hk Hev]];
    destruct (Rlt_dec minSemanticScore
                (semanticScoreOf queryEmbedding doc)) as [Hlt|Hle].
  - split; [auto|intros _].
    unfold resultFor.
    rewrite (SearchFacts.effective_above Hlt), Hk0. unfold classify.
    unfold minSemanticScore in Hlt.
    destruct (Rlt_dec 0 (semanticScoreOf queryEmbedding doc)); [|lra].
    destruct (Rlt_dec 0 0); [lra|]. simpl thresholdOf.
    destruct (Rlt_dec 0.15 (semanticScoreOf queryEmbedding doc));
      [discriminate|lra].
  - rewrite SearchFacts.resultFor_none by lra.
    split; [congruence|].
    intros [H|[H|[H|H]]]; congruence.
  - rewrite SearchFacts.resultFor_hybrid by lra.
    split; [auto|discriminate].
  - rewrite SearchFacts.resultFor_keyword by lra.
    split; [tauto|discriminate].
Qed.

Lemma resultFor_cases (queryEmbedding : option (list R))
  (queryLower : string) (doc : SimpleDocument) (r : SearchResult) :
  resultFor queryEmbedding queryLower doc = Some r ->
  let sem := semanticScoreOf queryEmbedding doc in
  let kw := keywordScoreOf queryLower doc in
  match searchType r with
  | semantic => score r = sem /\ (0.18 < score r <= 1) /\ kw = 0
  | keyword => score r = Rmin kw 1 /\ (0.15 <= score r <= 1)
               /\ (sem <= 0.18)
  | hybrid => score r = (sem * 0.7 + kw * 0.3) /\ (0.18 < sem)
              /\ (0.15 <= kw) /\ (0.171 < score r)
  end.
Proof.
  intros Hr. cbv zeta.
  apply SearchFacts.resultFor_inv in Hr.
  destruct Hr as (_ & _ & Hth & Hc).
  pose proof (semanticScore_range queryEmbedding doc) as Hsem.
  revert Hc. unfold classify, effectiveSemanticScoreOf, minSemanticScore.
  set (sem := semanticScoreOf queryEmbedding doc) in *.
  set (kw := keywordScoreOf queryLower doc).
  assert (Hkw : kw = 0 \/ (0.15 <= kw)).
  { destruct (keywordScore_cases queryLower doc)
      as [(H & _)|[H _]]; [now left|now right]. }
  replace (Rmin kw 1.0) with (Rmin kw 1) by (f_equal; lra).
  pose proof (Rmin_r kw 1) as Hmin1.
  pose proof (Rmin_l kw 1) as Hmin2.
  destruct (Rlt_dec 0.18 sem);
    destruct (Rlt_dec 0 _); try destruct (Rlt_dec 0 kw);
    intros E; injection E as Es Et; rewrite Et in *; simpl in Hth;
    rewrite Es in *; try lra.
  split; [reflexivity|]. split; [|lra]. split; [|lra].
  apply Rmin_glb; lra.
Qed.

(** X15: How each returned score comes about.  A semantic result has no
    keyword score and the semantic score, above 0.18, as its score; a
    keyword result has a semantic score of at most 0.18 and the keyword
    score, at least 0.15 and capped at 1, as its score; a hybrid result
    has both and the weighted sum as its score, above 0.171. *)
Theorem result_by_type (query : string) (st : State) (r : SearchResult) :
  In r (fst (searchDocuments query st)) ->
  let sem := semanticScoreOf (embeddingOf query) (document r) in
  let kw := keywordScoreOf (toLowerCase query) (document r) in
  match searchType r with
  | semantic => score r = sem /\ 0.18 < score r <= 1 /\ kw = 0
  | keyword => score r = Rmin kw 1 /\ 0.15 <= score r <= 1 /\ sem <= 0.18
  | hybrid => score r = sem * 0.7 + kw * 0.3 /\ 0.18 < sem /\ 0.15 <= kw
              /\ 0.171 < score r
  end.
Proof.
  intros Hin.
  apply SearchFacts.search_In, SearchFacts.collect_In in Hin.
  destruct Hin as [doc [_ Hr]].
  assert (Hd : document r = doc)
    by (now apply SearchFacts.resultFor_inv in Hr).
  rewrite Hd. exact (resultFor_cases _ _ _ _ Hr).
Qed.

Lemma result_by_type_witness :
  In Scenario.applesResult
     (fst (searchDocuments "apples" Scenario.applesStore))
  /\ score Scenario.applesResult
     = semanticScoreOf (embeddingOf "apples")
                       (document Scenario.applesResult) * 0.7
       + keywordScoreOf (toLowerCase "apples")
                        (document Scenario.applesResult) * 0.3
  /\ 0.18 < semanticScoreOf (embeddingOf "apples")
                            (document Scenario.applesResult)
  /\ 0.15 <= keywordScoreOf (toLowerCase "apples")
                            (document Scenario.applesResult)
  /\ 0.171 < score Scenario.applesResult.
Proof.
  assert (H : In Scenario.applesResult
                 (fst (searchDocuments "apples" Scenario.applesStore))).
  { rewrite ScenarioFacts.apples_search. now left. }
  split; [exact H|].
  exact (result_by_type "apples" Scenario.applesStore
           Scenario.applesResult H).
Defined.

End Evidence.

(** * The ranking *)

Module Ranking.

Import JsString Notions Tokens Store Evidence DocumentService Spec.
Local Open Scope string_scope.
Local Open Scope list_scope.

Lemma collect_complete (queryEmbedding : option (list R))
  (queryLower : string) (docs : list SimpleDocument) (doc : SimpleDocument)
  (r : SearchResult) :
  In doc docs -> resultFor queryEmbedding queryLower doc = Some r ->
  In r (collect queryEmbedding queryLower docs).
Proof.
  induction docs as [|d docs IH]; simpl; [contradiction|].
  intros [->|Hin] Hr.
  - rewrite Hr. now left.
  - destruct (resultFor queryEmbedding queryLower d); [right|]; auto.
Qed.

Lemma collect_length (queryEmbedding : option (list R))
  (queryLower : string) (docs : list SimpleDocument) :
  (length (collect queryEmbedding queryLower docs) <= length docs)%nat.
Proof.
  induction docs as [|d docs IH]; simpl; [lia|].
  destruct (resultFor queryEmbedding queryLower d); simpl; lia.
Qed.

Lemma trim_empty (s : string) :
  is_empty (trim s) = forallb is_space (chars s).
Proof.
  unfold trim, chars.
  induction s as [|c s IH]; [reflexivity|].
  cbn [trimStart list_ascii_of_string forallb].
  destruct (is_space c) eqn:Ec; [exact IH|].
  cbn [trimEnd]. rewrite Ec. reflexivity.
Qed.

Lemma trim_empty_lower (s : string) :
  is_empty (trim (toLowerCase s)) = is_empty (trim s).
Proof.
  rewrite !trim_empty, chars_lower.
  induction (chars s) as [|c l IH]; simpl; [reflexivity|].
  now rewrite lower_space, IH.
Qed.

Lemma termsOf_lower (s : string) : termsOf (toLowerCase s) = termsOf s.
Proof.
  unfold termsOf, Embedding.preprocessText. now rewrite lower_idem.
Qed.

Lemma prefix_refl (s : string) : String.prefix s s = true.
Proof.
  induction s as [|c s IH]; simpl; [reflexivity|].
  destruct (ascii_dec c c); [assumption|congruence].
Qed.

Lemma includes_refl (s : string) : includes s s = true.
Proof. destruct s; simpl; [reflexivity|]. 
  destruct (ascii_dec a a); [|congruence]. now rewrite prefix_refl.
Qed.

Lemma sorted_candidates (query : string) (st : State) :
  let sorted := JsArray.sort ranking (candidates query st) in
  Permutation (candidates query st) sorted
  /\ StronglySorted (descending score) sorted.
Proof.
  split.
  - apply ListFacts.sort_Permutation.
  - apply (ListFacts.sort_StronglySorted score ranking).
    apply SearchFacts.ranking_spec.
Qed.

Lemma StronglySorted_app_inv (A : Type) (R : A -> A -> Prop)
  (l1 l2 : list A) (x y : A) :
  StronglySorted R (l1 ++ l2) -> In x l1 -> In y l2 -> R x y.
Proof.
  induction l1 as [|a l1 IH]; simpl; intros Hs Hx Hy; [contradiction|].
  inversion Hs as [|? ? Hs' Hall]; subst.
  destruct Hx as [->|Hx].
  - rewrite Forall_forall in Hall. apply Hall, in_or_app. now right.
  - now apply IH.
Qed.

(** X16: The cut to ten results keeps the best ones: [searchDocuments]
    returns ten results or all candidates, whichever is fewer, and a
    document that passed the thresholds but is not returned scores no
    higher than any returned result. *)
Theorem search_top_ten (query : string) (st : State) (doc : SimpleDocument)
  (c : SearchResult) :
  is_empty (trim query) = false ->
  In doc (getAllDocuments st) ->
  resultFor (embeddingOf query) (toLowerCase query) doc = Some c ->
  let results := fst (searchDocuments query st) in
  length results = Nat.min 10 (length (candidates query st))
  /\ (In c results
      \/ (length results = 10%nat
          /\ forall r, In r results -> (score c <= score r)%R)).
Proof.
  intros Hq Hdoc Hc. cbv zeta.
  rewrite SearchFacts.search_results, Hq.
  destruct (sorted_candidates query st) as [Hp Hs]. cbv zeta in Hp, Hs.
  set (sorted := JsArray.sort ranking (candidates query st)) in *.
  split.
  { rewrite length_firstn. now rewrite (Permutation_length Hp). }
  assert (Hin : In c sorted).
  { eapply Permutation_in; [exact Hp|].
    unfold candidates. eapply collect_complete; eauto. }
  rewrite <- (firstn_skipn 10 sorted) in Hin, Hs.
  apply in_app_or in Hin. destruct Hin as [Hin|Hin]; [now left|right].
  split.
  - rewrite length_firstn. apply Nat.min_l.
    destruct (le_lt_dec 10 (length sorted)) as [Hle|Hlt]; [assumption|].
    rewrite skipn_all2 in Hin by lia. contradiction.
  - intros r Hr.
    exact (StronglySorted_app_inv _ _ _ _ _ _ Hs Hr Hin).
Qed.

Lemma apples_resultFor :
  resultFor (embeddingOf "apples") (toLowerCase "apples")
            Scenario.applesDocument
  = Some Scenario.applesResult.
Proof.
  assert (H : In Scenario.applesResult
                 (fst (searchDocuments "apples" Scenario.applesStore))).
  { rewrite ScenarioFacts.apples_search. now left. }
  apply SearchFacts.search_In, SearchFacts.collect_In in H.
  destruct H as [doc [Hdoc Hr]].
  rewrite ScenarioFacts.applesStore_values in Hdoc.
  destruct Hdoc as [<-|[]]. exact Hr.
Qed.

Lemma apples_stored :
  In Scenario.applesDocument (getAllDocuments Scenario.applesStore).
Proof.
  unfold getAllDocuments. rewrite ScenarioFacts.applesStore_values.
  now left.
Qed.

Lemma search_top_ten_witness :
  is_empty (trim "apples") = false
  /\ In Scenario.applesDocument (getAllDocuments Scenario.applesStore)
  /\ resultFor (embeddingOf "apples") (toLowerCase "apples")
               Scenario.applesDocument
     = Some Scenario.applesResult
  /\ length (fst (searchDocuments "apples" Scenario.applesStore))
     = Nat.min 10 (length (candidates "apples" Scenario.applesStore))
  /\ (In Scenario.applesResult
         (fst (searchDocuments "apples" Scenario.applesStore))
      \/ (length (fst (searchDocuments "apples" Scenario.applesStore))
          = 10%nat
          /\ forall r,
               In r (fst (searchDocuments "apples" Scenario.applesStore)) ->
               (score Scenario.applesResult <= score r)%R)).
Proof.
  split; [reflexivity|]. split; [exact apples_stored|].
  split; [exact apples_resultFor|].
  exact (search_top_ten "apples" Scenario.applesStore
           Scenario.applesDocument Scenario.applesResult
           eq_refl apples_stored apples_resultFor).
Defined.

Lemma search_all (query : string) (st : State) :
  is_empty (trim query) = false ->
  (length (getAllDocuments st) <= 10)%nat ->
  Permutation (candidates query st) (fst (searchDocuments query st)).
Proof.
  intros Hq Hlen.
  rewrite SearchFacts.search_results, Hq.
  destruct (sorted_candidates query st) as [Hp _]. cbv zeta in Hp.
  rewrite firstn_all2; [assumption|].
  rewrite <- (Permutation_length Hp). unfold candidates.
  etransitivity; [apply collect_length|assumption].
Qed.

Lemma candidate_documents (query : string) (st : State)
  (doc : SimpleDocument) :
  In doc (map document (candidates query st))
  <-> In doc (getAllDocuments st)
      /\ hasSignal (embeddingOf query) (toLowerCase query) doc.
Proof.
  unfold candidates, getAllDocuments. rewrite in_map_iff. split.
  - intros [r [<- Hr]]. apply SearchFacts.collect_In in Hr.
    destruct Hr as [d [Hd Hr]].
    assert (Hdoc : document r = d)
      by (now apply SearchFacts.resultFor_inv in Hr).
    rewrite Hdoc.
    split; [assumption|]. apply resultFor_signal. congruence.
  - intros [Hd Hs]. apply resultFor_signal in Hs.
    destruct (resultFor (embeddingOf query) (toLowerCase query) doc)
      as [r|] eqn:Hr; [|congruence].
    exists r. split.
    + now apply SearchFacts.resultFor_inv in Hr.
    + eapply collect_complete; eauto.
Qed.

(** X17: The documents a search returns are stored documents that show
    evidence for the query; with at most ten stored documents, every
    stored document that shows evidence is returned. *)
Theorem search_finds_all (query : string) (st : State)
  (doc : SimpleDocument) :
  is_empty (trim query) = false ->
  (In doc (map document (fst (searchDocuments query st))) ->
   In doc (getAllDocuments st)
   /\ hasSignal (embeddingOf query) (toLowerCase query) doc)
  /\ ((length (getAllDocuments st) <= 10)%nat ->
      In doc (getAllDocuments st) ->
      hasSignal (embeddingOf query) (toLowerCase query) doc ->
      In doc (map document (fst (searchDocuments query st)))).
Proof.
  intros Hq. split.
  - intros Hin. apply candidate_documents.
    apply in_map_iff in Hin. destruct Hin as [r [<- Hr]].
    apply in_map. now apply SearchFacts.search_In.
  - intros Hlen Hdoc Hs.
    eapply Permutation_in;
      [apply Permutation_map, (search_all query st Hq Hlen)|].
    apply candidate_documents. now split.
Qed.

Lemma search_finds_all_witness :
  is_empty (trim "apples") = false
  /\ (In Scenario.applesDocument
         (map document (fst (searchDocuments "apples" Scenario.applesStore)))
      -> In Scenario.applesDocument (getAllDocuments Scenario.applesStore)
         /\ hasSignal (embeddingOf "apples") (toLowerCase "apples")
                      Scenario.applesDocument)
  /\ ((length (getAllDocuments Scenario.applesStore) <= 10)%nat ->
      In Scenario.applesDocument (getAllDocuments Scenario.applesStore) ->
      hasSignal (embeddingOf "apples") (toLowerCase "apples")
                Scenario.applesDocument ->
      In Scenario.applesDocument
         (map document
              (fst (searchDocuments "apples" Scenario.applesStore)))).
Proof.
  split; [reflexivity|].
  exact (search_finds_all "apples" Scenario.applesStore
           Scenario.applesDocument eq_refl).
Defined.

(** X18: After any sequence of operations, the results of a search name
    documents of the store, each under its own id and none twice. *)
Theorem results_stored_once (ops : list Operation) (query : string) :
  let st := run ops in
  let results := fst (searchDocuments query st) in
  NoDup (map (fun r => id (document r)) results)
  /\ forall r, In r results ->
       getDocument (id (document r)) st = Some (document r).
Proof.
  cbv zeta. pose proof (reachable_wellFormed ops) as Hwf.
  set (st := run ops) in *.
  assert (Hsub : Subsequence
                   (map document (candidates query st))
                   (getAllDocuments st))
    by apply SearchFacts.collect_documents.
  split.
  - rewrite SearchFacts.search_results.
    destruct (is_empty (trim query)); [constructor|].
    rewrite <- (map_map document id).
    eapply Subsequence_NoDup;
      [apply ListFacts.Subsequence_map, ListFacts.Subsequence_map,
             ListFacts.Subsequence_firstn|].
    eapply Permutation_NoDup;
      [apply Permutation_map, Permutation_map,
             (ListFacts.sort_Permutation ranking)|].
    eapply Subsequence_NoDup;
      [apply ListFacts.Subsequence_map, Hsub|].
    rewrite stored_ids by assumption. apply Hwf.
  - intros r Hr. apply SearchFacts.search_In in Hr.
    apply (stored_lookup st (document r) Hwf).
    eapply ListFacts.Subsequence_In; [exact Hsub|]. now apply in_map.
Qed.

End Ranking.

(** * Queries *)

Module Queries.

Import JsString Notions Tokens Store Evidence Ranking DocumentService Spec.
Local Open Scope string_scope.
Local Open Scope list_scope.

Lemma keyword_not_blank (text k : string) :
  In k (extractKeywords text) -> is_empty (trim k) = false.
Proof.
  intros Hk. apply keyword_counted in Hk.
  destruct (keywordWords_shape text k Hk) as (Hlen & _ & Hc).
  rewrite trim_empty.
  destruct k as [|c k]; [simpl in Hlen; lia|].
  unfold chars in *. simpl in *. inversion Hc as [|? ? Hc1 _]; subst.
  now rewrite (token_not_space c Hc1).
Qed.

(** X19: [searchDocuments] does not see the case of the query: two queries
    with the same lower-case form give the same results and leave the
    same state. *)
Theorem search_case_insensitive (query1 query2 : string) (st : State) :
  toLowerCase query1 = toLowerCase query2 ->
  searchDocuments query1 st = searchDocuments query2 st.
Proof.
  intros H. unfold searchDocuments.
  rewrite <- (trim_empty_lower query1), <- (trim_empty_lower query2), H.
  assert (He : Embedding.getEmbedding query1 None (embeddings st)
               = Embedding.getEmbedding query2 None (embeddings st)).
  { unfold Embedding.getEmbedding, Embedding.preprocessText.
    now rewrite H. }
  now rewrite He.
Qed.

Lemma search_case_insensitive_witness :
  toLowerCase "APPLES" = toLowerCase "apples"
  /\ searchDocuments "APPLES" Scenario.applesStore
     = searchDocuments "apples" Scenario.applesStore.
Proof.
  split; [reflexivity|].
  apply (search_case_insensitive "APPLES" "apples" Scenario.applesStore).
  reflexivity.
Defined.

(** X20: After any sequence of operations with at most ten documents left,
    the search for one of the keywords of a stored document returns
    that document. *)
Theorem keyword_retrieves_document (ops : list Operation)
  (doc : SimpleDocument) (k : string) :
  let st := run ops in
  (length (getAllDocuments st) <= 10)%nat ->
  In doc (getAllDocuments st) ->
  In k (keywords doc) ->
  In doc (map document (fst (searchDocuments k st))).
Proof.
  cbv zeta. intros Hlen Hdoc Hk.
  destruct (stored_lookup _ doc (reachable_wellFormed ops) Hdoc) as (_ & Hkw & _).
  assert (Hq : is_empty (trim k) = false).
  { rewrite Hkw in Hk. eapply keyword_not_blank; eauto. }
  eapply Permutation_in;
    [apply Permutation_map, (search_all k (run ops) Hq Hlen)|].
  apply candidate_documents.
  split; [assumption|]. right. right. left.
    unfold keywordMatches. intros Hnil.
    assert (Hin : In k (filter
                (fun keyword =>
                   includes (toLowerCase keyword) (toLowerCase k)
                   || includes (toLowerCase k) (toLowerCase keyword))
                (keywords doc))).
    { apply filter_In. split; [assumption|].
      now rewrite includes_refl. }
    rewrite Hnil in Hin. contradiction.
Qed.

Lemma apples_run_stored :
  In Scenario.applesDocument
     (getAllDocuments (run [Insert Scenario.applesFile])).
Proof. exact apples_stored. Qed.

Lemma apples_run_length :
  (length (getAllDocuments (run [Insert Scenario.applesFile])) <= 10)%nat.
Proof.
  change (run [Insert Scenario.applesFile]) with Scenario.applesStore.
  unfold getAllDocuments. rewrite ScenarioFacts.applesStore_values.
  simpl. lia.
Qed.

Lemma apples_keyword : In "apples" (keywords Scenario.applesDocument).
Proof.
  assert (H : keywords Scenario.applesDocument = ["apples"]) by reflexivity.
  rewrite H. now left.
Qed.

Lemma keyword_retrieves_document_witness :
  (length (getAllDocuments (run [Insert Scenario.applesFile])) <= 10)%nat
  /\ In Scenario.applesDocument
        (getAllDocuments (run [Insert Scenario.applesFile]))
  /\ In "apples" (keywords Scenario.applesDocument)
  /\ In Scenario.applesDocument
        (map document
           (fst (searchDocuments "apples"
                   (run [Insert Scenario.applesFile])))).
Proof.
  split; [exact apples_run_length|]. split; [exact apples_run_stored|].
  split; [exact apples_keyword|].
  exact (keyword_retrieves_document [Insert Scenario.applesFile]
           Scenario.applesDocument "apples"
           apples_run_length apples_run_stored apples_keyword).
Defined.

Lemma embeddingOf_None (text : string) :
  embeddingOf text = None <-> namesInherited text.
Proof.
  rewrite <- Expansion.expansion_None.
  unfold embeddingOf, termsOf.
  destruct (Embedding.expandSemanticTerms (Embedding.preprocessText text))
    as [[|w ws]|]; split; congruence.
Qed.

(** X21: A query or a stored text that names [constructor] or [__proto__]
    has no vector, so a result for it rests on the keyword score alone:
    its type is keyword and its score the keyword score capped at 1. *)
Theorem inherited_name_keyword_only (ops : list Operation) (query : string)
  (r : SearchResult) :
  In r (fst (searchDocuments query (run ops))) ->
  namesInherited query \/ namesInherited (extractedText (document r)) ->
  searchType r = keyword
  /\ score r = Rmin (keywordScoreOf (toLowerCase query) (document r)) 1.
Proof.
  intros Hin Hn.
  pose proof (reachable_wellFormed ops) as Hwf.
  apply SearchFacts.search_In in Hin.
  apply SearchFacts.collect_In in Hin. destruct Hin as [doc [Hdoc Hr]].
  assert (Hd : document r = doc)
    by (now apply SearchFacts.resultFor_inv in Hr).
  rewrite Hd in *.
  destruct (stored_lookup _ doc Hwf Hdoc) as (_ & _ & He).
  assert (Hsem : semanticScoreOf (embeddingOf query) doc = 0%R).
  { unfold semanticScoreOf. destruct Hn as [Hn|Hn].
    - apply embeddingOf_None in Hn. now rewrite Hn.
    - apply embeddingOf_None in Hn. rewrite He, Hn.
      now destruct (embeddingOf query). }
  pose proof (resultFor_cases _ _ _ _ Hr) as Hc. cbv zeta in Hc.
  rewrite Hsem in Hc.
  destruct (searchType r); [lra| |lra].
  split; [reflexivity|apply Hc].
Qed.

Lemma inherited_search :
  In inheritedResult
     (fst (searchDocuments "constructor apples"
             (run [Insert Scenario.applesFile]))).
Proof.
  change (run [Insert Scenario.applesFile]) with Scenario.applesStore.
  rewrite SearchFacts.search_results.
  change (is_empty (trim "constructor apples")) with false. cbv iota.
  unfold candidates. rewrite ScenarioFacts.applesStore_values.
  change (toLowerCase "constructor apples") with "constructor apples".
  cbn [collect].
  rewrite SearchFacts.resultFor_keyword.
  - now left.
  - change (embeddingOf "constructor apples") with (@None (list R)).
    unfold semanticScoreOf, minSemanticScore. lra.
  - assert (Hm : keywordMatches "constructor apples"
                                 (documentOf Scenario.applesFile txt)
                  = ["apples"]) by reflexivity.
    destruct (keywordScore_cases "constructor apples"
                (documentOf Scenario.applesFile txt))
      as [(_ & _ & Hk & _)|[Hk _]]; [|lra].
    rewrite Hm in Hk. discriminate Hk.
Qed.

Lemma inherited_query :
  namesInherited "constructor apples"
  \/ namesInherited (extractedText (document inheritedResult)).
Proof.
  left.
  assert (H : Embedding.preprocessText "constructor apples"
              = ["constructor"; "apples"]) by reflexivity.
  unfold namesInherited. rewrite H. left. now left.
Qed.

Lemma inherited_name_keyword_only_witness :
  In inheritedResult
     (fst (searchDocuments "constructor apples"
             (run [Insert Scenario.applesFile])))
  /\ (namesInherited "constructor apples"
      \/ namesInherited (extractedText (document inheritedResult)))
  /\ searchType inheritedResult = keyword
  /\ score inheritedResult
     = Rmin (keywordScoreOf (toLowerCase "constructor apples")
                            (document inheritedResult)) 1.
Proof.
  split; [exact inherited_search|]. split; [exact inherited_query|].
  exact (inherited_name_keyword_only [Insert Scenario.applesFile]
           "constructor apples" inheritedResult
           inherited_search inherited_query).
Defined.

(** X22: A query with the expanded terms of a stored text, the text itself
    for one, has semantic score 1 against its document, and the document
    passes the thresholds with a score above 0.7 and a type other than
    keyword. *)
Theorem same_terms_score_one (ops : list Operation) (query : string)
  (doc : SimpleDocument) (w : string) (ws : list string) :
  In doc (getAllDocuments (run ops)) ->
  termsOf query = Some (w :: ws) ->
  termsOf (extractedText doc) = Some (w :: ws) ->
  semanticScoreOf (embeddingOf query) doc = 1%R
  /\ exists r,
       resultFor (embeddingOf query) (toLowerCase query) doc = Some r
       /\ (0.7 < score r)%R /\ searchType r <> keyword.
Proof.
  intros Hdoc Hq Ht.
  destruct (stored_lookup _ doc (reachable_wellFormed ops) Hdoc) as (_ & _ & He).
  assert (Hsem : semanticScoreOf (embeddingOf query) doc = 1%R).
  { unfold semanticScoreOf. rewrite He. unfold embeddingOf.
    rewrite Hq, Ht. apply VectorFacts.cosine_self.
    apply EmbeddingFacts.vectorOf_nonZero. }
  split; [assumption|].
  destruct (resultFor (embeddingOf query) (toLowerCase query) doc)
    as [r|] eqn:Hr.
  - exists r. split; [reflexivity|].
    pose proof (resultFor_cases _ _ _ _ Hr) as Hc. cbv zeta in Hc.
    rewrite Hsem in Hc.
    destruct (searchType r); split; try discriminate; lra.
  - exfalso. revert Hr. apply resultFor_signal. left.
    rewrite Hsem. unfold minSemanticScore. lra.
Qed.

Lemma same_terms_score_one_witness :
  In Scenario.applesDocument
     (getAllDocuments (run [Insert Scenario.applesFile]))
  /\ termsOf "apples" = Some ["apples"; "fruit"; "food"]
  /\ termsOf (extractedText Scenario.applesDocument)
     = Some ["apples"; "fruit"; "food"]
  /\ semanticScoreOf (embeddingOf "apples") Scenario.applesDocument = 1%R
  /\ exists r,
       resultFor (embeddingOf "apples") (toLowerCase "apples")
                 Scenario.applesDocument = Some r
       /\ (0.7 < score r)%R /\ searchType r <> keyword.
Proof.
  split; [exact apples_run_stored|]. split; [reflexivity|].
  split; [reflexivity|].
  exact (same_terms_score_one [Insert Scenario.applesFile] "apples"
           Scenario.applesDocument "apples" ["fruit"; "food"]
           apples_run_stored eq_refl eq_refl).
Defined.

End Queries.

(** * Lines of a CSV file *)

Module Csv.

Import JsString Notions DocumentService.
Local Open Scope string_scope.
Local Open Scope list_scope.

Lemma append_assoc (a b c : string) :
  ((a ++ b) ++ c = a ++ (b ++ c))%string.
Proof. induction a as [|x a IH]; simpl; [reflexivity|now rewrite IH]. Qed.

Lemma append_empty (a : string) : (a ++ "")%string = a.
Proof. induction a as [|x a IH]; simpl; [reflexivity|now rewrite IH]. Qed.

Lemma quote_not_comma (c : ascii) : is_quote c = true -> is_comma c = false.
Proof.
  unfold is_quote, is_comma. intros H. apply N.eqb_eq in H. now rewrite H.
Qed.

Lemma skip_plain (field rest current : string) :
  quoteFree field -> existsb is_comma (chars field) = false ->
  parseCSVLineFrom (field ++ rest)%string current false
  = parseCSVLineFrom rest (current ++ field)%string false.
Proof.
  unfold quoteFree, chars. revert current.
  induction field as [|c field IH]; intros current Hq Hc; simpl.
  - now rewrite append_empty.
  - simpl in Hq, Hc. inversion Hq as [|? ? Hq1 Hq2]; subst.
    apply orb_false_iff in Hc. destruct Hc as [Hc1 Hc2].
    rewrite Hq1, Hc1. simpl. rewrite IH by assumption.
    now rewrite append_assoc.
Qed.

Lemma skip_quoted (field rest current : string) :
  quoteFree field ->
  parseCSVLineFrom (field ++ rest)%string current true
  = parseCSVLineFrom rest (current ++ field)%string true.
Proof.
  unfold quoteFree, chars. revert current.
  induction field as [|c field IH]; intros current Hq; simpl.
  - now rewrite append_empty.
  - simpl in Hq. inversion Hq as [|? ? Hq1 Hq2]; subst.
    rewrite Hq1, andb_false_r. rewrite IH by assumption.
    now rewrite append_assoc.
Qed.

Lemma skip_field (field rest : string) :
  quoteFree field ->
  parseCSVLineFrom (csvField field ++ rest)%string "" false
  = parseCSVLineFrom rest field false.
Proof.
  intros Hq. unfold csvField.
  destruct (existsb is_comma (chars field)) eqn:Ec.
  - change (parseCSVLineFrom
              ((field ++ String doubleQuote EmptyString) ++ rest)%string
              "" true
            = parseCSVLineFrom rest field false).
    rewrite append_assoc, skip_quoted by assumption. reflexivity.
  - now rewrite skip_plain.
Qed.

(** X23: [parseCSVLine] reads back the fields of a line: for fields without
    double quotes and without white space at their ends, written with
    commas between them and with quotes around those that hold a comma,
    it returns the fields. *)
Theorem parseCSVLine_round_trip (fields : list string) :
  fields <> [] ->
  Forall (fun field => quoteFree field /\ trimmed field) fields ->
  parseCSVLine (csvLine fields) = fields.
Proof.
  unfold parseCSVLine, csvLine.
  induction fields as [|f fields IH]; intros Hne Hall; [congruence|].
  inversion Hall as [|? ? [Hq Ht] Hrest]; subst.
  destruct fields as [|g fields].
  - simpl. rewrite <- (append_empty (csvField f)).
    rewrite skip_field by assumption. simpl. now rewrite Ht.
  - change (String.concat "," (map csvField (f :: g :: fields)))
      with (csvField f ++ String "," (String.concat ","
                                        (map csvField (g :: fields))))%string.
    rewrite skip_field by assumption.
    cbn [parseCSVLineFrom].
    change (is_quote ",") with false. change (is_comma ",") with true.
    cbn [andb negb]. rewrite Ht. f_equal.
    apply IH; [discriminate|assumption].
Qed.

Lemma parseCSVLine_round_trip_witness :
  ["a, b"; "c"] <> []
  /\ Forall (fun field => quoteFree field /\ trimmed field) ["a, b"; "c"]
  /\ parseCSVLine (csvLine ["a, b"; "c"]) = ["a, b"; "c"].
Proof.
  assert (H1 : ["a, b"; "c"] <> []) by discriminate.
  assert (H2 : Forall (fun field => quoteFree field /\ trimmed field)
                      ["a, b"; "c"]).
  { repeat constructor. }
  split; [exact H1|]. split; [exact H2|].
  exact (parseCSVLine_round_trip ["a, b"; "c"] H1 H2).
Defined.

Lemma trimStart_chars (s : string) (c : ascii) :
  In c (chars (trimStart s)) -> In c (chars s).
Proof.
  unfold chars. induction s as [|a s IH]; simpl; [tauto|].
  destruct (is_space a); simpl; auto.
Qed.

Lemma trimEnd_chars (s : string) (c : ascii) :
  In c (chars (trimEnd s)) -> In c (chars s).
Proof.
  unfold chars. induction s as [|a s IH]; simpl; [tauto|].
  destruct (is_space a && is_empty (trimEnd s)); simpl; [tauto|].
  intros [H|H]; auto.
Qed.

Lemma trimEnd_idem (s : string) : trimEnd (trimEnd s) = trimEnd s.
Proof.
  induction s as [|a s IH]; simpl; [reflexivity|].
  destruct (is_space a && is_empty (trimEnd s)) eqn:E; [reflexivity|].
  simpl. rewrite IH, E. reflexivity.
Qed.

Lemma trimStart_trimEnd (s : string) :
  trimStart s = s -> trimStart (trimEnd s) = trimEnd s.
Proof.
  destruct s as [|a s]; [reflexivity|].
  simpl. destruct (is_space a) eqn:Ea.
  - intros H. exfalso.
    assert (Hlen : (String.length (trimStart s) <= String.length s)%nat).
    { clear. induction s as [|b s IH]; simpl; [lia|].
      destruct (is_space b); simpl; lia. }
    rewrite H in Hlen. simpl in Hlen. lia.
  - intros _. simpl. now rewrite Ea.
Qed.

Lemma trimStart_idem (s : string) : trimStart (trimStart s) = trimStart s.
Proof.
  induction s as [|a s IH]; simpl; [reflexivity|].
  destruct (is_space a) eqn:Ea; [assumption|].
  simpl. now rewrite Ea.
Qed.

Lemma trim_idem (s : string) : trim (trim s) = trim s.
Proof.
  unfold trim.
  rewrite trimStart_trimEnd by apply trimStart_idem.
  apply trimEnd_idem.
Qed.

Lemma trim_chars (s : string) (c : ascii) :
  In c (chars (trim s)) -> In c (chars s).
Proof. intros H. now apply trimStart_chars, trimEnd_chars. Qed.

Lemma chars_app (a b : string) :
  chars (a ++ b)%string = chars a ++ chars b.
Proof.
  unfold chars. induction a as [|x a IH]; simpl; [reflexivity|].
  now rewrite IH.
Qed.

Lemma parseCSVLineFrom_fields (line current field : string) (q : bool) :
  quoteFree current ->
  In field (parseCSVLineFrom line current q) ->
  trimmed field /\ quoteFree field.
Proof.
  revert current q.
  induction line as [|c line IH]; intros current q Hq; simpl.
  - intros [<-|[]]. split; [apply trim_idem|].
    unfold quoteFree in *. rewrite Forall_forall in *.
    intros x Hx. now apply Hq, trim_chars.
  - destruct (is_quote c) eqn:Eq; [now apply IH|].
    destruct (is_comma c && negb q).
    + intros [<-|Hin].
      * split; [apply trim_idem|].
        unfold quoteFree in *. rewrite Forall_forall in *.
        intros x Hx. now apply Hq, trim_chars.
      * eapply IH; [|exact Hin]. constructor.
    + apply IH. unfold quoteFree in *. rewrite chars_app.
      apply Forall_app. split; [assumption|].
      repeat constructor. assumption.
Qed.

(** X24: Whatever the line, [parseCSVLine] returns at least one field, and
    every field it returns is free of double quotes and of white space
    at its ends. *)
Theorem parseCSVLine_fields (line : string) :
  parseCSVLine line <> []
  /\ Forall (fun field => trimmed field /\ quoteFree field)
            (parseCSVLine line).
Proof.
  split.
  - unfold parseCSVLine. generalize EmptyString, false.
    induction line as [|c line IH]; intros current q; simpl;
      [discriminate|].
    destruct (is_quote c); [apply IH|].
    destruct (is_comma c && negb q); [discriminate|apply IH].
  - apply Forall_forall. intros field Hin.
    eapply parseCSVLineFrom_fields; [|exact Hin]. constructor.
Qed.

End Csv.

(** * The ranking of keywords *)

Module Keywords.

Import JsString Notions Store Ranking DocumentService Spec.
Local Open Scope string_scope.
Local Open Scope list_scope.

Lemma bump_counted (o : JsObj.t Frequency) (c : string -> nat) (w : string) :
  mem w Embedding.prototypeNames = false ->
  counted o c ->
  counted (bump o w) (fun k => if string_dec w k then S (c k) else c k).
Proof.
  intros Hw Hc k. unfold bump. rewrite (Hc w).
  assert (Hp : String.eqb w "__proto__" = false).
  { destruct (String.eqb_spec w "__proto__") as [->|]; [|reflexivity].
    discriminate Hw. }
  destruct (c w) as [|n] eqn:Ecw.
  - rewrite Hp, Hw. rewrite ObjFacts.get_set.
    destruct (String.eqb_spec k w) as [->|Hne].
    + destruct (string_dec w w); [|congruence]. now rewrite Ecw.
    + destruct (string_dec w k); [congruence|]. apply Hc.
  - rewrite ObjFacts.get_set.
    destruct (String.eqb_spec k w) as [->|Hne].
    + destruct (string_dec w w); [|congruence]. rewrite Ecw.
      now rewrite Nat.add_1_r.
    + destruct (string_dec w k); [congruence|]. apply Hc.
Qed.

Lemma fold_bump_counted (ws : list string) (o : JsObj.t Frequency)
  (c : string -> nat) :
  Forall (fun w => mem w Embedding.prototypeNames = false) ws ->
  counted o c ->
  counted (fold_left bump ws o)
          (fun k => (count_occ string_dec ws k + c k)%nat).
Proof.
  revert o c. induction ws as [|w ws IH]; intros o c Hall Hc.
  - exact Hc.
  - inversion Hall as [|? ? Hw Hws]; subst. simpl fold_left.
    pose proof (IH _ _ Hws (bump_counted o c w Hw Hc)) as H.
    intros k. rewrite (H k). simpl count_occ.
    destruct (string_dec w k);
      [rewrite Nat.add_succ_r|]; reflexivity.
Qed.

Lemma obj_In_get (V : Type) (o : JsObj.t V) (k : string) (v : V) :
  NoDup (JsObj.keys o) -> In (k, v) o -> JsObj.get o k = Some v.
Proof.
  unfold JsObj.keys.
  induction o as [|[k0 v0] o IH]; simpl; intros Hnd Hin; [contradiction|].
  inversion Hnd as [|? ? Hk0 Hnd']; subst.
  destruct Hin as [E|Hin].
  - injection E as -> ->. now rewrite String.eqb_refl.
  - destruct (String.eqb_spec k k0) as [->|Hne]; [|now apply IH].
    exfalso. apply Hk0. change k0 with (fst (k0, v)). now apply in_map.
Qed.

Lemma obj_get_In (V : Type) (o : JsObj.t V) (k : string) (v : V) :
  JsObj.get o k = Some v -> In (k, v) o.
Proof.
  induction o as [|[k0 v0] o IH]; simpl; [discriminate|].
  destruct (String.eqb_spec k k0) as [->|Hne].
  - intros H. injection H as <-. now left.
  - intros H. right. now apply IH.
Qed.

Section SortExt.

Variable A : Type.
Variables f g : A -> A -> bool.
Variable P : A -> Prop.
Hypothesis agree : forall x y, P x -> P y -> f x y = g x y.

Lemma insert_ext (x : A) (l : list A) :
  P x -> Forall P l -> JsArray.insert f x l = JsArray.insert g x l.
Proof.
  intros Hx. induction 1 as [|y l Hy Hl IH]; simpl; [reflexivity|].
  rewrite (agree x y Hx Hy). now rewrite IH.
Qed.

Lemma sort_ext (l : list A) :
  Forall P l -> JsArray.sort f l = JsArray.sort g l.
Proof.
  induction 1 as [|x l Hx Hl IH]; simpl; [reflexivity|].
  rewrite IH. apply insert_ext; [assumption|].
  rewrite Forall_forall in *. intros y Hy. apply Hl.
  eapply Permutation_in; [symmetry; apply ListFacts.sort_Permutation|].
  exact Hy.
Qed.

End SortExt.

Lemma StronglySorted_map_in (A B : Type) (R : A -> A -> Prop)
  (R' : B -> B -> Prop) (f : A -> B) (l : list A) :
  (forall a b, In a l -> In b l -> R a b -> R' (f a) (f b)) ->
  StronglySorted R l -> StronglySorted R' (map f l).
Proof.
  intros H Hs. induction Hs as [|x l Hl IH Hx]; simpl; constructor.
  - apply IH. intros a b Ha Hb. apply H; now right.
  - rewrite Forall_forall in *. intros y Hy.
    apply in_map_iff in Hy. destruct Hy as [b [<- Hb]].
    apply H; [now left|now right|]. now apply Hx.
Qed.

Lemma byCount_spec (a b : string * Frequency) :
  byCount a b = true <-> (countOf b <= countOf a)%R.
Proof.
  unfold byCount. destruct (Rle_dec (countOf b) (countOf a));
    split; intros; try assumption; try reflexivity; try discriminate.
  contradiction.
Qed.

Lemma frequency_entries (text : string) :
  Forall (fun w => mem w Embedding.prototypeNames = false)
         (keywordWords text) ->
  let frequency := fold_left bump (keywordWords text)
                             (@JsObj.empty Frequency) in
  (forall k v, In (k, v) frequency -> v = Count (occurrences text k))
  /\ (forall w, In w (keywordWords text) ->
        In (w, Count (occurrences text w)) frequency).
Proof.
  intros Hall frequency.
  assert (Hc : counted frequency (occurrences text)).
  { pose proof (fold_bump_counted (keywordWords text)
                  (@JsObj.empty Frequency) (fun _ => O) Hall) as H.
    intros k. unfold frequency. rewrite H by (intros k'; reflexivity).
    unfold occurrences. now rewrite Nat.add_0_r. }
  destruct (fold_bump_keys (keywordWords text) (@JsObj.empty Frequency))
    as [Hnd _]; [constructor|].
  split.
  - intros k v Hin. apply obj_In_get in Hin; [|exact Hnd].
    fold frequency in Hin. rewrite (Hc k) in Hin.
    destruct (occurrences text k); [discriminate|congruence].
  - intros w Hw. apply obj_get_In. rewrite (Hc w).
    assert (Hpos : (0 < occurrences text w)%nat).
    { unfold occurrences. now apply count_occ_In. }
    destruct (occurrences text w); [lia|reflexivity].
Qed.

(** X25: [extractKeywords] ranks by frequency: when no counted word names an
    inherited property, the keywords stand in descending order of their
    number of occurrences, and a counted word that is not among them
    occurs no more often than any of the eight that are. *)
Theorem extractKeywords_ranked (text : string) :
  Forall (fun w => mem w Embedding.prototypeNames = false)
         (keywordWords text) ->
  StronglySorted (fun a b => (occurrences text b <= occurrences text a)%nat)
                 (extractKeywords text)
  /\ forall w, In w (keywordWords text) ->
       In w (extractKeywords text)
       \/ (length (extractKeywords text) = 8%nat
           /\ forall k, In k (extractKeywords text) ->
                (occurrences text w <= occurrences text k)%nat).
Proof.
  intros Hall.
  destruct (frequency_entries text Hall) as [Hval Hin]. cbv zeta in Hval, Hin.
  unfold extractKeywords. fold (keywordWords text). cbv zeta.
  set (frequency := fold_left bump (keywordWords text)
                              (@JsObj.empty Frequency)) in *.
  assert (Hext : JsArray.sort (fun a b => (byFrequency a b <=? 0)%Z) frequency
                 = JsArray.sort byCount frequency).
  { apply (sort_ext _ _ _ (fun e => In e frequency)).
    - intros [k1 v1] [k2 v2] H1 H2.
      rewrite (Hval _ _ H1), (Hval _ _ H2).
      unfold byFrequency, byCount, countOf. simpl.
      destruct (Rle_dec (INR (occurrences text k2))
                        (INR (occurrences text k1))) as [Hle|Hgt].
      + apply INR_le in Hle. apply Z.leb_le. lia.
      + apply Z.leb_gt.
        assert (occurrences text k1 < occurrences text k2)%nat; [|lia].
        destruct (le_lt_dec (occurrences text k2) (occurrences text k1))
          as [H|H]; [|assumption].
        exfalso. apply Hgt. now apply le_INR.
    - apply Forall_forall. auto. }
  rewrite Hext.
  set (sorted := JsArray.sort byCount frequency).
  assert (Hp : Permutation frequency sorted)
    by apply ListFacts.sort_Permutation.
  assert (Hs : StronglySorted (descending countOf) sorted)
    by apply (ListFacts.sort_StronglySorted countOf byCount byCount_spec).
  assert (Hord : forall a b, In a sorted -> In b sorted ->
                   descending countOf a b ->
                   (occurrences text (fst b) <= occurrences text (fst a))%nat).
  { intros [k1 v1] [k2 v2] H1 H2.
    apply (Permutation_in _ (Permutation_sym Hp)) in H1, H2.
    rewrite (Hval _ _ H1), (Hval _ _ H2).
    unfold descending, countOf. simpl. apply INR_le. }
  split.
  - apply (StronglySorted_map_in _ _ (descending countOf)).
    + intros a b Ha Hb. apply Hord.
      * eapply ListFacts.Subsequence_In;
          [apply ListFacts.Subsequence_firstn|exact Ha].
      * eapply ListFacts.Subsequence_In;
          [apply ListFacts.Subsequence_firstn|exact Hb].
    + now apply ListFacts.StronglySorted_firstn.
  - intros w Hw.
    assert (Hw' : In (w, Count (occurrences text w)) sorted).
    { eapply Permutation_in; [exact Hp|]. now apply Hin. }
    rewrite <- (firstn_skipn 8 sorted) in Hw', Hs.
    apply in_app_or in Hw'. destruct Hw' as [Hw'|Hw'].
    { left. apply in_map_iff. now exists (w, Count (occurrences text w)). }
    right. split.
    + rewrite length_map, length_firstn. apply Nat.min_l.
      destruct (le_lt_dec 8 (length sorted)) as [Hle|Hlt]; [assumption|].
      rewrite skipn_all2 in Hw' by lia. contradiction.
    + intros k Hk. apply in_map_iff in Hk. destruct Hk as [e [<- He]].
      apply (Hord e (w, Count (occurrences text w))).
      * eapply ListFacts.Subsequence_In;
          [apply ListFacts.Subsequence_firstn|exact He].
      * rewrite <- (firstn_skipn 8 sorted). apply in_or_app. now right.
      * exact (StronglySorted_app_inv _ _ _ _ _ _ Hs He Hw').
Qed.

Lemma fruitText_words :
  Forall (fun w => mem w Embedding.prototypeNames = false)
         (keywordWords fruitText).
Proof.
  assert (H : keywordWords fruitText
              = ["banana"; "apple"; "banana"; "cherry"; "banana"; "apple"])
    by reflexivity.
  rewrite H. repeat constructor.
Qed.

Lemma extractKeywords_ranked_witness :
  Forall (fun w => mem w Embedding.prototypeNames = false)
         (keywordWords fruitText)
  /\ StronglySorted
       (fun a b => (occurrences fruitText b <= occurrences fruitText a)%nat)
       (extractKeywords fruitText)
  /\ forall w, In w (keywordWords fruitText) ->
       In w (extractKeywords fruitText)
       \/ (length (extractKeywords fruitText) = 8%nat
           /\ forall k, In k (extractKeywords fruitText) ->
                (occurrences fruitText w <= occurrences fruitText k)%nat).
Proof.
  split; [exact fruitText_words|].
  exact (extractKeywords_ranked fruitText fruitText_words).
Defined.

End Keywords.
